(** * Sudoku solver (src/solve.py): a shallow embedding and its properties

    The numpy arrays of the program are modelled as lists: a 2-D array is
    the list of its rows ([grid]), an n-D array is a shape with its flat
    data ([ndarray], used by [valid_sudoku] only, the one function that
    inspects the shape).  Cell values are integers ([Z]); indices are
    natural numbers.  Exceptions are explicit: every fallible function
    returns an [outcome]. *)

From Stdlib Require Import ZArith List Lia.
From stdpp Require Import base list gmap strings sorting.

Open Scope Z_scope.

(** ** Outcomes: a value, a Python exception, or an exhausted fuel budget *)

Inductive exn := IndexError | ValueError.

Inductive outcome (A : Type) :=
  | Returned (a : A)
  | Raised (e : exn)
  | OutOfFuel.
Arguments Returned {A} a.
Arguments Raised {A} e.
Arguments OutOfFuel {A}.

#[global] Instance exn_eq_dec : EqDecision exn.
Proof. solve_decision. Defined.

#[global] Instance outcome_eq_dec {A} `{EqDecision A} : EqDecision (outcome A).
Proof. solve_decision. Defined.

#[global] Instance outcome_ret : MRet outcome := λ A a, Returned a.
#[global] Instance outcome_bind : MBind outcome := λ A B f m,
  match m with
  | Returned a => f a
  | Raised e => Raised e
  | OutOfFuel => OutOfFuel
  end.
#[global] Instance outcome_fmap : FMap outcome := λ A B f m,
  match m with
  | Returned a => Returned (f a)
  | Raised e => Raised e
  | OutOfFuel => OutOfFuel
  end.

(** ** Module constants (solve.py, lines 4-6) *)

Definition arange (n : nat) : list Z := Z.of_nat <$> seq 0 n.
Definition valid_numbers : list Z := arange 10.
Definition list_numbers : list Z := drop 1 valid_numbers.
Definition set_numbers : gset Z := list_to_set list_numbers.

(** [range(a, b)] *)
Definition range (a b : Z) : list Z :=
  (λ i, a + Z.of_nat i) <$> seq 0 (Z.to_nat (b - a)).

(** ** Arrays *)

(** An array of any rank: its [shape] and its cells in row-major order. *)
Record ndarray := NdArray { shape : list nat; data : list Z }.

(** A 2-D array as the list of its rows.  Every row of a numpy array has
    the same length; the theorems below assume the 9x9 shape wherever the
    shape matters. *)
Abbreviation grid := (list (list Z)).

Definition ncols (g : grid) : nat := from_option length 0%nat (head g).

Definition as_ndarray (g : grid) : ndarray :=
  NdArray [length g; ncols g] (mjoin g).

(** [sudoku[y, x]] as a partial read (used in statements). *)
Definition getitem (g : grid) (y x : nat) : option Z :=
  row ← g !! y; row !! x.

(** [sudoku[y, x] = n]: numpy raises IndexError out of range. *)
Definition setitem (g : grid) (y x : nat) (n : Z) : outcome grid :=
  match g !! y with
  | Some row =>
      if decide (x < length row)%nat
      then Returned (<[y := <[x := n]> row]> g)
      else Raised IndexError
  | None => Raised IndexError
  end.

(** [sudoku[y]] *)
Definition getrow (g : grid) (y : nat) : outcome (list Z) :=
  match g !! y with
  | Some row => Returned row
  | None => Raised IndexError
  end.

(** [sudoku[:, x]] *)
Definition getcol (g : grid) (x : nat) : outcome (list Z) :=
  if decide (x < ncols g)%nat
  then Returned ((λ row, default 0 (row !! x)) <$> g)
  else Raised IndexError.

(** [l[lo:hi]] for non-negative bounds; [hi = None] is the open slice
    [l[lo:]].  Slices never raise: they are clipped to the list. *)
Definition slice {A} (lo : nat) (hi : option nat) (l : list A) : list A :=
  match hi with
  | Some h => take (h - lo) (drop lo l)
  | None => drop lo l
  end.

(** [sudoku[y0:y1, x0:x1]] *)
Definition slice2 (g : grid) (y0 : nat) (y1 : option nat)
    (x0 : nat) (x1 : option nat) : grid :=
  slice x0 x1 <$> slice y0 y1 g.

(** [a.flatten()] of a 2-D array *)
Definition flatten (g : grid) : list Z := mjoin g.

(** [np.transpose(sudoku)] of a 2-D array *)
Definition transpose (g : grid) : grid :=
  (λ x, (λ row, default 0 (row !! x)) <$> g) <$> seq 0 (ncols g).

(** The row-major list of index pairs of a 2-D array. *)
Definition indices (g : grid) : list (nat * nat) :=
  mjoin (imap (λ y row, pair y <$> seq 0 (length row)) g).

(** The pairs [(y, x)] of [np.where(sudoku == v)]: the positions holding
    [v], in row-major order. *)
Definition where_eq (g : grid) (v : Z) : list (nat * nat) :=
  filter (λ p, getitem g p.1 p.2 = Some v) (indices g).

(** [np.any(cells == n)] *)
Definition any_eq (cells : list Z) (n : Z) : bool :=
  existsb (λ c, c =? n) cells.

(** [np.all(np.isin(cells, valid_numbers))] *)
Definition all_isin (cells : list Z) (allowed : list Z) : bool :=
  forallb (λ c, existsb (λ a, c =? a) allowed) cells.

(** ** valid_sudoku (solve.py, lines 30-50) *)

Definition valid_sudoku (sudoku : ndarray) : bool :=
  let shape := filter (λ value, value ≠ 1%nat) (shape sudoku) in
  let dim :=
    bool_decide (length shape = 2%nat) &&
    bool_decide (shape !! 0%nat = shape !! 1%nat ∧ shape !! 1%nat = Some 9%nat) in
  let num := all_isin (data sudoku) valid_numbers in
  dim && num.

(** ** load_sudoku (solve.py, lines 8-28)

    [np.genfromtxt] reads and parses the file; its result is the input
    [parsed] of the model.  What [load_sudoku] itself does is the check. *)

Definition load_sudoku (parsed : ndarray) : outcome ndarray :=
  let sudoku := parsed in
  if valid_sudoku sudoku then Returned sudoku
  else Raised ValueError.

(** ** check_sudoku (solve.py, lines 52-80) *)

(** [set(r) == set_numbers] *)
Definition is_set_numbers (r : list Z) : bool :=
  bool_decide (list_to_set r =@{gset Z} set_numbers).

Definition check_sudoku (sudoku : grid) : bool :=
  let rows := forallb is_set_numbers sudoku in
  let cols := forallb is_set_numbers (transpose sudoku) in
  let q1 := is_set_numbers (flatten (slice2 sudoku 0 (Some 3%nat) 0 (Some 3%nat))) in
  let q2 := is_set_numbers (flatten (slice2 sudoku 0 (Some 3%nat) 3 (Some 6%nat))) in
  let q3 := is_set_numbers (flatten (slice2 sudoku 0 (Some 3%nat) 6 None)) in
  let q4 := is_set_numbers (flatten (slice2 sudoku 3 (Some 6%nat) 0 (Some 3%nat))) in
  let q5 := is_set_numbers (flatten (slice2 sudoku 3 (Some 6%nat) 3 (Some 6%nat))) in
  let q6 := is_set_numbers (flatten (slice2 sudoku 3 (Some 6%nat) 6 None)) in
  let q7 := is_set_numbers (flatten (slice2 sudoku 6 None 0 (Some 3%nat))) in
  let q8 := is_set_numbers (flatten (slice2 sudoku 6 None 3 (Some 6%nat))) in
  let q9 := is_set_numbers (flatten (slice2 sudoku 6 None 6 None)) in
  forallb id [rows; cols; q1; q2; q3; q4; q5; q6; q7; q8; q9].

(** ** possible (solve.py, lines 150-176) *)

Definition possible (sudoku : grid) (y x : nat) (n : Z) : outcome bool :=
  row ← getrow sudoku y;
  if any_eq row n then mret false else
  col ← getcol sudoku x;
  if any_eq col n then mret false else
  let x0 := (x / 3 * 3)%nat in
  let y0 := (y / 3 * 3)%nat in
  if any_eq (flatten (slice2 sudoku y0 (Some (y0 + 3)%nat) x0 (Some (x0 + 3)%nat))) n
  then mret false
  else mret true.

(** ** pretty_print (solve.py, lines 98-116)

    A Python string is the list of its characters, a character being a
    Rocq string that holds one code point.  [print] appends a line to the
    standard output, which the model threads through the function: what
    was printed before an exception stays printed. *)

Abbreviation pystr := (list string).
Abbreviation stdout := (list pystr).

Definition io (A : Type) : Type := stdout → stdout * outcome A.

#[global] Instance io_ret : MRet io := λ A a out, (out, Returned a).
#[global] Instance io_bind : MBind io := λ A B f m out,
  match m out with
  | (out', Returned a) => f a out'
  | (out', Raised e) => (out', Raised e)
  | (out', OutOfFuel) => (out', OutOfFuel)
  end.

(** An exception, or a value, inside [io] *)
Definition lift {A} (m : outcome A) : io A := λ out, (out, m).

(** [print(line)] *)
Definition print (line : pystr) : io unit := λ out, (out ++ [line], Returned tt).

(** [for x in l: body] *)
Fixpoint for_each {A} (l : list A) (body : A → io unit) : io unit :=
  match l with
  | [] => mret tt
  | x :: l' => _ ← body x; for_each l' body
  end.

(** [l[n]] on a list or a string: a negative index counts from the end,
    an index out of range raises IndexError. *)
Definition py_index {A} (l : list A) (n : Z) : outcome A :=
  let len := Z.of_nat (length l) in
  let i := if decide (n < 0) then len + n else n in
  if decide (0 ≤ i < len)
  then match l !! Z.to_nat i with
       | Some a => Returned a
       | None => Raised IndexError
       end
  else Raised IndexError.

(** [s[n]] is a string of one character. *)
Definition str_index (s : pystr) (n : Z) : outcome pystr :=
  c ← py_index s n; mret [c].

(** [s * k] *)
Definition str_repeat (s : pystr) (k : nat) : pystr := mjoin (replicate k s).

(** [sep.join(l)] *)
Fixpoint str_join (sep : pystr) (l : list pystr) : pystr :=
  match l with
  | [] => []
  | [s] => s
  | s :: l' => s ++ sep ++ str_join sep l'
  end.

(** [s.split(sep)] for a separator of one character *)
Fixpoint str_split (sep : string) (s : pystr) : list pystr :=
  match s with
  | [] => [[]]
  | c :: s' =>
      if decide (c = sep) then [] :: str_split sep s'
      else match str_split sep s' with
           | p :: ps => (c :: p) :: ps
           | [] => [[c]]
           end
  end.

Definition expandLine (base : nat) (line : pystr) : outcome pystr :=
  first ← str_index line 0;
  mret (first
        ++ str_join (slice 5 (Some 9%nat) line)
             (replicate base (str_repeat (slice 1 (Some 5%nat) line) (base - 1)))
        ++ slice 9 (Some 13%nat) line).

(** [" 1234567890ABCDEFGHIJKLMNOPQRSTUVWXYZ"] *)
Definition symbol : pystr :=
  [" "; "1"; "2"; "3"; "4"; "5"; "6"; "7"; "8"; "9"; "0";
   "A"; "B"; "C"; "D"; "E"; "F"; "G"; "H"; "I"; "J"; "K"; "L"; "M";
   "N"; "O"; "P"; "Q"; "R"; "S"; "T"; "U"; "V"; "W"; "X"; "Y"; "Z"].

Definition pretty_print (sudoku : grid) : io unit :=
  let base := 3%nat in
  let side := (base * base)%nat in
  line0 ← lift (expandLine base ["╔";"═";"═";"═";"╤";"═";"═";"═";"╦";"═";"═";"═";"╗"]);
  line1 ← lift (expandLine base ["║";" ";".";" ";"│";" ";".";" ";"║";" ";".";" ";"║"]);
  line2 ← lift (expandLine base ["╟";"─";"─";"─";"┼";"─";"─";"─";"╫";"─";"─";"─";"╢"]);
  line3 ← lift (expandLine base ["╠";"═";"═";"═";"╪";"═";"═";"═";"╬";"═";"═";"═";"╣"]);
  line4 ← lift (expandLine base ["╚";"═";"═";"═";"╧";"═";"═";"═";"╩";"═";"═";"═";"╝"]);
  nums ← lift (mapM (λ row : list Z,
                       glyphs ← mapM (str_index symbol) row;
                       mret ([] :: glyphs)) sudoku);
  _ ← print line0;
  for_each (range 1 (Z.of_nat side + 1)) (λ r,
    row ← lift (py_index nums (r - 1));
    _ ← print (mjoin ((λ ns : pystr * pystr, ns.1 ++ ns.2)
                        <$> zip row (str_split "." line1)));
    sep ← lift (py_index [line2; line3; line4]
                  (bool_to_Z (bool_decide (r `mod` Z.of_nat side = 0))
                   + bool_to_Z (bool_decide (r `mod` Z.of_nat base = 0))));
    print sep).

(** ** solve (solve.py, lines 119-135)

    [solve] mutates two objects that all its recursive calls share, the
    working array and the list of solutions; the model threads them as a
    [state].  [sudoku.copy()] is a fresh array that only the list refers
    to and that [solve] never writes, so the list holds values.  The
    Python function returns the list; the model returns the whole final
    state, so that the side effect on the working array can be stated.
    [interactive] is taken at its default [False] (the printing and the
    prompt do not touch the state). *)

(** [max_solutions]: an integer, or ['max'], which line 121 turns into
    [np.inf]. *)
Inductive max_solutions := Limit (m : Z) | Unbounded.

(** [len(_sudoku_solutions) < max_solutions] *)
Definition below (len : nat) (max : max_solutions) : bool :=
  match max with
  | Limit m => bool_decide (Z.of_nat len < m)
  | Unbounded => true
  end.

Record state := State { sudoku : grid; solutions : list grid }.

(** [sudoku.copy()] *)
Definition copy (g : grid) : grid := g.

(** The body of the loop over [n] (lines 124-128); [rec] is the recursive
    call. *)
Definition try_digit (rec : state → outcome state) (max : max_solutions)
    (y0 x0 : nat) (n : Z) (s : state) : outcome state :=
  ok ← possible (sudoku s) y0 x0 n;
  if ok : bool then
    g1 ← setitem (sudoku s) y0 x0 n;
    s2 ← rec (State g1 (solutions s));
    if below (length (solutions s2)) max then
      g3 ← setitem (sudoku s2) y0 x0 0;
      mret (State g3 (solutions s2))
    else mret s2
  else mret s.

(** [for n in ns: ...] (line 123) *)
Fixpoint for_digits (rec : state → outcome state) (max : max_solutions)
    (y0 x0 : nat) (ns : list Z) (s : state) : outcome state :=
  match ns with
  | [] => mret s
  | n :: ns' =>
      s' ← try_digit rec max y0 x0 n s;
      for_digits rec max y0 x0 ns' s'
  end.

(** One unit of [fuel] per nested call.  The outer loop of line 122 runs
    its body for the first empty cell only: the body ends in [return]. *)
Fixpoint solve_rec (fuel : nat) (max : max_solutions) (s : state) : outcome state :=
  match fuel with
  | O => OutOfFuel
  | S fuel' =>
      match where_eq (sudoku s) 0 with
      | (y0, x0) :: _ =>
          for_digits (solve_rec fuel' max) max y0 x0 (range 1 10) s
      | [] =>
          mret (State (sudoku s) (solutions s ++ [copy (sudoku s)]))
      end
  end.

(** The number of empty cells. *)
Definition zeros (g : grid) : nat := length (where_eq g 0).

(** A top-level call: [_sudoku_solutions] starts as the empty list. *)
Definition solve (sudoku : grid) (max : max_solutions) : outcome state :=
  solve_rec (S (zeros sudoku)) max (State sudoku []).

(** ** solve with [interactive] (solve.py, lines 131-133)

    [solve_io] is [solve_rec] with the parameter [interactive] and the
    standard output.  [input(prompt)] writes the prompt and waits for a
    line, which [solve] discards; standard input is assumed to deliver
    one.  The prompt is recorded as one more entry of the output. *)

(** ['otra solución?'] *)
Definition prompt : pystr :=
  ["o"; "t"; "r"; "a"; " "; "s"; "o"; "l"; "u"; "c"; "i"; "ó"; "n"; "?"].

Definition input (prompt : pystr) : io unit :=
  λ out, (out ++ [prompt], Returned tt).

Definition try_digit_io (rec : state → io state) (max : max_solutions)
    (y0 x0 : nat) (n : Z) (s : state) : io state :=
  ok ← lift (possible (sudoku s) y0 x0 n);
  if ok : bool then
    g1 ← lift (setitem (sudoku s) y0 x0 n);
    s2 ← rec (State g1 (solutions s));
    if below (length (solutions s2)) max then
      g3 ← lift (setitem (sudoku s2) y0 x0 0);
      mret (State g3 (solutions s2))
    else mret s2
  else mret s.

Fixpoint for_digits_io (rec : state → io state) (max : max_solutions)
    (y0 x0 : nat) (ns : list Z) (s : state) : io state :=
  match ns with
  | [] => mret s
  | n :: ns' =>
      s' ← try_digit_io rec max y0 x0 n s;
      for_digits_io rec max y0 x0 ns' s'
  end.

Fixpoint solve_io (fuel : nat) (max : max_solutions) (interactive : bool)
    (s : state) : io state :=
  match fuel with
  | O => lift OutOfFuel
  | S fuel' =>
      match where_eq (sudoku s) 0 with
      | (y0, x0) :: _ =>
          for_digits_io (solve_io fuel' max interactive) max y0 x0 (range 1 10) s
      | [] =>
          _ ← (if interactive
               then _ ← pretty_print (sudoku s); input prompt
               else mret tt);
          mret (State (sudoku s) (solutions s ++ [copy (sudoku s)]))
      end
  end.

(** ** generate_sudoku (solve.py, lines 82-95)

    The two random draws are inputs of the model: [shuffled] is the array
    [diag] after [np.random.shuffle], a permutation of [list_numbers];
    [choice k] is the result of [np.random.choice(np.arange(9*9), size=k,
    replace=False)], [k] distinct indices below 81.  [file_path] is taken
    at its default [None]: writing the file does not change the result. *)

(** [np.diag(v)] of a 1-D array *)
Definition np_diag (v : list Z) : grid :=
  imap (λ i d, <[i := d]> (replicate (length v) 0)) v.

(** [sudoku.ravel()[idx] = n]: the cells at the flat row-major indices
    [idx] are overwritten; an index out of range raises IndexError. *)
Fixpoint ravel_setitem (g : grid) (idx : list nat) (n : Z) : outcome grid :=
  match idx with
  | [] => mret g
  | i :: idx' =>
      g' ← setitem g (i / ncols g) (i mod ncols g) n;
      ravel_setitem g' idx' n
  end.

Definition generate_sudoku (difficulty : string) (shuffled : list Z)
    (choice : nat → list nat) : outcome grid :=
  numbersin ←
    (if decide (difficulty = "easy") then mret 30%nat
     else if decide (difficulty = "medium") then mret 24%nat
     else if decide (difficulty = "hard") then mret 17%nat
     else Raised ValueError);
  let diag := shuffled in
  s ← solve (np_diag diag) (Limit 1);
  match solutions s with
  | [] => Raised IndexError
  | sudoku :: _ =>
      let idx := choice (9 * 9 - numbersin)%nat in
      ravel_setitem sudoku idx 0
  end.

(** ** The calls of a search

    [solve_calls] is [solve_rec] that also returns the tree of its
    recursive calls: a node holds the working grid as the call received
    it, and one subtree per recursive call made by its loop, in order.
    The tree is a ghost value: erasing it gives [solve_rec] back
    (lemma [solve_calls_erase]). *)

Inductive calls := Call (received : grid) (made : list calls).

Definition entry (t : calls) : grid := let 'Call g _ := t in g.

Definition try_digit_calls (rec : state → outcome (state * calls))
    (max : max_solutions) (y0 x0 : nat) (n : Z)
    (st : state * list calls) : outcome (state * list calls) :=
  ok ← possible (sudoku st.1) y0 x0 n;
  if ok : bool then
    g1 ← setitem (sudoku st.1) y0 x0 n;
    r ← rec (State g1 (solutions st.1));
    if below (length (solutions r.1)) max then
      g3 ← setitem (sudoku r.1) y0 x0 0;
      mret (State g3 (solutions r.1), st.2 ++ [r.2])
    else mret (r.1, st.2 ++ [r.2])
  else mret st.

Fixpoint for_digits_calls (rec : state → outcome (state * calls))
    (max : max_solutions) (y0 x0 : nat) (ns : list Z)
    (st : state * list calls) : outcome (state * list calls) :=
  match ns with
  | [] => mret st
  | n :: ns' =>
      st' ← try_digit_calls rec max y0 x0 n st;
      for_digits_calls rec max y0 x0 ns' st'
  end.

Fixpoint solve_calls (fuel : nat) (max : max_solutions) (s : state)
    : outcome (state * calls) :=
  match fuel with
  | O => OutOfFuel
  | S fuel' =>
      match where_eq (sudoku s) 0 with
      | (y0, x0) :: _ =>
          st ← for_digits_calls (solve_calls fuel' max) max y0 x0 (range 1 10) (s, []);
          mret (st.1, Call (sudoku s) st.2)
      | [] =>
          mret (State (sudoku s) (solutions s ++ [copy (sudoku s)]),
                Call (sudoku s) [])
      end
  end.

(** The depth of the recursion below a call. *)
Fixpoint height (t : calls) : nat :=
  match t with
  | Call _ cs =>
      (fix go (cs : list calls) : nat :=
         match cs with
         | [] => O
         | c :: cs' => Nat.max (S (height c)) (go cs')
         end) cs
  end.

(** Every call makes at most 9 recursive calls, each on a grid with
    strictly fewer empty cells than the grid the call received. *)
Inductive descends : calls → Prop :=
  | descends_Call g cs :
      (length cs ≤ 9)%nat →
      Forall (λ c, (zeros (entry c) < zeros g)%nat ∧ descends c) cs →
      descends (Call g cs).

(** ** Specification vocabulary *)

(** The lengths of the rows: two grids with the same row lengths have the
    same shape. *)
Definition row_lengths (g : grid) : list nat := length <$> g.

Definition shape99 (g : grid) : Prop :=
  length g = 9%nat ∧ Forall (λ row, length row = 9%nat) g.

Definition in_range (g : grid) : Prop :=
  Forall (Forall (λ c, 0 ≤ c ≤ 9)) g.

(** A well-formed puzzle: 9x9 with every cell in 0..9. *)
Definition well_formed (g : grid) : Prop := shape99 g ∧ in_range g.

(** Two positions share a row, a column or a 3x3 box. *)
Definition related (p q : nat * nat) : Prop :=
  p.1 = q.1 ∨ p.2 = q.2 ∨ (p.1 / 3 = q.1 / 3 ∧ p.2 / 3 = q.2 / 3)%nat.

(** No digit other than 0 occurs twice in a row, a column or a box. *)
Definition no_conflict (g : grid) : Prop :=
  ∀ p q v, p ≠ q → related p q →
    getitem g p.1 p.2 = Some v → getitem g q.1 q.2 = Some v → v = 0.

(** No cell is empty. *)
Definition full (g : grid) : Prop := ∀ y x, getitem g y x ≠ Some 0.

(** [g'] has the shape of [g] and keeps every non-zero cell of [g]. *)
Definition extends (g g' : grid) : Prop :=
  row_lengths g' = row_lengths g ∧
  ∀ y x v, getitem g y x = Some v → v ≠ 0 → getitem g' y x = Some v.

(** [c] is a valid completion of [g]: a 9x9 grid that passes
    [check_sudoku] and agrees with [g] on the givens. *)
Definition completion (g c : grid) : Prop :=
  shape99 c ∧ check_sudoku c = true ∧
  ∀ y x v, getitem g y x = Some v → v ≠ 0 → getitem c y x = Some v.

(** The digit [n] occurs in row [r], in column [c], or in the 3x3 box
    whose origin is [(r/3*3, c/3*3)]. *)
Definition occurs (g : grid) (r c : nat) (n : Z) : Prop :=
  (∃ x, getitem g r x = Some n) ∨
  (∃ y, getitem g y c = Some n) ∨
  (∃ y x, (r / 3 * 3 ≤ y < r / 3 * 3 + 3)%nat ∧
          (c / 3 * 3 ≤ x < c / 3 * 3 + 3)%nat ∧ getitem g y x = Some n).

(** The 27 regions of the board, as lists of positions: the rows, the
    columns, and the boxes in the order [q1 .. q9] of [check_sudoku]. *)
Definition row_cells (y : nat) : list (nat * nat) := pair y <$> seq 0 9.
Definition col_cells (x : nat) : list (nat * nat) := (λ y, (y, x)) <$> seq 0 9.
Definition box_cells (b c : nat) : list (nat * nat) :=
  y ← seq (3 * b) 3; x ← seq (3 * c) 3; [(y, x)].
Definition boxes : list (list (nat * nat)) :=
  b ← seq 0 3; c ← seq 0 3; [box_cells b c].
Definition regions : list (list (nat * nat)) :=
  (row_cells <$> seq 0 9) ++ (col_cells <$> seq 0 9) ++ boxes.

(** The values a grid holds at a list of positions. *)
Definition cells (g : grid) (ps : list (nat * nat)) : list Z :=
  (λ p, default 0 (getitem g p.1 p.2)) <$> ps.

(** The 9x9 grid whose cell [(y, x)] is [f y x]. *)
Definition tabulate (f : nat → nat → Z) : grid :=
  (λ y, f y <$> seq 0 9) <$> seq 0 9.

(** A partially filled 9x9 board of digits without conflicts. *)
Definition valid_partial (g : grid) : Prop :=
  shape99 g ∧ in_range g ∧ no_conflict g.

(** What a call of [solve] that returns does to the shared state, for any
    grid: the list of solutions only grows, by full grids that keep the
    givens; the working grid keeps its shape and its non-zero cells; and
    it is restored when the count is still below [max]. *)
Definition frame_cond (max : max_solutions) (s s' : state) : Prop :=
  (∃ new, solutions s' = solutions s ++ new ∧
          Forall (λ c, full c ∧ extends (sudoku s) c) new) ∧
  extends (sudoku s) (sudoku s') ∧
  (below (length (solutions s')) max = true → sudoku s' = sudoku s).

(** The search keeps a conflict-free board conflict-free, and records
    conflict-free grids only. *)
Definition sound_cond (s s' : state) : Prop :=
  valid_partial (sudoku s') ∧
  (Forall valid_partial (solutions s) → Forall valid_partial (solutions s')).

(** [c] fills the empty cells of [g] the way the search can: a full 9x9
    grid of digits that keeps the givens of [g], and in which the digit
    of a cell that is empty in [g] occurs in no other cell of its row,
    column or box.  Nothing is asked of two givens of [g]: a filling of
    a board whose givens clash keeps the clash. *)
Definition filling (g c : grid) : Prop :=
  shape99 c ∧ in_range c ∧ full c ∧
  (∀ y x v, getitem g y x = Some v → v ≠ 0 → getitem c y x = Some v) ∧
  ∀ p q v, p ≠ q → related p q → getitem g p.1 p.2 = Some 0 →
    getitem c p.1 p.2 = Some v → getitem c q.1 q.2 = Some v → False.

(** A 9x9 board of digits in which a digit that repeats in a row, a
    column or a box does so between two givens of [G] only. *)
Definition placed_partial (G g : grid) : Prop :=
  shape99 g ∧ in_range g ∧
  ∀ p q v, p ≠ q → related p q → getitem G p.1 p.2 = Some 0 →
    getitem g p.1 p.2 = Some v → getitem g q.1 q.2 = Some v → v = 0.

(** The search adds no clash to those of the givens of [G], neither on
    the working grid nor in the grids it records. *)
Definition placed_cond (G : grid) (s s' : state) : Prop :=
  placed_partial G (sudoku s') ∧
  (Forall (placed_partial G) (solutions s) →
   Forall (placed_partial G) (solutions s')).

(** When the count of solutions reaches [max] during a call, the call
    stops recording: the last recorded grid is the working grid itself. *)
Definition freeze_cond (max : max_solutions) (s s' : state) : Prop :=
  below (length (solutions s)) max = true →
  below (length (solutions s')) max = false →
  ∃ new, solutions s' = solutions s ++ new ++ [sudoku s'] ∧
         below (length (solutions s ++ new)) max = true.



(** [max_solutions] is a positive integer or unbounded. *)
Definition positive_limit (max : max_solutions) : Prop :=
  match max with Limit m => 1 ≤ m | Unbounded => True end.

(** ** Example boards *)

Definition example_puzzle : grid :=
  [[5;3;0;0;7;0;0;0;0];
   [6;0;0;1;9;5;0;0;0];
   [0;9;8;0;0;0;0;6;0];
   [8;0;0;0;6;0;0;0;3];
   [4;0;0;8;0;3;0;0;1];
   [7;0;0;0;2;0;0;0;6];
   [0;6;0;0;0;0;2;8;0];
   [0;0;0;4;1;9;0;0;5];
   [0;0;0;0;8;0;0;7;9]].

Definition example_solution : grid :=
  [[5;3;4;6;7;8;9;1;2];
   [6;7;2;1;9;5;3;4;8];
   [1;9;8;3;4;2;5;6;7];
   [8;5;9;7;6;1;4;2;3];
   [4;2;6;8;5;3;7;9;1];
   [7;1;3;9;2;4;8;5;6];
   [9;6;1;5;3;7;2;8;4];
   [2;8;7;4;1;9;6;3;5];
   [3;4;5;2;8;6;1;7;9]].

(** [example_solution] with the cell (0,0) emptied. *)
Definition one_missing : grid :=
  [[0;3;4;6;7;8;9;1;2];
   [6;7;2;1;9;5;3;4;8];
   [1;9;8;3;4;2;5;6;7];
   [8;5;9;7;6;1;4;2;3];
   [4;2;6;8;5;3;7;9;1];
   [7;1;3;9;2;4;8;5;6];
   [9;6;1;5;3;7;2;8;4];
   [2;8;7;4;1;9;6;3;5];
   [3;4;5;2;8;6;1;7;9]].

(** [one_missing] with the given at (8,8) changed from 9 to 7: the last
    row holds two 7s, so the board has no valid completion. *)
Definition clashing_givens : grid :=
  [[0;3;4;6;7;8;9;1;2];
   [6;7;2;1;9;5;3;4;8];
   [1;9;8;3;4;2;5;6;7];
   [8;5;9;7;6;1;4;2;3];
   [4;2;6;8;5;3;7;9;1];
   [7;1;3;9;2;4;8;5;6];
   [9;6;1;5;3;7;2;8;4];
   [2;8;7;4;1;9;6;3;5];
   [3;4;5;2;8;6;1;7;7]].

(** Givens without any clash, but no digit fits the cell (0,8): the row
    holds 1..8 and the column holds 9. *)
Definition dead_cell : grid :=
  [[1;2;3;4;5;6;7;8;0];
   [0;0;0;0;0;0;0;0;0];
   [0;0;0;0;0;0;0;0;0];
   [0;0;0;0;0;0;0;0;9];
   [0;0;0;0;0;0;0;0;0];
   [0;0;0;0;0;0;0;0;0];
   [0;0;0;0;0;0;0;0;0];
   [0;0;0;0;0;0;0;0;0];
   [0;0;0;0;0;0;0;0;0]].

(** Two 5s in row 0 of an otherwise empty board. *)
Definition two_fives : grid :=
  [[5;5;0;0;0;0;0;0;0];
   [0;0;0;0;0;0;0;0;0];
   [0;0;0;0;0;0;0;0;0];
   [0;0;0;0;0;0;0;0;0];
   [0;0;0;0;0;0;0;0;0];
   [0;0;0;0;0;0;0;0;0];
   [0;0;0;0;0;0;0;0;0];
   [0;0;0;0;0;0;0;0;0];
   [0;0;0;0;0;0;0;0;0]].

(** A full board that breaks every uniqueness rule. *)
Definition all_ones : grid := replicate 9 (replicate 9 1).

(** The number of non-zero cells. *)
Definition count_nonzero (g : grid) : nat :=
  length (filter (λ p, getitem g p.1 p.2 ≠ Some 0) (indices g)).

(** A draw of [k] distinct flat indices of the board, for every size. *)
Definition draws_without_replacement (choice : nat → list nat) : Prop :=
  ∀ k, (k ≤ 81)%nat →
    length (choice k) = k ∧ NoDup (choice k) ∧
    Forall (λ i, (i < 81)%nat) (choice k).

(** The first solution found for the diagonal 1..9, used to build a
    completion of every shuffled diagonal by renaming the digits. *)
Definition diagonal_solution : grid :=
  [[1;4;5;2;3;7;6;9;8];
   [6;2;7;1;8;9;3;4;5];
   [8;9;3;5;6;4;1;2;7];
   [2;1;6;4;7;8;9;5;3];
   [3;7;4;9;5;1;8;6;2];
   [5;8;9;3;2;6;4;7;1];
   [4;5;1;8;9;2;7;3;6];
   [9;6;2;7;1;3;5;8;4];
   [7;3;8;6;4;5;2;1;9]].

(** Rename digit [v] to the [v]-th entry of [shuffled]. *)
Definition rename (shuffled : list Z) (v : Z) : Z :=
  default 0 (shuffled !! (Z.to_nat v - 1)%nat).

(** Apply a renaming of the digits to every cell. *)
Definition relabel (f : Z → Z) (g : grid) : grid :=
  fmap (M := list) f <$> g.

(** [c] comes before [c'] when the cells are read in the order [ps]: the
    two grids agree up to some position, where [c] holds the smaller
    value.  With [ps] the row-major positions of the board this is the
    lexicographic order of the boards. *)
Definition grid_lt (ps : list (nat * nat)) (c c' : grid) : Prop :=
  ∃ l1 p l2 v v', ps = l1 ++ p :: l2 ∧
    (∀ q, q ∈ l1 → getitem c q.1 q.2 = getitem c' q.1 q.2) ∧
    getitem c p.1 p.2 = Some v ∧ getitem c' p.1 p.2 = Some v' ∧ v < v'.

(** A call records its grids in increasing order. *)
Definition sorted_cond (s s' : state) : Prop :=
  ∃ new, solutions s' = solutions s ++ new ∧
         StronglySorted (grid_lt (indices (sudoku s))) new.

(** The run with the limit [m] records the first grids of the run
    without limit. *)
Definition prefix_cond (m : Z) (sL sU : state) (sL' sU' : state) : Prop :=
  ∃ newU, solutions sU' = solutions sU ++ newU ∧
    solutions sL' =
      solutions sL ++ take (Z.to_nat m - length (solutions sL)) newU.

(** The character shown for a cell: a blank for 0, the digit otherwise. *)
Definition glyph (n : Z) : string :=
  default "" ([" "; "1"; "2"; "3"; "4"; "5"; "6"; "7"; "8"; "9"] !! Z.to_nat n).

(** The printed text with the characters at the cell positions (columns
    2, 6, ..., 34 of the lines 1, 3, ..., 17) blanked out. *)
Definition frame_of (out : stdout) : stdout :=
  imap (λ i line,
          if decide (i mod 2 = 1)%nat
          then imap (λ j c, if decide (j mod 4 = 2)%nat then "" else c) line
          else line) out.

(** The character printed at a line and a column. *)
Definition char_at (out : stdout) (i j : nat) : option string :=
  line ← out !! i; line !! j.

(** The table [nums] of [pretty_print] for a 9x9 board whose cell
    [(y, x)] is shown as the character [ch y x]. *)
Definition nums_tab (ch : nat → nat → string) : list (list pystr) :=
  (λ y, [] :: ((λ x, [ch y x]) <$> seq 0 9)) <$> seq 0 9.

(** An output action only appends: it keeps what was printed before, and
    what it prints and returns does not depend on it. *)
Definition appends {A} (m : io A) : Prop :=
  ∀ out0, m out0 = (out0 ++ (m []).1, (m []).2).

(** What an interactive search shows for the grids it records: each
    board, then the prompt. *)
Definition shown (new : list grid) : stdout :=
  mjoin ((λ c, (pretty_print c []).1 ++ [prompt]) <$> new).

(** An output action that writes nothing and computes [o]. *)
Definition silent {A} (m : io A) (o : outcome A) : Prop :=
  ∀ out, m out = (out, o).

(** * Proofs *)

(** ** The model on concrete boards *)

Example solve_example_puzzle :
  solve example_puzzle (Limit 1)
  = Returned (State example_solution [example_solution]).
Proof. vm_compute. reflexivity. Qed.

Example solve_example_puzzle_all :
  solve example_puzzle Unbounded
  = Returned (State example_puzzle [example_solution]).
Proof. vm_compute. reflexivity. Qed.

Example solve_dead_cell :
  solve dead_cell (Limit 1) = Returned (State dead_cell []).
Proof. vm_compute. reflexivity. Qed.

Example check_example_solution : check_sudoku example_solution = true.
Proof. vm_compute. reflexivity. Qed.

Example check_example_puzzle : check_sudoku example_puzzle = false.
Proof. vm_compute. reflexivity. Qed.

Example possible_example :
  possible example_puzzle 0 2 4 = Returned true ∧
  possible example_puzzle 0 2 5 = Returned false ∧
  possible example_puzzle 0 2 8 = Returned false ∧
  possible example_puzzle 0 9 1 = Raised IndexError.
Proof. vm_compute. auto. Qed.

Example valid_example_puzzle :
  valid_sudoku (as_ndarray example_puzzle) = true ∧
  valid_sudoku (NdArray [9; 8]%nat (replicate 72 0)) = false ∧
  valid_sudoku (NdArray [9; 9]%nat (replicate 81 10)) = false.
Proof. vm_compute. auto. Qed.

(** ** Reading and writing cells *)

Lemma getitem_Some (g : grid) y x v :
  getitem g y x = Some v ↔ ∃ row, g !! y = Some row ∧ row !! x = Some v.
Proof.
  unfold getitem. destruct (g !! y) as [row|]; simpl; naive_solver.
Qed.

Lemma row_lengths_lookup (g : grid) y row :
  g !! y = Some row → row_lengths g !! y = Some (length row).
Proof. intros H. unfold row_lengths. by rewrite list_lookup_fmap, H. Qed.

Lemma getitem_is_Some (g : grid) y x :
  is_Some (getitem g y x) ↔ ∃ n, row_lengths g !! y = Some n ∧ (x < n)%nat.
Proof.
  unfold getitem, row_lengths. rewrite list_lookup_fmap.
  destruct (g !! y) as [row|]; simpl.
  - rewrite lookup_lt_is_Some. naive_solver.
  - split; [intros [? ?]; done | naive_solver].
Qed.

Lemma getitem_same_shape (g g' : grid) y x :
  row_lengths g' = row_lengths g →
  is_Some (getitem g y x) → is_Some (getitem g' y x).
Proof. rewrite !getitem_is_Some. by intros ->. Qed.

(** Grids of the same shape with the same cells are equal. *)
Lemma grid_eq (g g' : grid) :
  row_lengths g' = row_lengths g →
  (∀ y x, getitem g' y x = getitem g y x) → g' = g.
Proof.
  intros Hs Hc. apply list_eq. intros y.
  assert (Hy := f_equal (.!! y) Hs). simpl in Hy.
  unfold row_lengths in Hy. rewrite !list_lookup_fmap in Hy.
  specialize (Hc y). unfold getitem in Hc.
  destruct (g' !! y) as [r'|], (g !! y) as [r|]; simpl in *; try done.
  f_equal. apply list_eq. intros x. apply Hc.
Qed.

Lemma setitem_Returned (g : grid) y x n g' :
  setitem g y x n = Returned g' →
  is_Some (getitem g y x) ∧
  row_lengths g' = row_lengths g ∧
  getitem g' y x = Some n ∧
  ∀ y' x', (y', x') ≠ (y, x) → getitem g' y' x' = getitem g y' x'.
Proof.
  unfold setitem. destruct (g !! y) as [row|] eqn:Hrow; [|done].
  case_decide as Hx; [|done]. intros [= <-].
  assert (Hy : (y < length g)%nat) by (by eapply lookup_lt_Some).
  split_and!.
  - unfold getitem. rewrite Hrow. simpl. by apply lookup_lt_is_Some.
  - unfold row_lengths. rewrite list_fmap_insert, length_insert.
    apply list_insert_id. by rewrite list_lookup_fmap, Hrow.
  - unfold getitem. rewrite list_lookup_insert_eq by done. simpl.
    by apply list_lookup_insert_eq.
  - intros y' x' Hne. unfold getitem.
    destruct (decide (y' = y)) as [->|Hy'].
    + rewrite list_lookup_insert_eq, Hrow by done. simpl.
      apply list_lookup_insert_ne. congruence.
    + by rewrite list_lookup_insert_ne.
Qed.

Lemma setitem_is_Returned (g : grid) y x n :
  is_Some (getitem g y x) → ∃ g', setitem g y x n = Returned g'.
Proof.
  intros [v Hv]. apply getitem_Some in Hv as (row & Hrow & Hx).
  unfold setitem. rewrite Hrow. apply lookup_lt_Some in Hx.
  rewrite decide_True by done. eauto.
Qed.

(** ** The index pairs and the empty cells *)

Lemma elem_of_indices (g : grid) y x :
  (y, x) ∈ indices g ↔ is_Some (getitem g y x).
Proof.
  unfold indices. rewrite list_elem_of_join. split.
  - intros (l & Hin & Hl).
    apply elem_of_lookup_imap in Hl as (i & row & -> & Hrow).
    apply list_elem_of_fmap in Hin as (x' & [= -> ->] & Hx).
    apply elem_of_seq in Hx. unfold getitem. rewrite Hrow. simpl.
    apply lookup_lt_is_Some. lia.
  - intros [v Hv]. apply getitem_Some in Hv as (row & Hrow & Hx).
    exists (pair y <$> seq 0 (length row)). split.
    + apply list_elem_of_fmap_2. apply elem_of_seq.
      apply lookup_lt_Some in Hx. lia.
    + by apply (elem_of_lookup_imap_2 (λ y row, pair y <$> seq 0 (length row))).
Qed.

Lemma indices_same_shape (g g' : grid) :
  row_lengths g' = row_lengths g → indices g' = indices g.
Proof.
  intros Hs.
  assert (∀ h : grid, indices h =
    mjoin (imap (λ y n, pair y <$> seq 0 n) (row_lengths h))) as Hi.
  { intros h. unfold indices, row_lengths. by rewrite imap_fmap. }
  by rewrite !Hi, Hs.
Qed.

Lemma elem_of_where_eq (g : grid) v y x :
  (y, x) ∈ where_eq g v ↔ getitem g y x = Some v.
Proof.
  unfold where_eq. rewrite list_elem_of_filter, elem_of_indices. simpl.
  naive_solver.
Qed.

Lemma where_eq_nil (g : grid) v :
  where_eq g v = [] → ∀ y x, getitem g y x ≠ Some v.
Proof.
  intros Hnil y x Hv. apply elem_of_where_eq in Hv.
  rewrite Hnil in Hv. by apply elem_of_nil in Hv.
Qed.

Lemma where_eq_head (g : grid) v y x l :
  where_eq g v = (y, x) :: l → getitem g y x = Some v.
Proof. intros H. apply elem_of_where_eq. rewrite H. left. Qed.

(** Filling cells can only shrink the set of empty cells. *)
Lemma zeros_le (g g' : grid) :
  row_lengths g' = row_lengths g →
  (∀ y x, getitem g' y x = Some 0 → getitem g y x = Some 0) →
  (zeros g' ≤ zeros g)%nat.
Proof.
  intros Hs Hz. unfold zeros, where_eq. rewrite (indices_same_shape g g' Hs).
  rewrite (list_filter_iff (λ p, getitem g' p.1 p.2 = Some 0)
    (λ p, getitem g' p.1 p.2 = Some 0 ∧ getitem g p.1 p.2 = Some 0))
    by naive_solver.
  rewrite <- list_filter_filter. apply length_filter.
Qed.

Lemma zeros_lt (g g' : grid) y0 x0 :
  row_lengths g' = row_lengths g →
  (∀ y x, getitem g' y x = Some 0 → getitem g y x = Some 0) →
  getitem g y0 x0 = Some 0 → getitem g' y0 x0 ≠ Some 0 →
  (zeros g' < zeros g)%nat.
Proof.
  intros Hs Hz H0 H0'. unfold zeros, where_eq.
  rewrite (indices_same_shape g g' Hs).
  rewrite (list_filter_iff (λ p, getitem g' p.1 p.2 = Some 0)
    (λ p, getitem g' p.1 p.2 = Some 0 ∧ getitem g p.1 p.2 = Some 0))
    by naive_solver.
  rewrite <- list_filter_filter.
  apply (length_filter_lt _ _ (y0, x0)); [|done].
  by apply elem_of_where_eq.
Qed.

(** ** The 9x9 shape *)

Lemma shape99_row_lengths (g : grid) :
  shape99 g ↔ row_lengths g = replicate 9 9%nat.
Proof.
  unfold shape99, row_lengths. split.
  - intros [Hl Hr]. apply list_eq_same_length with 9%nat;
      [by rewrite length_replicate | by rewrite length_fmap |].
    intros i a b Hi Ha Hb. rewrite list_lookup_fmap in Ha.
    destruct (g !! i) as [row|] eqn:Hrow; [|done]. simpl in Ha.
    apply lookup_replicate in Hb as [-> _].
    rewrite Forall_lookup in Hr. specialize (Hr _ _ Hrow). congruence.
  - intros H. split.
    + apply (f_equal length) in H. by rewrite length_fmap, length_replicate in H.
    + apply Forall_lookup. intros i row Hrow.
      apply (f_equal (.!! i)) in H. rewrite list_lookup_fmap, Hrow in H.
      symmetry in H. apply lookup_replicate in H as [H _]. by simplify_eq/=.
Qed.

Lemma shape99_same_shape (g g' : grid) :
  row_lengths g' = row_lengths g → shape99 g → shape99 g'.
Proof. rewrite !shape99_row_lengths. congruence. Qed.

Lemma shape99_getitem (g : grid) y x :
  shape99 g → is_Some (getitem g y x) ↔ (y < 9 ∧ x < 9)%nat.
Proof.
  intros H%shape99_row_lengths. rewrite getitem_is_Some, H. split.
  - intros (n & [-> ?]%lookup_replicate & ?). lia.
  - intros [? ?]. exists 9%nat. split; [|done]. by apply lookup_replicate.
Qed.

Lemma shape99_lookup (g : grid) y :
  shape99 g → (y < 9)%nat → ∃ row, g !! y = Some row ∧ length row = 9%nat.
Proof.
  intros [Hl Hr] Hy. destruct (lookup_lt_is_Some_2 g y) as [row Hrow]; [lia|].
  exists row. split; [done|]. rewrite Forall_lookup in Hr. eauto.
Qed.

Lemma shape99_ncols (g : grid) : shape99 g → ncols g = 9%nat.
Proof.
  intros [Hl Hr]. unfold ncols. destruct g as [|row g]; [done|]. simpl.
  by inversion Hr.
Qed.

(** ** possible *)

Lemma any_eq_true (l : list Z) n : any_eq l n = true ↔ n ∈ l.
Proof.
  unfold any_eq. rewrite existsb_exists, list_elem_of_In. split.
  - intros (c & Hin & ->%Z.eqb_eq). done.
  - intros Hin. exists n. by rewrite Z.eqb_refl.
Qed.

Lemma any_eq_false (l : list Z) n : any_eq l n = false ↔ n ∉ l.
Proof. rewrite <- any_eq_true. by destruct (any_eq l n). Qed.

Lemma elem_of_slice {A} (l : list A) lo hi v :
  v ∈ slice lo (Some hi) l ↔ ∃ i, (lo ≤ i < hi)%nat ∧ l !! i = Some v.
Proof.
  unfold slice. rewrite elem_of_take. split.
  - intros (i & Hi & Hlt). rewrite lookup_drop in Hi.
    exists (lo + i)%nat. split; [lia|done].
  - intros (i & Hi & Hv). exists (i - lo)%nat. rewrite lookup_drop.
    replace (lo + (i - lo))%nat with i by lia. split; [done|lia].
Qed.

Lemma elem_of_box (g : grid) y0 y1 x0 x1 n :
  n ∈ flatten (slice2 g y0 (Some y1) x0 (Some x1)) ↔
  ∃ y x, (y0 ≤ y < y1)%nat ∧ (x0 ≤ x < x1)%nat ∧ getitem g y x = Some n.
Proof.
  unfold flatten, slice2. rewrite list_elem_of_join. split.
  - intros (l & Hn & Hl). apply list_elem_of_fmap in Hl as (row & -> & Hrow).
    apply elem_of_slice in Hrow as (y & Hy & Hrow).
    apply elem_of_slice in Hn as (x & Hx & Hn).
    exists y, x. split_and!; [lia..|]. apply getitem_Some. eauto.
  - intros (y & x & Hy & Hx & (row & Hrow & Hn)%getitem_Some).
    exists (slice x0 (Some x1) row). split.
    + apply elem_of_slice. eauto.
    + apply list_elem_of_fmap_2. apply elem_of_slice. eauto.
Qed.

Lemma elem_of_column (g : grid) x n :
  shape99 g → (x < 9)%nat →
  n ∈ (λ row, default 0 (row !! x)) <$> g ↔ ∃ y, getitem g y x = Some n.
Proof.
  intros [Hl Hr] Hx. rewrite list_elem_of_fmap. split.
  - intros (row & -> & Hrow). apply list_elem_of_lookup in Hrow as [y Hy].
    exists y. apply getitem_Some. exists row. split; [done|].
    rewrite Forall_lookup in Hr. specialize (Hr _ _ Hy).
    destruct (lookup_lt_is_Some_2 row x) as [v Hv]; [lia|]. by rewrite Hv.
  - intros (y & (row & Hrow & Hn)%getitem_Some). exists row.
    rewrite Hn. split; [done|]. apply list_elem_of_lookup. eauto.
Qed.

Lemma possible_cases (g : grid) r c n :
  shape99 g → (r < 9)%nat → (c < 9)%nat →
  (possible g r c n = Returned false ∧ occurs g r c n) ∨
  (possible g r c n = Returned true ∧ ¬ occurs g r c n).
Proof.
  intros Hs Hr Hc. unfold possible, getrow, getcol.
  destruct (shape99_lookup g r Hs Hr) as (row & Hrow & Hlen).
  rewrite Hrow, (shape99_ncols g Hs), decide_True by done.
  cbn [mbind outcome_bind mret outcome_ret].
  destruct (any_eq row n) eqn:E1.
  { left. split; [done|]. left. apply any_eq_true, list_elem_of_lookup in E1 as [x Hx].
    exists x. apply getitem_Some. eauto. }
  destruct (any_eq (_ <$> g) n) eqn:E2.
  { left. split; [done|]. right; left.
    by apply any_eq_true, elem_of_column in E2. }
  destruct (any_eq (flatten _) n) eqn:E3.
  { left. split; [done|]. right; right. by apply any_eq_true, elem_of_box in E3. }
  right. split; [done|]. intros [H|[H|H]].
  - apply any_eq_false in E1. apply E1. destruct H as [x Hx].
    apply getitem_Some in Hx as (row' & ? & ?). simplify_eq.
    apply list_elem_of_lookup. eauto.
  - apply any_eq_false in E2. apply E2. by apply elem_of_column.
  - apply any_eq_false in E3. apply E3. by apply elem_of_box.
Qed.

Lemma box_range (y y' : nat) :
  (y / 3 * 3 ≤ y' < y / 3 * 3 + 3)%nat ↔ (y / 3 = y' / 3)%nat.
Proof.
  pose proof (Nat.div_mod_eq y 3). pose proof (Nat.div_mod_eq y' 3).
  pose proof (Nat.mod_upper_bound y 3). pose proof (Nat.mod_upper_bound y' 3).
  lia.
Qed.

Lemma occurs_related (g : grid) r c n :
  occurs g r c n ↔ ∃ q, related (r, c) q ∧ getitem g q.1 q.2 = Some n.
Proof.
  unfold occurs, related. split.
  - intros [[x H]|[[y H]|(y & x & Hy & Hx & H)]].
    + exists (r, x). cbn [fst snd]. eauto.
    + exists (y, c). cbn [fst snd]. eauto.
    + exists (y, x). cbn [fst snd]. apply box_range in Hy, Hx. eauto.
  - intros ([y x] & [H|[H|[Hy Hx]]] & Hn); cbn [fst snd] in *; subst.
    + left. eauto.
    + right; left. eauto.
    + right; right. exists y, x. by rewrite !box_range.
Qed.

(** ** Regions and check_sudoku *)

#[local] Instance related_dec p q : Decision (related p q).
Proof. unfold related. apply _. Defined.

Lemma regions_facts :
  Forall (λ ps : list (nat * nat),
    length ps = 9%nat ∧ NoDup ps ∧
    Forall (λ p, (p.1 < 9)%nat ∧ (p.2 < 9)%nat ∧ Forall (related p) ps) ps)
    regions.
Proof. apply (bool_decide_unpack _). by vm_compute. Qed.

Lemma regions_length ps : ps ∈ regions → length ps = 9%nat.
Proof.
  intros H. pose proof regions_facts as F. rewrite Forall_forall in F.
  by apply F.
Qed.

Lemma regions_NoDup ps : ps ∈ regions → NoDup ps.
Proof.
  intros H. pose proof regions_facts as F. rewrite Forall_forall in F.
  by apply F.
Qed.

Lemma regions_bound ps p :
  ps ∈ regions → p ∈ ps → (p.1 < 9)%nat ∧ (p.2 < 9)%nat.
Proof.
  intros H Hp. pose proof regions_facts as F. rewrite Forall_forall in F.
  destruct (F _ H) as (_ & _ & F'). rewrite Forall_forall in F'.
  split; by apply F'.
Qed.

Lemma regions_related ps p q :
  ps ∈ regions → p ∈ ps → q ∈ ps → related p q.
Proof.
  intros H Hp Hq. pose proof regions_facts as F. rewrite Forall_forall in F.
  destruct (F _ H) as (_ & _ & F'). rewrite Forall_forall in F'.
  destruct (F' _ Hp) as (_ & _ & F''). rewrite Forall_forall in F''. auto.
Qed.

Lemma regions_count : length regions = 27%nat.
Proof. reflexivity. Qed.

(** The regions are the 9 rows, the 9 columns and the 9 boxes. *)
Lemma elem_of_regions ps :
  ps ∈ regions ↔
  (∃ y, (y < 9)%nat ∧ ps = row_cells y) ∨
  (∃ x, (x < 9)%nat ∧ ps = col_cells x) ∨
  (∃ b c, (b < 3)%nat ∧ (c < 3)%nat ∧ ps = box_cells b c).
Proof.
  unfold regions, boxes. rewrite !elem_of_app, !list_elem_of_fmap.
  rewrite list_elem_of_bind.
  setoid_rewrite list_elem_of_bind. setoid_rewrite list_elem_of_singleton.
  setoid_rewrite elem_of_seq. split.
  - intros [(y & -> & ?)|[(x & -> & ?)|(b & (c & -> & ?) & ?)]].
    + left. exists y. split; [lia|done].
    + right; left. exists x. split; [lia|done].
    + right; right. exists b, c. split_and!; [lia..|done].
  - intros [(y & ? & ->)|[(x & ? & ->)|(b & c & ? & ? & ->)]].
    + left. exists y. split; [done|lia].
    + right; left. exists x. split; [done|lia].
    + right; right. exists b. split; [|lia]. exists c. split; [done|lia].
Qed.

(** Two related positions of the board lie in a common region. *)
Lemma related_region p q :
  (p.1 < 9)%nat → (p.2 < 9)%nat → (q.1 < 9)%nat → (q.2 < 9)%nat →
  related p q → ∃ ps, ps ∈ regions ∧ p ∈ ps ∧ q ∈ ps.
Proof.
  destruct p as [y x], q as [y' x']. cbn [fst snd]. intros Hy Hx Hy' Hx' Hrel.
  unfold related in Hrel. cbn [fst snd] in Hrel.
  destruct Hrel as [<-|[<-|[Hb Hc]]].
  - exists (row_cells y). split_and!.
    + unfold regions. apply elem_of_app. left.
      apply list_elem_of_fmap_2, elem_of_seq. lia.
    + apply list_elem_of_fmap_2, elem_of_seq. lia.
    + apply list_elem_of_fmap_2, elem_of_seq. lia.
  - exists (col_cells x). split_and!.
    + unfold regions. apply elem_of_app. right. apply elem_of_app. left.
      apply list_elem_of_fmap_2, elem_of_seq. lia.
    + apply (list_elem_of_fmap_2 (λ y, (y, x))), elem_of_seq. lia.
    + apply (list_elem_of_fmap_2 (λ y, (y, x))), elem_of_seq. lia.
  - assert (∀ b c v w, (3 * b ≤ v < 3 * b + 3)%nat → (3 * c ≤ w < 3 * c + 3)%nat →
              (v, w) ∈ box_cells b c) as Hbox.
    { intros b c v w Hv Hw. unfold box_cells. apply list_elem_of_bind.
      exists v. split; [|apply elem_of_seq; lia].
      apply list_elem_of_bind. exists w. split; [left|apply elem_of_seq; lia]. }
    pose proof (Nat.div_mod_eq y 3). pose proof (Nat.div_mod_eq y' 3).
    pose proof (Nat.mod_upper_bound y 3). pose proof (Nat.mod_upper_bound y' 3).
    pose proof (Nat.div_mod_eq x 3). pose proof (Nat.div_mod_eq x' 3).
    pose proof (Nat.mod_upper_bound x 3). pose proof (Nat.mod_upper_bound x' 3).
    exists (box_cells (y / 3) (x / 3)). split_and!.
    + unfold regions. apply elem_of_app. right. apply elem_of_app. right.
      unfold boxes. apply list_elem_of_bind. exists (y / 3)%nat.
      split; [|apply elem_of_seq; lia].
      apply list_elem_of_bind. exists (x / 3)%nat.
      split; [left|apply elem_of_seq; lia].
    + apply Hbox; lia.
    + apply Hbox; lia.
Qed.

Lemma getitem_tabulate f y x :
  (y < 9)%nat → (x < 9)%nat → getitem (tabulate f) y x = Some (f y x).
Proof.
  intros Hy Hx. apply getitem_Some. exists (f y <$> seq 0 9). unfold tabulate.
  split; rewrite list_lookup_fmap; by rewrite lookup_seq_lt.
Qed.

Lemma row_lengths_tabulate f : row_lengths (tabulate f) = replicate 9 9%nat.
Proof. reflexivity. Qed.

Lemma shape99_tabulate (g : grid) :
  shape99 g → g = tabulate (λ y x, default 0 (getitem g y x)).
Proof.
  intros Hs. apply grid_eq.
  - rewrite row_lengths_tabulate. by apply shape99_row_lengths.
  - intros y x. destruct (decide (y < 9 ∧ x < 9)%nat) as [[Hy Hx]|Hn].
    + rewrite getitem_tabulate by done.
      destruct (proj2 (shape99_getitem g y x Hs) (conj Hy Hx)) as [v ->]. reflexivity.
    + assert (∀ h : grid, shape99 h → getitem h y x = None) as Hnone.
      { intros h Hh. apply eq_None_not_Some. by rewrite shape99_getitem. }
      rewrite !Hnone; try done.
      apply shape99_row_lengths, row_lengths_tabulate.
Qed.

Lemma check_sudoku_tabulate f :
  check_sudoku (tabulate f) =
  forallb (λ ps, is_set_numbers ((λ p, f p.1 p.2) <$> ps)) regions.
Proof.
  unfold regions. rewrite !forallb_app.
  cbv -[is_set_numbers]. reflexivity.
Qed.

Lemma check_sudoku_regions (g : grid) :
  shape99 g →
  check_sudoku g = forallb (λ ps, is_set_numbers (cells g ps)) regions.
Proof.
  intros Hs. rewrite (shape99_tabulate g Hs) at 1.
  by rewrite check_sudoku_tabulate.
Qed.

Lemma list_numbers_eq : list_numbers = [1; 2; 3; 4; 5; 6; 7; 8; 9].
Proof. reflexivity. Qed.

Lemma elem_of_list_numbers v : v ∈ list_numbers ↔ 1 ≤ v ≤ 9.
Proof.
  rewrite list_numbers_eq. rewrite !elem_of_cons, elem_of_nil. lia.
Qed.

Lemma NoDup_list_numbers : NoDup list_numbers.
Proof. rewrite list_numbers_eq. apply (bool_decide_unpack _). by vm_compute. Qed.

Lemma is_set_numbers_perm (l : list Z) :
  length l = 9%nat → is_set_numbers l = true ↔ l ≡ₚ list_numbers.
Proof.
  intros Hlen. unfold is_set_numbers, set_numbers.
  rewrite bool_decide_eq_true. split.
  - intros Heq. symmetry. apply submseteq_length_Permutation.
    + apply NoDup_submseteq; [apply NoDup_list_numbers|].
      intros v Hv. apply (elem_of_list_to_set (C := gset Z)).
      rewrite Heq. by apply elem_of_list_to_set.
    + by rewrite Hlen.
  - intros Hp. by apply list_to_set_perm_L.
Qed.

Lemma cells_length (g : grid) ps : length (cells g ps) = length ps.
Proof. unfold cells. by rewrite length_fmap. Qed.

Lemma cells_lookup (g : grid) ps i p :
  shape99 g → ps ∈ regions → ps !! i = Some p →
  cells g ps !! i = getitem g p.1 p.2 ∧ is_Some (getitem g p.1 p.2).
Proof.
  intros Hs Hps Hi. unfold cells. rewrite list_lookup_fmap, Hi. simpl.
  assert (is_Some (getitem g p.1 p.2)) as [v Hv].
  { apply shape99_getitem; [done|]. eapply regions_bound; [done|].
    apply list_elem_of_lookup. eauto. }
  rewrite Hv. eauto.
Qed.

(** [check_sudoku] holds exactly when the values of every region are a
    permutation of the digits 1..9. *)
Lemma check_sudoku_perm (g : grid) :
  shape99 g →
  check_sudoku g = true ↔ ∀ ps, ps ∈ regions → cells g ps ≡ₚ list_numbers.
Proof.
  intros Hs. rewrite check_sudoku_regions, forallb_forall by done. split.
  - intros H ps Hps. apply is_set_numbers_perm.
    + by rewrite cells_length, regions_length.
    + by apply H, list_elem_of_In.
  - intros H ps Hps%list_elem_of_In. apply is_set_numbers_perm; [|by apply H].
    by rewrite cells_length, regions_length.
Qed.

(** ** Complete grids *)

Lemma in_range_getitem (g : grid) :
  in_range g ↔ ∀ y x v, getitem g y x = Some v → 0 ≤ v ≤ 9.
Proof.
  unfold in_range. rewrite Forall_lookup. split.
  - intros H y x v (row & Hrow & Hv)%getitem_Some.
    specialize (H _ _ Hrow). rewrite Forall_lookup in H. eauto.
  - intros H y row Hrow. apply Forall_lookup. intros x v Hv.
    apply (H y x). apply getitem_Some. eauto.
Qed.

(** In a grid that passes [check_sudoku], two distinct positions of a
    common row, column or box hold different values. *)
Lemma complete_distinct (c : grid) p q v :
  shape99 c → check_sudoku c = true → p ≠ q → related p q →
  getitem c p.1 p.2 = Some v → getitem c q.1 q.2 = Some v → False.
Proof.
  intros Hs Hc Hne Hrel Hp Hq.
  destruct (proj1 (shape99_getitem c p.1 p.2 Hs)) as [Hp1 Hp2]; [eauto|].
  destruct (proj1 (shape99_getitem c q.1 q.2 Hs)) as [Hq1 Hq2]; [eauto|].
  destruct (related_region p q Hp1 Hp2 Hq1 Hq2 Hrel) as (ps & Hps & Hpin & Hqin).
  rewrite check_sudoku_perm in Hc by done. specialize (Hc ps Hps).
  assert (NoDup (cells c ps)) as Hnd.
  { rewrite Hc. apply NoDup_list_numbers. }
  apply list_elem_of_lookup in Hpin as [i Hi], Hqin as [j Hj].
  destruct (cells_lookup c ps i p Hs Hps Hi) as [Hci _].
  destruct (cells_lookup c ps j q Hs Hps Hj) as [Hcj _].
  rewrite Hp in Hci. rewrite Hq in Hcj.
  rewrite NoDup_alt in Hnd. specialize (Hnd _ _ _ Hci Hcj). congruence.
Qed.

Lemma complete_no_conflict (c : grid) :
  shape99 c → check_sudoku c = true → no_conflict c.
Proof.
  intros Hs Hc p q v Hne Hrel Hp Hq. by destruct (complete_distinct c p q v).
Qed.

Lemma complete_range (c : grid) y x v :
  shape99 c → check_sudoku c = true → getitem c y x = Some v → 1 ≤ v ≤ 9.
Proof.
  intros Hs Hc Hv.
  destruct (proj1 (shape99_getitem c y x Hs)) as [Hy Hx]; [eauto|].
  rewrite check_sudoku_perm in Hc by done.
  assert (row_cells y ∈ regions) as Hps.
  { unfold regions. apply elem_of_app. left.
    apply list_elem_of_fmap_2, elem_of_seq. lia. }
  specialize (Hc _ Hps). apply elem_of_list_numbers. rewrite <- Hc.
  apply list_elem_of_lookup. exists x.
  destruct (cells_lookup c (row_cells y) x (y, x) Hs Hps) as [-> _]; [|done].
  unfold row_cells. rewrite list_lookup_fmap. by rewrite lookup_seq_lt.
Qed.

Lemma complete_full (c : grid) :
  shape99 c → check_sudoku c = true → full c.
Proof.
  intros Hs Hc y x Hv. apply (complete_range c y x 0 Hs Hc) in Hv. lia.
Qed.

(** A full 9x9 grid of digits without conflicts passes [check_sudoku]. *)
Lemma full_no_conflict_complete (g : grid) :
  shape99 g → in_range g → full g → no_conflict g → check_sudoku g = true.
Proof.
  intros Hs Hr Hf Hnc. apply check_sudoku_perm; [done|]. intros ps Hps.
  rewrite in_range_getitem in Hr.
  apply submseteq_length_Permutation.
  - apply NoDup_submseteq.
    + apply NoDup_alt. intros i j v Hi Hj.
      destruct (decide (i = j)) as [|Hne]; [done|exfalso].
      assert (is_Some (ps !! i)) as [p Hp].
      { apply lookup_lt_is_Some. rewrite <- (cells_length g).
        by eapply lookup_lt_Some. }
      assert (is_Some (ps !! j)) as [q Hq].
      { apply lookup_lt_is_Some. rewrite <- (cells_length g).
        by eapply lookup_lt_Some. }
      destruct (cells_lookup g ps i p Hs Hps Hp) as [Hci _].
      destruct (cells_lookup g ps j q Hs Hps Hq) as [Hcj _].
      rewrite Hi in Hci. rewrite Hj in Hcj.
      assert (p ≠ q) as Hpq.
      { intros ->. pose proof (regions_NoDup ps Hps) as Hnd.
        rewrite NoDup_alt in Hnd. by specialize (Hnd _ _ _ Hp Hq). }
      assert (related p q) as Hrel.
      { eapply regions_related; [done| |]; apply list_elem_of_lookup; eauto. }
      specialize (Hnc p q v Hpq Hrel (eq_sym Hci) (eq_sym Hcj)). subst v.
      by apply (Hf p.1 p.2).
    + intros v [i Hi]%list_elem_of_lookup.
      assert (is_Some (ps !! i)) as [p Hp].
      { apply lookup_lt_is_Some. rewrite <- (cells_length g).
        by eapply lookup_lt_Some. }
      destruct (cells_lookup g ps i p Hs Hps Hp) as [Hci _].
      rewrite Hi in Hci. symmetry in Hci.
      apply elem_of_list_numbers. specialize (Hr _ _ _ Hci).
      assert (v ≠ 0) by (intros ->; by apply (Hf p.1 p.2)). lia.
  - by rewrite cells_length, regions_length.
Qed.

(** ** The search: inversion of the loop *)

Lemma bind_Returned {A B} (m : outcome A) (f : A → outcome B) b :
  m ≫= f = Returned b ↔ ∃ a, m = Returned a ∧ f a = Returned b.
Proof. destruct m; simpl; naive_solver. Qed.

Lemma try_digit_Returned rec max y0 x0 n s s' :
  try_digit rec max y0 x0 n s = Returned s' →
  (possible (sudoku s) y0 x0 n = Returned false ∧ s' = s) ∨
  (possible (sudoku s) y0 x0 n = Returned true ∧
   ∃ g1 s2, setitem (sudoku s) y0 x0 n = Returned g1 ∧
     rec (State g1 (solutions s)) = Returned s2 ∧
     ((below (length (solutions s2)) max = true ∧
       ∃ g3, setitem (sudoku s2) y0 x0 0 = Returned g3 ∧
             s' = State g3 (solutions s2)) ∨
      (below (length (solutions s2)) max = false ∧ s' = s2))).
Proof.
  unfold try_digit. intros ([|] & Hp & H)%bind_Returned.
  - right. split; [done|].
    apply bind_Returned in H as (g1 & Hg1 & H).
    apply bind_Returned in H as (s2 & Hs2 & H).
    exists g1, s2. split_and!; [done..|].
    destruct (below _ max).
    + left. split; [done|].
      apply bind_Returned in H as (g3 & Hg3 & [= <-]). eauto.
    + right. by injection H.
  - left. split; [done|]. by injection H.
Qed.

Lemma for_digits_cons rec max y0 x0 n ns s s' :
  for_digits rec max y0 x0 (n :: ns) s = Returned s' ↔
  ∃ s1, try_digit rec max y0 x0 n s = Returned s1 ∧
        for_digits rec max y0 x0 ns s1 = Returned s'.
Proof. simpl. apply bind_Returned. Qed.

Lemma range_1_10 : range 1 10 = [1; 2; 3; 4; 5; 6; 7; 8; 9].
Proof. reflexivity. Qed.

Lemma elem_of_range_1_10 n : n ∈ range 1 10 ↔ 1 ≤ n ≤ 9.
Proof. rewrite range_1_10, !elem_of_cons, elem_of_nil. lia. Qed.

Lemma solve_rec_S fuel max s :
  solve_rec (S fuel) max s =
  match where_eq (sudoku s) 0 with
  | (y0, x0) :: _ => for_digits (solve_rec fuel max) max y0 x0 (range 1 10) s
  | [] => Returned (State (sudoku s) (solutions s ++ [copy (sudoku s)]))
  end.
Proof. reflexivity. Qed.

(** ** Order on grids *)

Lemma extends_refl (g : grid) : extends g g.
Proof. by split. Qed.

Lemma extends_trans (g1 g2 g3 : grid) :
  extends g1 g2 → extends g2 g3 → extends g1 g3.
Proof.
  intros [Hs1 H1] [Hs2 H2]. split; [congruence|]. eauto.
Qed.

Lemma extends_zero (g g' : grid) y x :
  extends g g' → getitem g' y x = Some 0 → getitem g y x = Some 0.
Proof.
  intros [Hs He] H0.
  destruct (getitem_same_shape g' g y x) as [v Hv]; [done|eauto|].
  destruct (decide (v = 0)) as [->|Hne]; [done|].
  specialize (He _ _ _ Hv Hne). congruence.
Qed.

Lemma below_mono n m max :
  (n ≤ m)%nat → below m max = true → below n max = true.
Proof.
  destruct max as [k|]; simpl; [|done]. rewrite !bool_decide_eq_true. lia.
Qed.

(** Writing a cell that is empty in [g] keeps [extends g]. *)
Lemma extends_setitem (g h h' : grid) y x n :
  extends g h → getitem g y x = Some 0 → setitem h y x n = Returned h' →
  extends g h'.
Proof.
  intros [Hs He] H0 (_ & Hs' & _ & Ho)%setitem_Returned.
  split; [congruence|]. intros y' x' v Hv Hne.
  rewrite Ho; [eauto|]. intros [= -> ->]. congruence.
Qed.

(** Placing a digit in an empty cell and clearing it again restores the
    grid. *)
Lemma setitem_undo (g g1 g2 g3 : grid) y x n :
  getitem g y x = Some 0 →
  setitem g y x n = Returned g1 → g2 = g1 →
  setitem g2 y x 0 = Returned g3 → g3 = g.
Proof.
  intros H0 (_ & Hs1 & _ & Ho1)%setitem_Returned ->
    (_ & Hs3 & Hc3 & Ho3)%setitem_Returned.
  apply grid_eq; [congruence|]. intros y' x'.
  destruct (decide ((y', x') = (y, x))) as [[= -> ->]|Hne]; [congruence|].
  rewrite Ho3, Ho1; done.
Qed.

(** ** What every returning call does (any grid, any limit) *)

Section frame.
Variable rec : state → outcome state.
Variable max : max_solutions.
Hypothesis rec_frame : ∀ s s', rec s = Returned s' → frame_cond max s s'.

Variables (g : grid) (sols : list grid) (y0 x0 : nat).
Hypothesis cell_empty : getitem g y0 x0 = Some 0.

Lemma try_digit_frame n s s' :
  frame_cond max (State g sols) s →
  try_digit rec max y0 x0 n s = Returned s' →
  frame_cond max (State g sols) s'.
Proof.
  intros Hs Htry.
  apply try_digit_Returned in Htry
    as [[_ ->]|(_ & g1 & s2 & Hg1 & Hrec & Hcase)]; [done|].
  destruct Hs as ((new & Hnew & Hfull) & Hext & Hres). simpl in *.
  apply rec_frame in Hrec as ((new2 & Hnew2 & Hfull2) & Hext2 & Hres2).
  simpl in *.
  assert (extends g g1) as Hg by (by eapply extends_setitem).
  assert (∃ new', solutions s2 = sols ++ new' ∧
            Forall (λ c, full c ∧ extends g c) new') as Hsols.
  { exists (new ++ new2). split; [by rewrite Hnew2, Hnew, app_assoc|].
    apply Forall_app. split; [done|].
    eapply Forall_impl; [done|]. intros c [? ?]. split; [done|].
    by eapply extends_trans. }
  destruct Hcase as [(Hb & g3 & Hg3 & ->)|(Hb & ->)]; simpl.
  - split_and!; simpl; [done| |].
    + eapply extends_setitem; [|done..]. by eapply extends_trans.
    + intros _. eapply (setitem_undo g g1 (sudoku s2) g3); [done| |by auto|done].
      rewrite <- Hres; [done|]. eapply below_mono; [|exact Hb].
      rewrite Hnew2, length_app. lia.
  - split_and!; simpl; [done|by eapply extends_trans|congruence].
Qed.

Lemma for_digits_frame ns s s' :
  frame_cond max (State g sols) s →
  for_digits rec max y0 x0 ns s = Returned s' →
  frame_cond max (State g sols) s'.
Proof.
  revert s. induction ns as [|n ns IH]; intros s Hs H.
  - simpl in H. by injection H as <-.
  - apply for_digits_cons in H as (s1 & H1 & H).
    eapply IH; [|done]. by eapply try_digit_frame.
Qed.
End frame.

Lemma frame_cond_refl max s : frame_cond max s s.
Proof.
  split_and!; [|apply extends_refl|done].
  exists []. by rewrite app_nil_r.
Qed.

Lemma solve_rec_frame fuel max s s' :
  solve_rec fuel max s = Returned s' → frame_cond max s s'.
Proof.
  revert s s'. induction fuel as [|fuel IH]; intros s s' H; [done|].
  rewrite solve_rec_S in H.
  destruct (where_eq (sudoku s) 0) as [|[y0 x0] l] eqn:Hw.
  - injection H as <-. split_and!; simpl; [|apply extends_refl|done].
    exists [sudoku s]. split; [done|]. apply Forall_singleton.
    split; [|apply extends_refl]. intros y x. by apply where_eq_nil.
  - destruct s as [g sols].
    eapply (for_digits_frame _ max IH g sols y0 x0); [|apply frame_cond_refl|done].
    by eapply where_eq_head.
Qed.

(** ** Termination: fuel above the number of empty cells is enough *)

Lemma extends_shape99 (g g' : grid) : extends g g' → shape99 g → shape99 g'.
Proof. intros [Hs _]. by apply shape99_same_shape. Qed.

(** After a digit is written into a cell that is empty in [g], fewer
    cells are empty than in [g]. *)
Lemma zeros_setitem (g h h' : grid) y x n :
  extends g h → getitem g y x = Some 0 → n ≠ 0 →
  setitem h y x n = Returned h' → (zeros h' < zeros g)%nat.
Proof.
  intros Hext H0 Hn Hset.
  pose proof (extends_setitem g h h' y x n Hext H0 Hset) as [Hs' _].
  apply setitem_Returned in Hset as (_ & _ & Hc & Ho).
  apply (zeros_lt g h' y x); [done| |done|congruence].
  intros y' x' Hz. destruct (decide ((y', x') = (y, x))) as [[= -> ->]|Hne].
  - congruence.
  - rewrite Ho in Hz by done. by eapply extends_zero.
Qed.

Section returns.
Variable rec : state → outcome state.
Variable max : max_solutions.
Variable bound : nat.
Hypothesis rec_frame : ∀ s s', rec s = Returned s' → frame_cond max s s'.
Hypothesis rec_returns : ∀ s,
  shape99 (sudoku s) → (zeros (sudoku s) < bound)%nat →
  ∃ s', rec s = Returned s'.

Variables (g : grid) (sols : list grid) (y0 x0 : nat).
Hypothesis cell_empty : getitem g y0 x0 = Some 0.
Hypothesis g_shape : shape99 g.
Hypothesis g_zeros : (zeros g ≤ bound)%nat.

Lemma try_digit_returns n s :
  n ≠ 0 → frame_cond max (State g sols) s →
  ∃ s', try_digit rec max y0 x0 n s = Returned s'.
Proof.
  intros Hn (_ & Hext & _). simpl in Hext.
  assert (shape99 (sudoku s)) as Hs by (by eapply extends_shape99).
  destruct (proj1 (shape99_getitem g y0 x0 g_shape)) as [Hy Hx]; [eauto|].
  unfold try_digit.
  destruct (possible_cases (sudoku s) y0 x0 n Hs Hy Hx) as [[-> _]|[-> _]];
    cbn [mbind outcome_bind]; [eauto|].
  destruct (setitem_is_Returned (sudoku s) y0 x0 n) as [g1 Hg1].
  { by apply shape99_getitem. }
  rewrite Hg1. cbn [mbind outcome_bind].
  destruct (rec_returns (State g1 (solutions s))) as [s2 Hs2]; simpl.
  { apply setitem_Returned in Hg1 as (_ & Hs1 & _).
    by eapply shape99_same_shape. }
  { pose proof (zeros_setitem g (sudoku s) g1 y0 x0 n Hext cell_empty Hn Hg1).
    lia. }
  rewrite Hs2. cbn [mbind outcome_bind].
  destruct (below _ max); [|eauto].
  destruct (setitem_is_Returned (sudoku s2) y0 x0 0) as [g3 Hg3].
  { apply rec_frame in Hs2 as (_ & [Hsh _] & _). simpl in Hsh.
    apply getitem_same_shape with g1; [done|].
    apply setitem_Returned in Hg1 as (_ & _ & Hc & _). eauto. }
  rewrite Hg3. cbn [mbind outcome_bind]. eauto.
Qed.

Lemma for_digits_returns ns s :
  Forall (λ n, n ≠ 0) ns → frame_cond max (State g sols) s →
  ∃ s', for_digits rec max y0 x0 ns s = Returned s'.
Proof.
  revert s. induction ns as [|n ns IH]; intros s Hns Hs; [simpl; eauto|].
  apply Forall_cons in Hns as [Hn Hns].
  destruct (try_digit_returns n s Hn Hs) as [s1 H1].
  destruct (IH s1 Hns) as [s' H'].
  { by eapply (try_digit_frame rec max rec_frame g sols y0 x0). }
  exists s'. apply for_digits_cons. eauto.
Qed.
End returns.

Lemma range_1_10_nonzero : Forall (λ n, n ≠ 0) (range 1 10).
Proof. apply Forall_forall. intros n Hn%elem_of_range_1_10. lia. Qed.

Lemma solve_rec_returns fuel max s :
  shape99 (sudoku s) → (zeros (sudoku s) < fuel)%nat →
  ∃ s', solve_rec fuel max s = Returned s'.
Proof.
  revert s. induction fuel as [|fuel IH]; intros s Hs Hz; [lia|].
  rewrite solve_rec_S.
  destruct (where_eq (sudoku s) 0) as [|[y0 x0] l] eqn:Hw; [eauto|].
  destruct s as [g sols]. simpl in Hs, Hz, Hw.
  eapply (for_digits_returns (solve_rec fuel max) max fuel
            (solve_rec_frame fuel max) IH g sols y0 x0).
  - by eapply where_eq_head.
  - done.
  - lia.
  - apply range_1_10_nonzero.
  - apply frame_cond_refl.
Qed.

(** More fuel does not change a result. *)
Lemma try_digit_ext rec rec' max y0 x0 n s s' :
  (∀ t t', rec t = Returned t' → rec' t = Returned t') →
  try_digit rec max y0 x0 n s = Returned s' →
  try_digit rec' max y0 x0 n s = Returned s'.
Proof.
  intros Hrec. unfold try_digit. intros (ok & -> & H)%bind_Returned.
  cbn [mbind outcome_bind]. destruct ok; [|done].
  apply bind_Returned in H as (g1 & -> & H). cbn [mbind outcome_bind].
  apply bind_Returned in H as (s2 & ->%Hrec & H). done.
Qed.

Lemma for_digits_ext rec rec' max y0 x0 ns s s' :
  (∀ t t', rec t = Returned t' → rec' t = Returned t') →
  for_digits rec max y0 x0 ns s = Returned s' →
  for_digits rec' max y0 x0 ns s = Returned s'.
Proof.
  intros Hrec. revert s. induction ns as [|n ns IH]; intros s; [done|].
  rewrite !for_digits_cons. intros (s1 & H1 & H). exists s1.
  split; [by eapply try_digit_ext|by apply IH].
Qed.

Lemma solve_rec_fuel_mono fuel fuel' max s s' :
  (fuel ≤ fuel')%nat →
  solve_rec fuel max s = Returned s' → solve_rec fuel' max s = Returned s'.
Proof.
  revert fuel' s s'. induction fuel as [|fuel IH]; intros fuel' s s' Hle H; [done|].
  destruct fuel' as [|fuel']; [lia|]. rewrite solve_rec_S in *.
  destruct (where_eq (sudoku s) 0) as [|[y0 x0] l]; [done|].
  eapply for_digits_ext; [|done]. intros t t'. apply IH. lia.
Qed.

(** ** Soundness: the search keeps the board free of conflicts *)

Lemma related_sym p q : related p q → related q p.
Proof. unfold related. naive_solver. Qed.

Lemma valid_setitem_digit (g g1 : grid) y x n :
  valid_partial g → possible g y x n = Returned true → 1 ≤ n ≤ 9 →
  setitem g y x n = Returned g1 → valid_partial g1.
Proof.
  intros (Hs & Hr & Hnc) Hp Hn (Hsome & Hs1 & Hc & Ho)%setitem_Returned.
  destruct (proj1 (shape99_getitem g y x Hs) Hsome) as [Hy Hx].
  destruct (possible_cases g y x n Hs Hy Hx) as [[? _]|[_ Hocc]]; [congruence|].
  rewrite occurs_related in Hocc.
  split_and!.
  - by eapply shape99_same_shape.
  - apply in_range_getitem. intros y' x' v Hv.
    destruct (decide ((y', x') = (y, x))) as [[= -> ->]|Hne].
    + rewrite Hc in Hv. injection Hv as <-. lia.
    + rewrite Ho in Hv by done. by eapply in_range_getitem.
  - intros [py px] [qy qx] v Hne Hrel Hpv Hqv. cbn [fst snd] in *.
    destruct (decide ((py, px) = (y, x))) as [[= -> ->]|Hp1];
      destruct (decide ((qy, qx) = (y, x))) as [[= -> ->]|Hq1]; [done|..].
    + rewrite Hc in Hpv. injection Hpv as <-. rewrite Ho in Hqv by done.
      destruct Hocc. exists (qy, qx). eauto.
    + rewrite Hc in Hqv. injection Hqv as <-. rewrite Ho in Hpv by done.
      destruct Hocc. exists (py, px). split; [by apply related_sym|done].
    + rewrite Ho in Hpv, Hqv by done. by eapply (Hnc (py, px) (qy, qx)).
Qed.

Lemma valid_setitem_zero (g g1 : grid) y x :
  valid_partial g → setitem g y x 0 = Returned g1 → valid_partial g1.
Proof.
  intros (Hs & Hr & Hnc) (Hsome & Hs1 & Hc & Ho)%setitem_Returned.
  split_and!.
  - by eapply shape99_same_shape.
  - apply in_range_getitem. intros y' x' v Hv.
    destruct (decide ((y', x') = (y, x))) as [[= -> ->]|Hne].
    + rewrite Hc in Hv. injection Hv as <-. lia.
    + rewrite Ho in Hv by done. by eapply in_range_getitem.
  - intros [py px] [qy qx] v Hne Hrel Hpv Hqv. cbn [fst snd] in *.
    destruct (decide ((py, px) = (y, x))) as [[= -> ->]|Hp1].
    { rewrite Hc in Hpv. by injection Hpv. }
    destruct (decide ((qy, qx) = (y, x))) as [[= -> ->]|Hq1].
    { rewrite Hc in Hqv. by injection Hqv. }
    rewrite Ho in Hpv, Hqv by done. by eapply (Hnc (py, px) (qy, qx)).
Qed.

Section sound.
Variable rec : state → outcome state.
Variable max : max_solutions.
Hypothesis rec_sound : ∀ s s',
  valid_partial (sudoku s) → rec s = Returned s' → sound_cond s s'.

Variables (y0 x0 : nat).

Lemma try_digit_sound n s s' :
  1 ≤ n ≤ 9 → valid_partial (sudoku s) →
  try_digit rec max y0 x0 n s = Returned s' → sound_cond s s'.
Proof.
  intros Hn Hv Htry.
  apply try_digit_Returned in Htry
    as [[_ ->]|(Hp & g1 & s2 & Hg1 & Hrec & Hcase)]; [by split|].
  apply rec_sound in Hrec as [Hv2 Hsols]; simpl in *.
  - destruct Hcase as [(_ & g3 & Hg3 & ->)|(_ & ->)]; [|by split].
    split; [|done]. by eapply valid_setitem_zero.
  - by eapply valid_setitem_digit.
Qed.

Lemma for_digits_sound ns s s' :
  Forall (λ n, 1 ≤ n ≤ 9) ns → valid_partial (sudoku s) →
  for_digits rec max y0 x0 ns s = Returned s' → sound_cond s s'.
Proof.
  revert s. induction ns as [|n ns IH]; intros s Hns Hv H.
  - simpl in H. injection H as <-. by split.
  - apply Forall_cons in Hns as [Hn Hns].
    apply for_digits_cons in H as (s1 & H1 & H).
    apply try_digit_sound in H1 as [Hv1 Hs1]; [|done..].
    apply IH in H as [Hv' Hs']; [|done..]. split; auto.
Qed.
End sound.

Lemma range_1_10_digits : Forall (λ n, 1 ≤ n ≤ 9) (range 1 10).
Proof. apply Forall_forall. by intros n Hn%elem_of_range_1_10. Qed.

Lemma solve_rec_sound fuel max s s' :
  valid_partial (sudoku s) → solve_rec fuel max s = Returned s' →
  sound_cond s s'.
Proof.
  revert s s'. induction fuel as [|fuel IH]; intros s s' Hv H; [done|].
  rewrite solve_rec_S in H.
  destruct (where_eq (sudoku s) 0) as [|[y0 x0] l] eqn:Hw.
  - injection H as <-. split; simpl; [done|]. intros Hs.
    apply Forall_app. split; [done|]. by apply Forall_singleton.
  - eapply for_digits_sound; [|apply range_1_10_digits|done..]. apply IH.
Qed.

(** ** Completeness: below the limit, every completion is recorded *)

Lemma completion_setitem (g g1 c : grid) y x n :
  completion g c → getitem c y x = Some n →
  setitem g y x n = Returned g1 → completion g1 c.
Proof.
  intros (Hs & Hc & Hext) Hn (_ & _ & Hcell & Ho)%setitem_Returned.
  split_and!; [done..|]. intros y' x' v Hv Hne.
  destruct (decide ((y', x') = (y, x))) as [[= -> ->]|Hd].
  - congruence.
  - rewrite Ho in Hv by done. eauto.
Qed.

(** A digit that [possible] rejects at an empty cell is not the value of
    that cell in any completion. *)
Lemma completion_not_occurs (g c : grid) y x n :
  completion g c → getitem g y x = Some 0 → getitem c y x = Some n →
  ¬ occurs g y x n.
Proof.
  intros (Hs & Hc & Hext) H0 Hn ([qy qx] & Hrel & Hq)%occurs_related.
  cbn [fst snd] in Hq.
  assert (n ≠ 0) as Hne by (apply (complete_range c y x n Hs Hc) in Hn; lia).
  apply (complete_distinct c (y, x) (qy, qx) n Hs Hc); cbn [fst snd]; auto.
  intros [= <- <-]. congruence.
Qed.

Lemma completion_full_eq (g c : grid) :
  shape99 g → full g → completion g c → c = g.
Proof.
  intros Hs Hf (Hsc & _ & Hext). apply grid_eq.
  - apply shape99_row_lengths in Hs, Hsc. congruence.
  - intros y x. destruct (getitem g y x) as [v|] eqn:Hv.
    + apply Hext; [done|]. intros ->. by apply (Hf y x).
    + apply eq_None_not_Some. rewrite shape99_getitem by done.
      rewrite <- (shape99_getitem g) by done. rewrite Hv. by intros [? ?].
Qed.

Lemma frame_cond_rebase max g sols s :
  frame_cond max (State g sols) s → frame_cond max (State g (solutions s)) s.
Proof.
  intros (_ & Hext & Hres). split_and!; [|done..].
  exists []. by rewrite app_nil_r.
Qed.

Section complete.
Variable rec : state → outcome state.
Variable max : max_solutions.
Hypothesis rec_frame : ∀ s s', rec s = Returned s' → frame_cond max s s'.
Hypothesis rec_complete : ∀ s s' c,
  shape99 (sudoku s) → rec s = Returned s' →
  below (length (solutions s')) max = true →
  completion (sudoku s) c → c ∈ solutions s'.

Variables (g : grid) (sols : list grid) (y0 x0 : nat).
Hypothesis cell_empty : getitem g y0 x0 = Some 0.
Hypothesis g_shape : shape99 g.

Lemma for_digits_complete ns s s' c :
  frame_cond max (State g sols) s →
  for_digits rec max y0 x0 ns s = Returned s' →
  below (length (solutions s')) max = true →
  completion g c → (∃ n, n ∈ ns ∧ getitem c y0 x0 = Some n) →
  c ∈ solutions s'.
Proof.
  revert s. induction ns as [|n ns IH]; intros s Hs H Hb Hc (m & Hm & Hcm).
  { by apply elem_of_nil in Hm. }
  apply for_digits_cons in H as (s1 & H1 & H).
  pose proof (try_digit_frame rec max rec_frame g sols y0 x0 cell_empty
                n s s1 Hs H1) as Hs1.
  pose proof (for_digits_frame rec max rec_frame g (solutions s1) y0 x0
                cell_empty ns s1 s' (frame_cond_rebase _ _ _ _ Hs1) H)
    as ((new' & Hnew' & _) & _ & _). simpl in Hnew'.
  assert (below (length (solutions s1)) max = true) as Hb1.
  { eapply below_mono; [|exact Hb]. rewrite Hnew', length_app. lia. }
  assert (sudoku s1 = g) as Hg1 by (by apply Hs1).
  assert (below (length (solutions s)) max = true) as Hb0.
  { destruct Hs1 as ((n1 & Hn1 & _) & _). destruct Hs as ((n0 & Hn0 & _) & _).
    simpl in *.
    apply try_digit_Returned in H1
      as [[_ ->]|(_ & g1 & s2 & _ & Hrec & Hcase)]; [done|].
    apply rec_frame in Hrec as ((n2 & Hn2 & _) & _). simpl in Hn2.
    eapply below_mono; [|exact Hb1].
    destruct Hcase as [(_ & g3 & _ & ->)|(_ & ->)]; simpl;
      rewrite Hn2, length_app; lia. }
  assert (sudoku s = g) as Hg0 by (by apply Hs).
  destruct (decide (m = n)) as [->|Hmn].
  - (* the completion has [n] at the cell *)
    apply try_digit_Returned in H1
      as [[Hp ->]|(Hp & g1 & s2 & Hset & Hrec & Hcase)].
    + exfalso. rewrite Hg0 in Hp.
      destruct (proj1 (shape99_getitem g y0 x0 g_shape)) as [Hy Hx]; [eauto|].
      destruct (possible_cases g y0 x0 n g_shape Hy Hx) as [[_ Hocc]|[? _]];
        [|congruence].
      by eapply completion_not_occurs.
    + rewrite Hg0 in Hset.
      assert (c ∈ solutions s2) as Hin.
      { destruct Hcase as [(Hb2 & _)|(Hb2 & ->)]; [|congruence].
        apply (rec_complete _ _ c) in Hrec; [done| |done|]; simpl.
        - apply setitem_Returned in Hset as (_ & Hsh & _).
          by eapply shape99_same_shape.
        - by eapply completion_setitem. }
      rewrite Hnew'. apply elem_of_app. left.
      by destruct Hcase as [(_ & g3 & _ & ->)|(_ & ->)].
  - apply (IH s1); [done..|]. exists m. split; [|done].
    apply elem_of_cons in Hm as [?|?]; done.
Qed.
End complete.

Lemma solve_rec_complete fuel max s s' c :
  shape99 (sudoku s) → solve_rec fuel max s = Returned s' →
  below (length (solutions s')) max = true →
  completion (sudoku s) c → c ∈ solutions s'.
Proof.
  revert s s' c. induction fuel as [|fuel IH]; intros s s' c Hs H Hb Hc; [done|].
  rewrite solve_rec_S in H.
  destruct (where_eq (sudoku s) 0) as [|[y0 x0] l] eqn:Hw.
  - injection H as <-. simpl. apply elem_of_app. right.
    apply list_elem_of_singleton. apply completion_full_eq; [done| |done].
    intros y x. by apply where_eq_nil.
  - destruct s as [g sols]. simpl in Hs, Hw, Hc.
    apply where_eq_head in Hw.
    eapply (for_digits_complete (solve_rec fuel max) max
              (solve_rec_frame fuel max) IH g sols y0 x0 Hw Hs);
      [apply frame_cond_refl|done..|].
    destruct Hc as (Hsc & Hcc & _).
    destruct (proj2 (shape99_getitem c y0 x0 Hsc)) as [v Hv].
    { apply (shape99_getitem g); [done|eauto]. }
    exists v. split; [|done].
    apply elem_of_range_1_10. by eapply complete_range.
Qed.

(** ** Once the limit is reached *)

(** On a full board without conflicts no digit can be placed anywhere. *)
Lemma possible_full (h : grid) y x n :
  valid_partial h → full h → (y < 9)%nat → (x < 9)%nat → 1 ≤ n ≤ 9 →
  possible h y x n = Returned false.
Proof.
  intros (Hs & Hr & Hnc) Hf Hy Hx Hn.
  destruct (possible_cases h y x n Hs Hy Hx) as [[? _]|[_ Hocc]]; [done|].
  destruct Hocc. left.
  pose proof (full_no_conflict_complete h Hs Hr Hf Hnc) as Hc.
  rewrite check_sudoku_perm in Hc by done.
  assert (row_cells y ∈ regions) as Hps.
  { unfold regions. apply elem_of_app. left.
    apply list_elem_of_fmap_2, elem_of_seq. lia. }
  specialize (Hc _ Hps).
  assert (n ∈ cells h (row_cells y)) as [i Hi]%list_elem_of_lookup.
  { rewrite Hc. by apply elem_of_list_numbers. }
  assert (is_Some (row_cells y !! i)) as [p Hp].
  { apply lookup_lt_is_Some. rewrite <- (cells_length h).
    by eapply lookup_lt_Some. }
  destruct (cells_lookup h _ i p Hs Hps Hp) as [Hci _].
  unfold row_cells in Hp. rewrite list_lookup_fmap in Hp.
  destruct (seq 0 9 !! i) as [x'|]; [|done]. injection Hp as <-.
  exists x'. cbn [fst snd] in Hci. congruence.
Qed.

Lemma for_digits_frozen rec max y0 x0 ns s :
  valid_partial (sudoku s) → full (sudoku s) → (y0 < 9)%nat → (x0 < 9)%nat →
  Forall (λ n, 1 ≤ n ≤ 9) ns →
  for_digits rec max y0 x0 ns s = Returned s.
Proof.
  intros Hv Hf Hy Hx. induction 1 as [|n ns Hn _ IH]; [done|].
  apply for_digits_cons. exists s. split; [|done].
  unfold try_digit. by rewrite possible_full.
Qed.

Section freeze.
Variable rec : state → outcome state.
Variable max : max_solutions.
Hypothesis rec_frame : ∀ s s', rec s = Returned s' → frame_cond max s s'.
Hypothesis rec_sound : ∀ s s',
  valid_partial (sudoku s) → rec s = Returned s' → sound_cond s s'.
Hypothesis rec_freeze : ∀ s s',
  valid_partial (sudoku s) → rec s = Returned s' → freeze_cond max s s'.

Variables (g : grid) (y0 x0 : nat).
Hypothesis cell_empty : getitem g y0 x0 = Some 0.
Hypothesis g_valid : valid_partial g.

Lemma for_digits_freeze ns s s' :
  Forall (λ n, 1 ≤ n ≤ 9) ns → sudoku s = g →
  for_digits rec max y0 x0 ns s = Returned s' → freeze_cond max s s'.
Proof.
  intros Hns. revert s.
  induction Hns as [|n ns Hn Hns IH]; intros s Hg H Hb Hb'.
  { simpl in H. injection H as <-. congruence. }
  apply for_digits_cons in H as (s1 & H1 & H).
  apply try_digit_Returned in H1
    as [[_ ->]|(Hp & g1 & s2 & Hset & Hrec & Hcase)]; [by apply IH|].
  rewrite Hg in Hp, Hset.
  assert (valid_partial g1) as Hv1 by (by eapply valid_setitem_digit).
  pose proof (rec_frame _ _ Hrec) as ((new2 & Hnew2 & Hfull2) & Hext2 & Hres2).
  simpl in Hnew2, Hfull2, Hext2, Hres2.
  destruct Hcase as [(Hb2 & g3 & Hg3 & ->)|(Hb2 & ->)].
  - assert (g3 = g) as ->.
    { eapply (setitem_undo g g1 (sudoku s2)); [done..|by auto|done]. }
    destruct (IH (State g (solutions s2)) eq_refl H Hb2 Hb')
      as (new & Hnew & Hbn). simpl in Hnew, Hbn.
    exists (new2 ++ new). rewrite Hnew, Hnew2, <- !app_assoc. split; [done|].
    by rewrite Hnew2, <- app_assoc in Hbn.
  - destruct (rec_freeze (State g1 (solutions s)) s2 Hv1 Hrec Hb Hb2)
      as (new & Hnew & Hbn).
    simpl in Hnew, Hbn.
    apply rec_sound in Hrec as [Hv2 _]; [|done].
    assert (full (sudoku s2)) as Hf2.
    { rewrite Hnew in Hnew2. apply app_inv_head in Hnew2. subst new2.
      apply Forall_app in Hfull2 as [_ [[? _] _]%Forall_cons]. done. }
    destruct (proj1 (shape99_getitem g y0 x0 (proj1 g_valid))) as [Hy Hx];
      [eauto|].
    rewrite for_digits_frozen in H by done. injection H as <-.
    exists new. done.
Qed.
End freeze.

Lemma solve_rec_freeze fuel max s s' :
  valid_partial (sudoku s) → solve_rec fuel max s = Returned s' →
  freeze_cond max s s'.
Proof.
  revert s s'. induction fuel as [|fuel IH]; intros s s' Hv H; [done|].
  rewrite solve_rec_S in H.
  destruct (where_eq (sudoku s) 0) as [|[y0 x0] l] eqn:Hw.
  - injection H as <-. intros Hb _. exists []. simpl.
    by rewrite app_nil_r.
  - apply where_eq_head in Hw.
    eapply (for_digits_freeze (solve_rec fuel max) max
              (solve_rec_frame fuel max) (solve_rec_sound fuel max) IH
              (sudoku s) y0 x0 Hw Hv); [apply range_1_10_digits|done..].
Qed.

(** ** Top-level calls *)

Lemma solve_returns (g : grid) max :
  shape99 g → ∃ s, solve g max = Returned s.
Proof. intros Hs. apply solve_rec_returns; simpl; [done|lia]. Qed.

(** A grid with a completion has no conflicts among its givens. *)
Lemma completion_valid_partial (g c : grid) :
  well_formed g → completion g c → valid_partial g.
Proof.
  intros [Hs Hr] (Hsc & Hc & Hext). split_and!; [done..|].
  intros p q v Hne Hrel Hp Hq.
  destruct (decide (v = 0)) as [|Hv]; [done|exfalso].
  apply (complete_distinct c p q v); auto.
Qed.

(** Every grid recorded from a conflict-free board is a completion. *)
Lemma solve_rec_completions fuel max g s' :
  valid_partial g → solve_rec fuel max (State g []) = Returned s' →
  Forall (completion g) (solutions s').
Proof.
  intros Hv H.
  pose proof (solve_rec_sound fuel max (State g []) s' Hv H) as [_ Hsols].
  pose proof (solve_rec_frame _ _ _ _ H) as ((new & Hnew & Hfull) & _).
  simpl in *. rewrite Hnew in *. specialize (Hsols (Forall_nil_2 _)).
  apply Forall_forall. intros c Hc.
  rewrite Forall_forall in Hsols, Hfull.
  destruct (Hsols c Hc) as (Hs & Hr & Hnc). destruct (Hfull c Hc) as [Hf [_ He]].
  split_and!; [done| |done]. by apply full_no_conflict_complete.
Qed.

(** When a top-level call on a conflict-free board ends with the count at
    the limit, the working grid is left filled in: it is the last grid
    recorded. *)
Lemma solve_leaves_last_solution (G : grid) max s :
  valid_partial G → positive_limit max →
  solve G max = Returned s →
  below (length (solutions s)) max = false →
  last (solutions s) = Some (sudoku s) ∧ full (sudoku s).
Proof.
  intros Hv Hpos Hs Hb. unfold solve in Hs.
  assert (below (length (solutions (State G []))) max = true) as Hb0.
  { destruct max as [m|]; simpl in *; [|done]. apply bool_decide_eq_true. lia. }
  destruct (solve_rec_freeze _ _ (State G []) s Hv Hs Hb0 Hb) as (new & Hnew & _).
  simpl in Hnew. split; [by rewrite Hnew, last_snoc|].
  pose proof (solve_rec_completions _ _ _ _ Hv Hs) as Hall.
  rewrite Hnew, Forall_app, Forall_singleton in Hall.
  destruct Hall as [_ (Hsc & Hc & _)]. by apply complete_full.
Qed.

(** ** Checking the hypotheses on concrete boards *)

#[local] Instance shape99_dec g : Decision (shape99 g).
Proof. unfold shape99. apply _. Defined.

#[local] Instance in_range_dec g : Decision (in_range g).
Proof. unfold in_range. apply _. Defined.

#[local] Instance well_formed_dec g : Decision (well_formed g).
Proof. unfold well_formed. apply _. Defined.

(** [c] keeps the givens of [g], checked cell by cell. *)
Lemma completion_check (g c : grid) :
  shape99 c → check_sudoku c = true →
  Forall (λ p, getitem g p.1 p.2 = Some 0 ∨
               getitem c p.1 p.2 = getitem g p.1 p.2) (indices g) →
  completion g c.
Proof.
  intros Hs Hc Hall. split_and!; [done..|]. intros y x v Hv Hne.
  rewrite Forall_forall in Hall.
  destruct (Hall (y, x)) as [H|H]; cbn [fst snd] in *.
  - apply elem_of_indices. eauto.
  - congruence.
  - congruence.
Qed.

(** Conflicts are found by comparing the cells of each region. *)
Lemma no_conflict_check (g : grid) :
  shape99 g →
  Forall (λ ps, Forall (λ i, Forall (λ j,
            i ≠ j → cells g ps !! i = cells g ps !! j →
            cells g ps !! i = Some 0) (seq 0 9)) (seq 0 9))
    regions →
  no_conflict g.
Proof.
  intros Hs Hall p q v Hne Hrel Hp Hq.
  destruct (proj1 (shape99_getitem g p.1 p.2 Hs)) as [Hp1 Hp2]; [eauto|].
  destruct (proj1 (shape99_getitem g q.1 q.2 Hs)) as [Hq1 Hq2]; [eauto|].
  destruct (related_region p q Hp1 Hp2 Hq1 Hq2 Hrel) as (ps & Hps & Hpin & Hqin).
  rewrite Forall_forall in Hall. specialize (Hall ps Hps).
  apply list_elem_of_lookup in Hpin as [i Hi], Hqin as [j Hj].
  destruct (cells_lookup g ps i p Hs Hps Hi) as [Hci _].
  destruct (cells_lookup g ps j q Hs Hps Hj) as [Hcj _].
  rewrite Hp in Hci. rewrite Hq in Hcj.
  assert (i ≠ j) as Hij by (intros ->; congruence).
  assert (i < 9 ∧ j < 9)%nat as [Hi9 Hj9].
  { rewrite <- (regions_length ps Hps). split; by eapply lookup_lt_Some. }
  rewrite Forall_forall in Hall. specialize (Hall i).
  rewrite Forall_forall in Hall. specialize (Hall ltac:(apply elem_of_seq; lia) j).
  rewrite Hci, Hcj in Hall.
  assert (Some v = Some 0) as [= ->]; [|done].
  apply Hall; [apply elem_of_seq; lia|done..].
Qed.

(** A board with an empty cell that rejects all nine digits has no
    completion. *)
Lemma dead_cell_no_completion (g : grid) y x :
  shape99 g → getitem g y x = Some 0 →
  Forall (λ n, possible g y x n = Returned false) (range 1 10) →
  ¬ ∃ c, completion g c.
Proof.
  intros Hs H0 Hall [c Hc].
  destruct (proj1 (shape99_getitem g y x Hs)) as [Hy Hx]; [eauto|].
  pose proof Hc as (Hsc & Hcc & _).
  destruct (proj2 (shape99_getitem c y x Hsc)) as [v Hv]; [done|].
  pose proof (complete_range c y x v Hsc Hcc Hv) as Hr.
  rewrite Forall_forall in Hall. specialize (Hall v).
  destruct (possible_cases g y x v Hs Hy Hx) as [[_ Hocc]|[Hp _]].
  - by eapply completion_not_occurs.
  - rewrite Hall in Hp; [done|]. by apply elem_of_range_1_10.
Qed.

Lemma full_where_eq (g : grid) : full g ↔ where_eq g 0 = [].
Proof.
  split.
  - intros Hf. apply elem_of_nil_inv. intros [y x] Hin%elem_of_where_eq.
    by apply (Hf y x).
  - intros H y x. by apply where_eq_nil.
Qed.

Lemma shape99_zeros (g : grid) : shape99 g → (zeros g ≤ 81)%nat.
Proof.
  intros Hs%shape99_row_lengths. unfold zeros, where_eq.
  etrans; [apply length_filter|].
  assert (indices g = indices (replicate 9 (replicate 9 0))) as ->.
  { apply indices_same_shape. by rewrite Hs. }
  done.
Qed.

(** ** Properties stated by the specification *)

(** With the limit 1, a conflict-free board that has a completion yields
    exactly one grid: the working grid itself, left filled in. *)
Lemma solve_limit_one (G : grid) :
  valid_partial G → (∃ c, completion G c) →
  ∃ s, solve G (Limit 1) = Returned s ∧ solutions s = [sudoku s] ∧
       completion G (sudoku s).
Proof.
  intros Hv [c0 Hc0].
  destruct (solve_returns G (Limit 1) (proj1 Hv)) as [s Hs].
  exists s. unfold solve in Hs.
  pose proof (solve_rec_completions _ _ _ _ Hv Hs) as Hall.
  destruct (below (length (solutions s)) (Limit 1)) eqn:Hb.
  - exfalso.
    pose proof (solve_rec_complete _ _ (State G []) s c0 (proj1 Hv) Hs Hb Hc0)
      as Hin.
    simpl in Hb. apply bool_decide_eq_true in Hb.
    destruct (solutions s); [by apply elem_of_nil in Hin|simpl in Hb; lia].
  - destruct (solve_rec_freeze _ _ (State G []) s Hv Hs eq_refl Hb)
      as (new & Hnew & Hbn).
    simpl in Hnew, Hbn. apply bool_decide_eq_true in Hbn.
    destruct new; [|simpl in Hbn; lia]. simpl in Hnew.
    rewrite Hnew, Forall_singleton in Hall. done.
Qed.

(** C1: for every well-formed 9x9 grid with at least one valid
    completion, [solve(G, 1)] returns a list of exactly one grid; that
    grid passes [check_sudoku], and it is a completion of [G]. *)
Theorem solve_finds_one (G : grid) :
  well_formed G → (∃ c, completion G c) →
  ∃ s c, solve G (Limit 1) = Returned s ∧ solutions s = [c] ∧
         check_sudoku c = true ∧ completion G c.
Proof.
  intros Hwf [c0 Hc0].
  pose proof (completion_valid_partial G c0 Hwf Hc0) as Hv.
  destruct (solve_limit_one G Hv (ex_intro _ c0 Hc0)) as (s & Hs & Hsols & Hc).
  exists s, (sudoku s). split_and!; [exact Hs|exact Hsols| |exact Hc].
  by destruct Hc as (_ & Hchk & _).
Qed.

Lemma solve_finds_one_witness :
  well_formed example_puzzle ∧ (∃ c, completion example_puzzle c) ∧
  ∃ s c, solve example_puzzle (Limit 1) = Returned s ∧ solutions s = [c] ∧
         check_sudoku c = true ∧ completion example_puzzle c.
Proof.
  assert (well_formed example_puzzle) as Hwf.
  { apply (bool_decide_unpack _). vm_compute. exact I. }
  assert (∃ c, completion example_puzzle c) as Hc.
  { exists example_solution. apply completion_check.
    - apply (bool_decide_unpack _). vm_compute. exact I.
    - vm_compute. reflexivity.
    - apply (bool_decide_unpack _). vm_compute. exact I. }
  split_and!; [exact Hwf|exact Hc|].
  exact (solve_finds_one example_puzzle Hwf Hc).
Defined.

(** C2: in a recursion frame that placed the digit [n] at [(y0, x0)],
    once the recursive call has returned [s2], the frame goes on with the
    cell reset to 0 exactly when the count of recorded solutions is
    strictly less than [max_solutions]; once the count has reached
    [max_solutions], the working grid is left as the call returned it,
    with [n] still in the cell.  With ['max'] (no limit) the cell is
    always reset.  The comparison is written out on the integers. *)
Theorem placed_cell_reset fuel max y0 x0 n s g1 s2 :
  n ∈ range 1 10 →
  possible (sudoku s) y0 x0 n = Returned true →
  setitem (sudoku s) y0 x0 n = Returned g1 →
  solve_rec fuel max (State g1 (solutions s)) = Returned s2 →
  ∃ s', try_digit (solve_rec fuel max) max y0 x0 n s = Returned s' ∧
    solutions s' = solutions s2 ∧
    match max with
    | Limit m =>
        (getitem (sudoku s') y0 x0 = Some 0 ↔
           Z.of_nat (length (solutions s2)) < m) ∧
        (Z.of_nat (length (solutions s2)) < m →
           setitem (sudoku s2) y0 x0 0 = Returned (sudoku s')) ∧
        (m ≤ Z.of_nat (length (solutions s2)) →
           sudoku s' = sudoku s2 ∧ getitem (sudoku s') y0 x0 = Some n)
    | Unbounded =>
        getitem (sudoku s') y0 x0 = Some 0 ∧
        setitem (sudoku s2) y0 x0 0 = Returned (sudoku s')
    end.
Proof.
  intros Hn%elem_of_range_1_10 Hp Hset Hrec.
  pose proof (solve_rec_frame _ _ _ _ Hrec) as (_ & [Hsh Hext] & _).
  simpl in Hsh, Hext.
  pose proof Hset as (_ & _ & Hc1 & _)%setitem_Returned.
  assert (getitem (sudoku s2) y0 x0 = Some n) as Hc2 by (apply Hext; [done|lia]).
  unfold try_digit. rewrite Hp. cbn [mbind outcome_bind].
  rewrite Hset. cbn [mbind outcome_bind]. rewrite Hrec. cbn [mbind outcome_bind].
  destruct (setitem_is_Returned (sudoku s2) y0 x0 0) as [g3 Hg3]; [eauto|].
  pose proof Hg3 as (_ & _ & Hc3 & _)%setitem_Returned.
  destruct max as [m|]; cbn [below].
  - destruct (decide (Z.of_nat (length (solutions s2)) < m)) as [Hlt|Hge].
    + rewrite bool_decide_eq_true_2 by done.
      rewrite Hg3. cbn [mbind outcome_bind]. eexists. split; [done|]. simpl.
      split_and!; [done|done|done|lia].
    + rewrite bool_decide_eq_false_2 by done.
      eexists. split; [done|]. split_and!; [done| |done|done].
      rewrite Hc2. split; [|done]. intros [= ->]. lia.
  - rewrite Hg3. cbn [mbind outcome_bind]. eexists. split; [done|]. simpl.
    by split.
Qed.

(** With [one_missing] and the digit 5 at (0,0): under the limit 1 the
    count 1 has reached the limit and the 5 stays; under the limit 2 the
    count 1 is below it and the cell is cleared. *)
Lemma placed_cell_reset_witness :
  (∃ s', try_digit (solve_rec 1 (Limit 1)) (Limit 1) 0 0 5
           (State one_missing []) = Returned s' ∧
     solutions s' = [example_solution] ∧
     (getitem (sudoku s') 0 0 = Some 0 ↔
        Z.of_nat (length [example_solution]) < 1) ∧
     (Z.of_nat (length [example_solution]) < 1 →
        setitem example_solution 0 0 0 = Returned (sudoku s')) ∧
     (1 ≤ Z.of_nat (length [example_solution]) →
        sudoku s' = example_solution ∧ getitem (sudoku s') 0 0 = Some 5)) ∧
  (∃ s', try_digit (solve_rec 1 (Limit 2)) (Limit 2) 0 0 5
           (State one_missing []) = Returned s' ∧
     solutions s' = [example_solution] ∧
     (getitem (sudoku s') 0 0 = Some 0 ↔
        Z.of_nat (length [example_solution]) < 2) ∧
     (Z.of_nat (length [example_solution]) < 2 →
        setitem example_solution 0 0 0 = Returned (sudoku s')) ∧
     (2 ≤ Z.of_nat (length [example_solution]) →
        sudoku s' = example_solution ∧ getitem (sudoku s') 0 0 = Some 5)).
Proof.
  split.
  - apply (placed_cell_reset 1 (Limit 1) 0 0 5 (State one_missing [])
             example_solution (State example_solution [example_solution])).
    + apply (bool_decide_unpack _). vm_compute. exact I.
    + vm_compute. reflexivity.
    + vm_compute. reflexivity.
    + vm_compute. reflexivity.
  - apply (placed_cell_reset 1 (Limit 2) 0 0 5 (State one_missing [])
             example_solution (State example_solution [example_solution])).
    + apply (bool_decide_unpack _). vm_compute. exact I.
    + vm_compute. reflexivity.
    + vm_compute. reflexivity.
    + vm_compute. reflexivity.
Defined.

(** C4: on a 9x9 grid, for a digit [n] in 1..9, [possible] returns False
    exactly when [n] occurs in row [r], in column [c] or in the 3x3 box
    with origin [(r/3*3, c/3*3)], and True otherwise. *)
Theorem possible_spec (G : grid) (r c : nat) (n : Z) :
  shape99 G → (r < 9)%nat → (c < 9)%nat → 1 ≤ n ≤ 9 →
  (possible G r c n = Returned false ↔ occurs G r c n) ∧
  (possible G r c n = Returned true ↔ ¬ occurs G r c n).
Proof.
  intros Hs Hr Hc _.
  destruct (possible_cases G r c n Hs Hr Hc) as [[-> Hocc]|[-> Hocc]];
    split; split; try done; intros; congruence.
Qed.

Lemma possible_spec_witness :
  (possible example_puzzle 0 2 5 = Returned false ↔ occurs example_puzzle 0 2 5) ∧
  (possible example_puzzle 0 2 5 = Returned true ↔ ¬ occurs example_puzzle 0 2 5).
Proof.
  apply (possible_spec example_puzzle 0 2 5).
  - apply (bool_decide_unpack _). vm_compute. exact I.
  - lia.
  - lia.
  - lia.
Defined.



(** ** Boards whose givens clash: what the search can still fill

    [possible] compares the candidate digit with the cells present; two
    givens are never compared with each other.  On any well-formed board
    the grids recorded are therefore the fillings of the board, which
    are its valid completions when no two givens clash. *)

Lemma placed_partial_refl (G : grid) : well_formed G → placed_partial G G.
Proof.
  intros [Hs Hr]. split_and!; [done..|].
  intros p q v _ _ Hp Hv _. congruence.
Qed.

Lemma placed_setitem_digit (G g g1 : grid) y x n :
  placed_partial G g → possible g y x n = Returned true → 1 ≤ n ≤ 9 →
  setitem g y x n = Returned g1 → placed_partial G g1.
Proof.
  intros (Hs & Hr & Hnc) Hp Hn (Hsome & Hs1 & Hc & Ho)%setitem_Returned.
  destruct (proj1 (shape99_getitem g y x Hs) Hsome) as [Hy Hx].
  destruct (possible_cases g y x n Hs Hy Hx) as [[? _]|[_ Hocc]]; [congruence|].
  rewrite occurs_related in Hocc.
  split_and!.
  - by eapply shape99_same_shape.
  - apply in_range_getitem. intros y' x' v Hv.
    destruct (decide ((y', x') = (y, x))) as [[= -> ->]|Hne].
    + rewrite Hc in Hv. injection Hv as <-. lia.
    + rewrite Ho in Hv by done. by eapply in_range_getitem.
  - intros [py px] [qy qx] v Hne Hrel HG Hpv Hqv. cbn [fst snd] in *.
    destruct (decide ((py, px) = (y, x))) as [[= -> ->]|Hp1];
      destruct (decide ((qy, qx) = (y, x))) as [[= -> ->]|Hq1]; [done|..].
    + rewrite Hc in Hpv. injection Hpv as <-. rewrite Ho in Hqv by done.
      destruct Hocc. exists (qy, qx). eauto.
    + rewrite Hc in Hqv. injection Hqv as <-. rewrite Ho in Hpv by done.
      destruct Hocc. exists (py, px). split; [by apply related_sym|done].
    + rewrite Ho in Hpv, Hqv by done. by eapply (Hnc (py, px) (qy, qx)).
Qed.

Lemma placed_setitem_zero (G g g1 : grid) y x :
  placed_partial G g → setitem g y x 0 = Returned g1 → placed_partial G g1.
Proof.
  intros (Hs & Hr & Hnc) (Hsome & Hs1 & Hc & Ho)%setitem_Returned.
  split_and!.
  - by eapply shape99_same_shape.
  - apply in_range_getitem. intros y' x' v Hv.
    destruct (decide ((y', x') = (y, x))) as [[= -> ->]|Hne].
    + rewrite Hc in Hv. injection Hv as <-. lia.
    + rewrite Ho in Hv by done. by eapply in_range_getitem.
  - intros [py px] [qy qx] v Hne Hrel HG Hpv Hqv. cbn [fst snd] in *.
    destruct (decide ((py, px) = (y, x))) as [[= -> ->]|Hp1].
    { rewrite Hc in Hpv. by injection Hpv. }
    destruct (decide ((qy, qx) = (y, x))) as [[= -> ->]|Hq1].
    { rewrite Hc in Hqv. by injection Hqv. }
    rewrite Ho in Hpv, Hqv by done. by eapply (Hnc (py, px) (qy, qx)).
Qed.

Section placed.
Variable G : grid.
Variable rec : state → outcome state.
Variable max : max_solutions.
Hypothesis rec_placed : ∀ s s',
  placed_partial G (sudoku s) → rec s = Returned s' → placed_cond G s s'.

Variables (y0 x0 : nat).

Lemma try_digit_placed n s s' :
  1 ≤ n ≤ 9 → placed_partial G (sudoku s) →
  try_digit rec max y0 x0 n s = Returned s' → placed_cond G s s'.
Proof.
  intros Hn Hv Htry.
  apply try_digit_Returned in Htry
    as [[_ ->]|(Hp & g1 & s2 & Hg1 & Hrec & Hcase)]; [by split|].
  apply rec_placed in Hrec as [Hv2 Hsols]; simpl in *.
  - destruct Hcase as [(_ & g3 & Hg3 & ->)|(_ & ->)]; [|by split].
    split; [|done]. by eapply placed_setitem_zero.
  - by eapply placed_setitem_digit.
Qed.

Lemma for_digits_placed ns s s' :
  Forall (λ n, 1 ≤ n ≤ 9) ns → placed_partial G (sudoku s) →
  for_digits rec max y0 x0 ns s = Returned s' → placed_cond G s s'.
Proof.
  revert s. induction ns as [|n ns IH]; intros s Hns Hv H.
  - simpl in H. injection H as <-. by split.
  - apply Forall_cons in Hns as [Hn Hns].
    apply for_digits_cons in H as (s1 & H1 & H).
    apply try_digit_placed in H1 as [Hv1 Hs1]; [|done..].
    apply IH in H as [Hv' Hs']; [|done..]. split; auto.
Qed.
End placed.

Lemma solve_rec_placed G fuel max s s' :
  placed_partial G (sudoku s) → solve_rec fuel max s = Returned s' →
  placed_cond G s s'.
Proof.
  revert s s'. induction fuel as [|fuel IH]; intros s s' Hv H; [done|].
  rewrite solve_rec_S in H.
  destruct (where_eq (sudoku s) 0) as [|[y0 x0] l] eqn:Hw.
  - injection H as <-. split; simpl; [done|]. intros Hs.
    apply Forall_app. split; [done|]. by apply Forall_singleton.
  - eapply for_digits_placed; [|apply range_1_10_digits|done..]. apply IH.
Qed.

(** Every grid recorded from a well-formed board is a filling of it. *)
Lemma solve_rec_fillings fuel max G s' :
  well_formed G → solve_rec fuel max (State G []) = Returned s' →
  Forall (filling G) (solutions s').
Proof.
  intros Hwf H.
  pose proof (solve_rec_placed G fuel max (State G []) s'
                (placed_partial_refl G Hwf) H) as [_ Hsols].
  pose proof (solve_rec_frame _ _ _ _ H) as ((new & Hnew & Hfull) & _).
  simpl in *. rewrite Hnew in *. specialize (Hsols (Forall_nil_2 _)).
  apply Forall_forall. intros c Hc.
  rewrite Forall_forall in Hsols, Hfull.
  destruct (Hsols c Hc) as (Hs & Hr & Hnc). destruct (Hfull c Hc) as [Hf [_ He]].
  split_and!; [done..|].
  intros p q v Hne Hrel HG Hp Hq.
  specialize (Hnc p q v Hne Hrel HG Hp Hq). subst v. by apply (Hf p.1 p.2).
Qed.

(** ** Every filling is found *)

Lemma filling_range (g c : grid) y x v :
  filling g c → getitem c y x = Some v → 1 ≤ v ≤ 9.
Proof.
  intros (_ & Hr & Hf & _) Hv. rewrite in_range_getitem in Hr.
  specialize (Hr _ _ _ Hv).
  assert (v ≠ 0) by (intros ->; by apply (Hf y x)). lia.
Qed.

Lemma filling_setitem (g g1 c : grid) y x n :
  filling g c → getitem c y x = Some n →
  setitem g y x n = Returned g1 → filling g1 c.
Proof.
  intros Hfill Hn (_ & _ & Hcell & Ho)%setitem_Returned.
  pose proof (filling_range _ _ _ _ _ Hfill Hn) as Hrange.
  destruct Hfill as (Hs & Hr & Hf & Hext & Hd).
  split_and!; [done..| |].
  - intros y' x' v Hv Hne.
    destruct (decide ((y', x') = (y, x))) as [[= -> ->]|Hd'].
    + congruence.
    + rewrite Ho in Hv by done. eauto.
  - intros [py px] q v Hne Hrel HG. cbn [fst snd] in *.
    destruct (decide ((py, px) = (y, x))) as [[= -> ->]|Hp1].
    + rewrite Hcell in HG. injection HG as ->. lia.
    + rewrite Ho in HG by done. by apply (Hd (py, px) q v).
Qed.

(** A digit that [possible] rejects at an empty cell is not the value of
    that cell in any filling. *)
Lemma filling_not_occurs (g c : grid) y x n :
  filling g c → getitem g y x = Some 0 → getitem c y x = Some n →
  ¬ occurs g y x n.
Proof.
  intros Hfill H0 Hn ([qy qx] & Hrel & Hq)%occurs_related.
  cbn [fst snd] in Hq.
  pose proof (filling_range _ _ _ _ _ Hfill Hn) as Hrange.
  destruct Hfill as (Hs & Hr & Hf & Hext & Hd).
  apply (Hd (y, x) (qy, qx) n); cbn [fst snd]; auto.
  - intros [= <- <-]. rewrite H0 in Hq. injection Hq as <-. lia.
  - apply Hext; [done|lia].
Qed.

Lemma filling_full_eq (g c : grid) :
  shape99 g → full g → filling g c → c = g.
Proof.
  intros Hs Hf (Hsc & _ & _ & Hext & _). apply grid_eq.
  - apply shape99_row_lengths in Hs, Hsc. congruence.
  - intros y x. destruct (getitem g y x) as [v|] eqn:Hv.
    + apply Hext; [done|]. intros ->. by apply (Hf y x).
    + apply eq_None_not_Some. rewrite shape99_getitem by done.
      rewrite <- (shape99_getitem g) by done. rewrite Hv. by intros [? ?].
Qed.

Section finds.
Variable rec : state → outcome state.
Variable max : max_solutions.
Hypothesis rec_frame : ∀ s s', rec s = Returned s' → frame_cond max s s'.
Hypothesis rec_finds : ∀ s s' c,
  shape99 (sudoku s) → rec s = Returned s' →
  below (length (solutions s')) max = true →
  filling (sudoku s) c → c ∈ solutions s'.

Variables (g : grid) (sols : list grid) (y0 x0 : nat).
Hypothesis cell_empty : getitem g y0 x0 = Some 0.
Hypothesis g_shape : shape99 g.

Lemma for_digits_finds ns s s' c :
  frame_cond max (State g sols) s →
  for_digits rec max y0 x0 ns s = Returned s' →
  below (length (solutions s')) max = true →
  filling g c → (∃ n, n ∈ ns ∧ getitem c y0 x0 = Some n) →
  c ∈ solutions s'.
Proof.
  revert s. induction ns as [|n ns IH]; intros s Hs H Hb Hc (m & Hm & Hcm).
  { by apply elem_of_nil in Hm. }
  apply for_digits_cons in H as (s1 & H1 & H).
  pose proof (try_digit_frame rec max rec_frame g sols y0 x0 cell_empty
                n s s1 Hs H1) as Hs1.
  pose proof (for_digits_frame rec max rec_frame g (solutions s1) y0 x0
                cell_empty ns s1 s' (frame_cond_rebase _ _ _ _ Hs1) H)
    as ((new' & Hnew' & _) & _ & _). simpl in Hnew'.
  assert (below (length (solutions s1)) max = true) as Hb1.
  { eapply below_mono; [|exact Hb]. rewrite Hnew', length_app. lia. }
  assert (sudoku s1 = g) as Hg1 by (by apply Hs1).
  assert (below (length (solutions s)) max = true) as Hb0.
  { destruct Hs1 as ((n1 & Hn1 & _) & _). destruct Hs as ((n0 & Hn0 & _) & _).
    simpl in *.
    apply try_digit_Returned in H1
      as [[_ ->]|(_ & g1 & s2 & _ & Hrec & Hcase)]; [done|].
    apply rec_frame in Hrec as ((n2 & Hn2 & _) & _). simpl in Hn2.
    eapply below_mono; [|exact Hb1].
    destruct Hcase as [(_ & g3 & _ & ->)|(_ & ->)]; simpl;
      rewrite Hn2, length_app; lia. }
  assert (sudoku s = g) as Hg0 by (by apply Hs).
  destruct (decide (m = n)) as [->|Hmn].
  - apply try_digit_Returned in H1
      as [[Hp ->]|(Hp & g1 & s2 & Hset & Hrec & Hcase)].
    + exfalso. rewrite Hg0 in Hp.
      destruct (proj1 (shape99_getitem g y0 x0 g_shape)) as [Hy Hx]; [eauto|].
      destruct (possible_cases g y0 x0 n g_shape Hy Hx) as [[_ Hocc]|[? _]];
        [|congruence].
      by eapply filling_not_occurs.
    + rewrite Hg0 in Hset.
      assert (c ∈ solutions s2) as Hin.
      { destruct Hcase as [(Hb2 & _)|(Hb2 & ->)]; [|congruence].
        apply (rec_finds _ _ c) in Hrec; [done| |done|]; simpl.
        - apply setitem_Returned in Hset as (_ & Hsh & _).
          by eapply shape99_same_shape.
        - by eapply filling_setitem. }
      rewrite Hnew'. apply elem_of_app. left.
      by destruct Hcase as [(_ & g3 & _ & ->)|(_ & ->)].
  - apply (IH s1); [done..|]. exists m. split; [|done].
    apply elem_of_cons in Hm as [?|?]; done.
Qed.
End finds.

Lemma solve_rec_finds fuel max s s' c :
  shape99 (sudoku s) → solve_rec fuel max s = Returned s' →
  below (length (solutions s')) max = true →
  filling (sudoku s) c → c ∈ solutions s'.
Proof.
  revert s s' c. induction fuel as [|fuel IH]; intros s s' c Hs H Hb Hc; [done|].
  rewrite solve_rec_S in H.
  destruct (where_eq (sudoku s) 0) as [|[y0 x0] l] eqn:Hw.
  - injection H as <-. simpl. apply elem_of_app. right.
    apply list_elem_of_singleton. apply filling_full_eq; [done| |done].
    intros y x. by apply where_eq_nil.
  - destruct s as [g sols]. simpl in Hs, Hw, Hc.
    apply where_eq_head in Hw.
    eapply (for_digits_finds (solve_rec fuel max) max
              (solve_rec_frame fuel max) IH g sols y0 x0 Hw Hs);
      [apply frame_cond_refl|done..|].
    pose proof Hc as (Hsc & _).
    destruct (proj2 (shape99_getitem c y0 x0 Hsc)) as [v Hv].
    { apply (shape99_getitem g); [done|eauto]. }
    exists v. split; [|done].
    apply elem_of_range_1_10. by eapply filling_range.
Qed.

(** ** Fillings and valid completions *)

(** A valid completion is a filling, whatever the givens. *)
Lemma completion_filling (g c : grid) : completion g c → filling g c.
Proof.
  intros (Hs & Hc & Hext).
  assert (in_range c) as Hr.
  { apply in_range_getitem. intros y x v Hv.
    pose proof (complete_range c y x v Hs Hc Hv). lia. }
  split_and!; [done|done|by apply complete_full|done|].
  intros p q v Hne Hrel _ Hp Hq. by apply (complete_distinct c p q v).
Qed.

(** When no two givens clash, a filling is a valid completion. *)
Lemma filling_completion (g c : grid) :
  shape99 g → no_conflict g → filling g c → completion g c.
Proof.
  intros Hsg Hnc (Hs & Hr & Hf & Hext & Hd).
  split_and!; [done| |done].
  apply full_no_conflict_complete; [done..|].
  intros p q v Hne Hrel Hp Hq.
  destruct (decide (v = 0)) as [|Hv]; [done|exfalso].
  destruct (proj2 (shape99_getitem g p.1 p.2 Hsg)) as [vp Hgp].
  { apply (shape99_getitem c); [done|eauto]. }
  destruct (proj2 (shape99_getitem g q.1 q.2 Hsg)) as [vq Hgq].
  { apply (shape99_getitem c); [done|eauto]. }
  destruct (decide (vp = 0)) as [->|Hvp].
  { by apply (Hd p q v). }
  destruct (decide (vq = 0)) as [->|Hvq].
  { apply (Hd q p v); [done|by apply related_sym|done..]. }
  pose proof (Hext _ _ _ Hgp Hvp) as Hcp. pose proof (Hext _ _ _ Hgq Hvq) as Hcq.
  assert (vp = v) as -> by congruence. assert (vq = v) as -> by congruence.
  apply Hv. by apply (Hnc p q v).
Qed.

(** ** Top-level calls on any well-formed board *)

(** A board that cannot be filled yields the empty list. *)
Lemma solve_no_filling (G : grid) (max : max_solutions) :
  well_formed G → (¬ ∃ c, filling G c) →
  ∃ s, solve G max = Returned s ∧ solutions s = [].
Proof.
  intros Hwf Hno.
  destruct (solve_returns G max (proj1 Hwf)) as [s Hret].
  exists s. split; [done|].
  pose proof (solve_rec_fillings _ _ _ _ Hwf Hret) as Hall.
  destruct (solutions s) as [|c l]; [done|].
  apply Forall_cons in Hall as [Hc _]. destruct Hno. eauto.
Qed.

(** A board that can be filled yields a grid, also when its givens clash
    and it has no valid completion: with a positive limit the list is
    not empty, its members are fillings, and while the count stays below
    the limit every filling is in it. *)
Lemma solve_finds_filling (G c : grid) (max : max_solutions) :
  well_formed G → positive_limit max → filling G c →
  ∃ s, solve G max = Returned s ∧ solutions s ≠ [] ∧
       Forall (filling G) (solutions s) ∧
       (below (length (solutions s)) max = true → c ∈ solutions s).
Proof.
  intros Hwf Hpos Hc.
  destruct (solve_returns G max (proj1 Hwf)) as [s Hret].
  exists s. split; [done|].
  assert (below (length (solutions s)) max = true → c ∈ solutions s) as Hin.
  { intros Hb.
    by apply (solve_rec_finds (S (zeros G)) max (State G []) s c (proj1 Hwf) Hret Hb). }
  split_and!; [|by eapply solve_rec_fillings|done].
  intros Hnil. rewrite Hnil in Hin. apply (not_elem_of_nil c), Hin.
  destruct max as [m|]; simpl in *; [|done]. apply bool_decide_eq_true_2. lia.
Qed.

(** When no two givens clash, a board without a valid completion yields
    the empty list. *)
Lemma solve_clash_free_no_completion (G : grid) (max : max_solutions) :
  well_formed G → no_conflict G → (¬ ∃ c, completion G c) →
  ∃ s, solve G max = Returned s ∧ solutions s = [].
Proof.
  intros Hwf Hnc Hno. apply solve_no_filling; [done|].
  intros [c Hc]. apply Hno. exists c. by apply filling_completion; [apply Hwf|..].
Qed.

(** ** A board with clashing givens that cannot be filled *)

(** A row that is empty in [g] holds every digit in a filling of [g]. *)
Lemma filling_empty_row (g c : grid) y n :
  filling g c → (y < 9)%nat →
  (∀ x, (x < 9)%nat → getitem g y x = Some 0) → 1 ≤ n ≤ 9 →
  ∃ x, (x < 9)%nat ∧ getitem c y x = Some n.
Proof.
  intros Hfill Hy Hrow Hn.
  pose proof Hfill as (Hs & Hr & Hf & Hext & Hd).
  assert (row_cells y ∈ regions) as Hps.
  { unfold regions. apply elem_of_app. left.
    apply list_elem_of_fmap_2, elem_of_seq. lia. }
  assert (∀ i v, cells c (row_cells y) !! i = Some v →
            (i < 9)%nat ∧ getitem c y i = Some v) as Hcell.
  { intros i v Hi.
    assert (i < 9)%nat as Hi9.
    { apply lookup_lt_Some in Hi.
      by rewrite cells_length, regions_length in Hi. }
    split; [done|].
    destruct (cells_lookup c (row_cells y) i (y, i) Hs Hps) as [Hci _].
    { unfold row_cells. rewrite list_lookup_fmap. by rewrite lookup_seq_lt. }
    rewrite Hi in Hci. symmetry. exact Hci. }
  assert (cells c (row_cells y) ≡ₚ list_numbers) as Hperm.
  { apply submseteq_length_Permutation.
    - apply NoDup_submseteq.
      + apply NoDup_alt. intros i j v Hi Hj.
        destruct (decide (i = j)) as [|Hne]; [done|exfalso].
        apply Hcell in Hi as [Hi9 Hi], Hj as [Hj9 Hj].
        apply (Hd (y, i) (y, j) v); cbn [fst snd]; auto.
        * congruence.
        * by left.
      + intros v [i Hi]%list_elem_of_lookup.
        apply Hcell in Hi as [_ Hi]. apply elem_of_list_numbers.
        by eapply filling_range.
    - by rewrite cells_length, regions_length. }
  assert (n ∈ cells c (row_cells y)) as Hin.
  { rewrite Hperm. by apply elem_of_list_numbers. }
  apply list_elem_of_lookup in Hin as [x Hx].
  apply Hcell in Hx. eauto.
Qed.

Lemma two_fives_empty y x :
  (1 ≤ y < 9)%nat → (x < 9)%nat → getitem two_fives y x = Some 0.
Proof.
  intros Hy Hx.
  assert (Forall (λ y, Forall (λ x, getitem two_fives y x = Some 0) (seq 0 9))
            (seq 1 8)) as Hall.
  { apply (bool_decide_unpack _). vm_compute. exact I. }
  rewrite Forall_forall in Hall.
  specialize (Hall y ltac:(apply elem_of_seq; lia)).
  rewrite Forall_forall in Hall. apply Hall, elem_of_seq. lia.
Qed.

(** Each of the rows 1 to 8 needs a 5, in a column of its own, and the
    columns 0 and 1 hold a 5 already: seven columns are left for eight
    rows. *)
Lemma two_fives_no_filling : ¬ ∃ c, filling two_fives c.
Proof.
  intros [c Hfill].
  pose proof Hfill as (Hs & Hr & Hf & Hext & Hd).
  assert (∀ y, (1 ≤ y < 9)%nat →
            ∃ x, (2 ≤ x < 9)%nat ∧ getitem c y x = Some 5) as Hrow.
  { intros y Hy.
    destruct (filling_empty_row two_fives c y 5 Hfill) as (x & Hx & Hc);
      [lia|intros; apply two_fives_empty; lia|lia|].
    exists x. split; [|done].
    destruct (decide (x < 2)%nat) as [Hlt|]; [exfalso|lia].
    assert (getitem c 0 x = Some 5) as Hc0.
    { apply Hext; [|done]. destruct x as [|[|x]]; [reflexivity..|lia]. }
    apply (Hd (y, x) (0%nat, x) 5); cbn [fst snd]; auto.
    - intros [= ->]. lia.
    - right. by left.
    - apply two_fives_empty; lia. }
  assert (∀ k, (k ≤ 8)%nat →
            ∃ l : list nat, length l = k ∧ NoDup l ∧
              Forall (λ x, 2 ≤ x < 9)%nat l ∧
              ∀ i x, l !! i = Some x → getitem c (S i) x = Some 5) as Hcols.
  { induction k as [|k IH]; intros Hk.
    - exists []. split_and!; [done|constructor|constructor|].
      intros i x Hi. by rewrite lookup_nil in Hi.
    - destruct IH as (l & Hlen & Hnd & Hall & Hl); [lia|].
      destruct (Hrow (S k)) as (x & Hx & Hcx); [lia|].
      exists (l ++ [x]). split_and!.
      + rewrite length_app. simpl. lia.
      + apply NoDup_app. split_and!; [done| |apply NoDup_singleton].
        intros x' Hin Hx'. apply list_elem_of_singleton in Hx'. subst x'.
        apply list_elem_of_lookup in Hin as [i Hi].
        pose proof (lookup_lt_Some _ _ _ Hi) as Hlt.
        apply (Hd (S k, x) (S i, x) 5); cbn [fst snd]; auto.
        * intros [= ?]. lia.
        * right. by left.
        * apply two_fives_empty; lia.
      + apply Forall_app. split; [done|]. by apply Forall_singleton.
      + intros i x' Hi. apply lookup_app_Some in Hi as [Hi|[Hge Hi]].
        * by apply Hl.
        * apply list_lookup_singleton_Some in Hi as [Hi ->].
          replace i with k by lia. done. }
  destruct (Hcols 8%nat) as (l & Hlen & Hnd & Hall & _); [lia|].
  assert (l ⊆+ seq 2 7) as Hsub.
  { apply NoDup_submseteq; [done|]. intros x Hx.
    rewrite Forall_forall in Hall. apply elem_of_seq.
    specialize (Hall x Hx). lia. }
  apply submseteq_length in Hsub. rewrite Hlen, length_seq in Hsub. lia.
Qed.

(** C3 as stated fails: an array of shape (1, 9, 9) is not of shape
    (9, 9), and [valid_sudoku] accepts it, because line 43 drops the axes
    of length 1 before it looks at the shape. *)
Lemma valid_sudoku_accepts_1_9_9 :
  let a := NdArray [1; 9; 9]%nat (replicate 81 0) in
  shape a ≠ [9; 9]%nat ∧ valid_sudoku a = true.
Proof. split; [discriminate|reflexivity]. Qed.

Lemma all_isin_valid_numbers (cells : list Z) :
  all_isin cells valid_numbers = true ↔ Forall (λ c, 0 ≤ c ≤ 9) cells.
Proof.
  unfold all_isin. rewrite forallb_forall, Forall_forall.
  assert (∀ c, existsb (λ a, c =? a) valid_numbers = true ↔ 0 ≤ c ≤ 9) as H.
  { intros c. rewrite existsb_exists. split.
    - intros (a & Ha & ->%Z.eqb_eq). apply list_elem_of_In in Ha.
      change valid_numbers with [0; 1; 2; 3; 4; 5; 6; 7; 8; 9] in Ha.
      rewrite !elem_of_cons, elem_of_nil in Ha. lia.
    - intros Hc. exists c. rewrite Z.eqb_refl. split; [|done].
      apply list_elem_of_In.
      change valid_numbers with [0; 1; 2; 3; 4; 5; 6; 7; 8; 9].
      rewrite !elem_of_cons, elem_of_nil. lia. }
  split; intros Hall c Hc.
  - apply H, Hall. by apply list_elem_of_In.
  - apply H, Hall. by apply list_elem_of_In.
Qed.

Lemma valid_sudoku_iff (a : ndarray) :
  valid_sudoku a = true ↔
  filter (λ value, value ≠ 1%nat) (shape a) = [9; 9]%nat ∧
  Forall (λ c, 0 ≤ c ≤ 9) (data a).
Proof.
  unfold valid_sudoku. rewrite !andb_true_iff, !bool_decide_eq_true.
  rewrite all_isin_valid_numbers.
  destruct (filter _ (shape a)) as [|d0 [|d1 [|d2 l]]]; simpl;
    [naive_solver..| |naive_solver].
  split.
  - intros [[_ [[= ->] [= ->]]] ?]. done.
  - intros [[= -> ->] ?]. done.
Qed.

(** C3, amended: [valid_sudoku] returns True exactly when the shape of
    the array, with its axes of length 1 dropped, is (9, 9) and every
    cell lies in 0..9; it returns False for every other array. *)
Theorem valid_sudoku_spec (a : ndarray) :
  (valid_sudoku a = true ↔
   filter (λ value, value ≠ 1%nat) (shape a) = [9; 9]%nat ∧
   Forall (λ c, 0 ≤ c ≤ 9) (data a)) ∧
  (filter (λ value, value ≠ 1%nat) (shape a) ≠ [9; 9]%nat →
   valid_sudoku a = false).
Proof.
  split; [apply valid_sudoku_iff|]. intros Hne.
  apply not_true_is_false. by intros [? _]%valid_sudoku_iff.
Qed.

(** A well-formed grid, seen as an array, is accepted. *)
Lemma well_formed_valid_sudoku (g : grid) :
  well_formed g → valid_sudoku (as_ndarray g) = true.
Proof.
  intros [Hs Hr]. apply valid_sudoku_iff. simpl.
  rewrite (shape99_ncols g Hs), (proj1 Hs). split; [done|].
  unfold in_range in Hr. clear Hs. induction Hr as [|row g Hrow _ IH]; simpl.
  - constructor.
  - by apply Forall_app.
Qed.

(** C6 as stated fails: [clashing_givens] is well-formed, has an empty
    cell and no valid completion (two 7s in its last row), and
    [solve] returns one grid for it. *)
Lemma solve_clashing_givens :
  well_formed clashing_givens ∧
  getitem clashing_givens 0 0 = Some 0 ∧
  (¬ ∃ c, completion clashing_givens c) ∧
  ∃ s c, solve clashing_givens (Limit 1) = Returned s ∧
         solutions s = [c] ∧ check_sudoku c = false.
Proof.
  assert (well_formed clashing_givens) as Hwf.
  { apply (bool_decide_unpack _). vm_compute. exact I. }
  split_and!; [done|done| |].
  - intros [c Hc].
    pose proof (completion_valid_partial _ _ Hwf Hc) as (_ & _ & Hnc).
    specialize (Hnc (8, 7)%nat (8, 8)%nat 7).
    assert (7 = 0) by (apply Hnc; [done|by left|done|done]). done.
  - eexists _, _. split_and!; [vm_compute; reflexivity|reflexivity|].
    vm_compute. reflexivity.
Qed.

(** The claim fails on every board that has a filling and no valid
    completion: with a positive limit, the list returned is not empty,
    and none of its grids passes [check_sudoku]. *)
Lemma solve_fillable_clash (G : grid) (max : max_solutions) :
  well_formed G → positive_limit max →
  (∃ c, filling G c) → (¬ ∃ c, completion G c) →
  ∃ s, solve G max = Returned s ∧ solutions s ≠ [] ∧
       Forall (λ c, check_sudoku c = false) (solutions s).
Proof.
  intros Hwf Hpos [c Hc] Hno.
  destruct (solve_finds_filling G c max Hwf Hpos Hc) as (s & Hs & Hne & Hall & _).
  exists s. split_and!; [done..|].
  eapply Forall_impl; [exact Hall|]. intros c' (Hsc & _ & _ & Hext & _).
  apply not_true_is_false. intros Hchk. apply Hno. by exists c'.
Qed.

(** C6, amended: for every well-formed grid with an empty cell and
    without a valid completion, provided that its givens do not clash
    or, if they do, that its empty cells cannot be filled (no [filling]:
    digits 1..9 in the empty cells, each differing from every other cell
    of its row, column and box), [solve] returns the empty list, for
    every [max_solutions], and raises nothing.  Two 5s in row 0 of an
    otherwise empty board are such a grid.  The grids left out have a
    filling and no valid completion; for each of them [solve] returns a
    grid ([solve_fillable_clash]), as for [clashing_givens]. *)
Theorem solve_no_completion (G : grid) (max : max_solutions) :
  well_formed G → where_eq G 0 ≠ [] → (¬ ∃ c, completion G c) →
  no_conflict G ∨ (¬ ∃ c, filling G c) →
  ∃ s, solve G max = Returned s ∧ solutions s = [].
Proof.
  intros Hwf _ Hno [Hnc|Hnf].
  - by apply solve_clash_free_no_completion.
  - by apply solve_no_filling.
Qed.

(** [dead_cell]: givens without a clash; [two_fives]: clashing givens
    that leave no filling. *)
Lemma solve_no_completion_witness :
  (∃ s, solve dead_cell (Limit 1) = Returned s ∧ solutions s = []) ∧
  (∃ s, solve two_fives (Limit 1) = Returned s ∧ solutions s = []).
Proof.
  assert (shape99 dead_cell) as Hs.
  { apply (bool_decide_unpack _). vm_compute. exact I. }
  split.
  - apply (solve_no_completion dead_cell (Limit 1)).
    + apply (bool_decide_unpack _). vm_compute. exact I.
    + vm_compute. discriminate.
    + apply (dead_cell_no_completion dead_cell 0 8 Hs); [reflexivity|].
      apply (bool_decide_unpack _). vm_compute. exact I.
    + left. apply no_conflict_check; [exact Hs|].
      apply (bool_decide_unpack _). vm_compute. exact I.
  - apply (solve_no_completion two_fives (Limit 1)).
    + apply (bool_decide_unpack _). vm_compute. exact I.
    + vm_compute. discriminate.
    + intros [c Hc]. apply two_fives_no_filling. exists c.
      exact (completion_filling two_fives c Hc).
    + right. exact two_fives_no_filling.
Defined.

(** C9: on a 9x9 grid without an empty cell, [solve] appends a copy of
    the grid to the list and returns, whatever the grid holds: a full
    grid that fails [check_sudoku] is returned as well. *)
Theorem solve_full_grid (g : grid) (max : max_solutions) (sols : list grid) :
  shape99 g → full g →
  solve g max = Returned (State g [g]) ∧
  (∀ fuel, solve_rec (S fuel) max (State g sols) = Returned (State g (sols ++ [g]))) ∧
  (check_sudoku g = false → ∃ s, solve g max = Returned s ∧
     Exists (λ c, check_sudoku c = false) (solutions s)).
Proof.
  intros _ Hf%full_where_eq.
  assert (∀ fuel l, solve_rec (S fuel) max (State g l) = Returned (State g (l ++ [g])))
    as H.
  { intros fuel l. rewrite solve_rec_S. simpl. by rewrite Hf. }
  split_and!; [exact (H _ [])|intros fuel; apply H|].
  intros Hc. eexists. split; [exact (H _ [])|]. simpl. by apply Exists_cons_hd.
Qed.

Lemma solve_full_grid_witness :
  solve all_ones (Limit 1) = Returned (State all_ones [all_ones]) ∧
  (∀ fuel, solve_rec (S fuel) (Limit 1) (State all_ones [])
           = Returned (State all_ones ([] ++ [all_ones]))) ∧
  (check_sudoku all_ones = false → ∃ s, solve all_ones (Limit 1) = Returned s ∧
     Exists (λ c, check_sudoku c = false) (solutions s)).
Proof.
  apply (solve_full_grid all_ones (Limit 1) []).
  - apply (bool_decide_unpack _). vm_compute. exact I.
  - apply full_where_eq. vm_compute. reflexivity.
Defined.

Lemma check_sudoku_all_ones : check_sudoku all_ones = false.
Proof. vm_compute. reflexivity. Qed.

(** C10: when a top-level call returns with fewer recorded solutions
    than [max_solutions], the working grid is equal to the grid passed
    in; so it is when the call returns the empty list and
    [max_solutions] is positive or unbounded. *)
Theorem solve_restores_grid (g : grid) (max : max_solutions) (s : state) :
  solve g max = Returned s →
  (below (length (solutions s)) max = true → sudoku s = g) ∧
  (positive_limit max → solutions s = [] → sudoku s = g).
Proof.
  intros H. apply solve_rec_frame in H as (_ & _ & Hres). simpl in Hres.
  split; [done|]. intros Hpos Hnil. apply Hres. rewrite Hnil.
  destruct max as [m|]; simpl in *; [|done]. apply bool_decide_eq_true. lia.
Qed.

Lemma solve_restores_grid_witness :
  solve example_puzzle (Limit 2)
    = Returned (State example_puzzle [example_solution]) ∧
  (below (length [example_solution]) (Limit 2) = true →
     example_puzzle = example_puzzle) ∧
  (positive_limit (Limit 2) → [example_solution] = [] →
     example_puzzle = example_puzzle).
Proof.
  assert (solve example_puzzle (Limit 2)
            = Returned (State example_puzzle [example_solution])) as H.
  { vm_compute. reflexivity. }
  split; [exact H|].
  exact (solve_restores_grid example_puzzle (Limit 2)
           (State example_puzzle [example_solution]) H).
Defined.

(** ** The tree of calls *)

Lemma fmap_Returned {A B} (f : A → B) (m : outcome A) b :
  f <$> m = Returned b ↔ ∃ a, m = Returned a ∧ b = f a.
Proof. destruct m; simpl; naive_solver. Qed.

Section erase.
Variable rec : state → outcome state.
Variable rec_c : state → outcome (state * calls).
Variable max : max_solutions.
Hypothesis rec_erase : ∀ s, fst <$> rec_c s = rec s.

Lemma try_digit_calls_erase y0 x0 n st :
  fst <$> try_digit_calls rec_c max y0 x0 n st = try_digit rec max y0 x0 n st.1.
Proof.
  unfold try_digit_calls, try_digit.
  destruct (possible (sudoku st.1) y0 x0 n) as [[|]| |]; try done.
  cbn [mbind outcome_bind].
  destruct (setitem (sudoku st.1) y0 x0 n) as [g1| |]; try done.
  cbn [mbind outcome_bind]. rewrite <- rec_erase.
  destruct (rec_c _) as [[s2 t]| |]; try done. simpl.
  destruct (below _ max); [|done].
  destruct (setitem (sudoku s2) y0 x0 0); done.
Qed.

Lemma for_digits_calls_erase y0 x0 ns st :
  fst <$> for_digits_calls rec_c max y0 x0 ns st
  = for_digits rec max y0 x0 ns st.1.
Proof.
  revert st. induction ns as [|n ns IH]; intros st; [done|]. simpl.
  rewrite <- try_digit_calls_erase.
  destruct (try_digit_calls rec_c max y0 x0 n st) as [st'| |]; try done.
  simpl. apply IH.
Qed.
End erase.

Lemma solve_calls_S fuel max s :
  solve_calls (S fuel) max s =
  match where_eq (sudoku s) 0 with
  | (y0, x0) :: _ =>
      st ← for_digits_calls (solve_calls fuel max) max y0 x0 (range 1 10) (s, []);
      mret (st.1, Call (sudoku s) st.2)
  | [] =>
      Returned (State (sudoku s) (solutions s ++ [copy (sudoku s)]),
                Call (sudoku s) [])
  end.
Proof. reflexivity. Qed.

Lemma solve_calls_erase fuel max s :
  fst <$> solve_calls fuel max s = solve_rec fuel max s.
Proof.
  revert s. induction fuel as [|fuel IH]; intros s; [done|].
  rewrite solve_calls_S, solve_rec_S.
  destruct (where_eq (sudoku s) 0) as [|[y0 x0] l]; [done|].
  pose proof (for_digits_calls_erase _ _ max IH y0 x0 (range 1 10) (s, []))
    as E.
  cbn [fst] in E. rewrite <- E.
  by destruct (for_digits_calls _ _ _ _ _ _) as [st| |].
Qed.

Lemma height_le g cs k :
  Forall (λ c, (S (height c) ≤ k)%nat) cs → (height (Call g cs) ≤ k)%nat.
Proof.
  simpl. induction 1 as [|c cs Hc _ IH]; [lia|]. lia.
Qed.

(** What a returning call records about itself. *)
Section descent.
Variable rec : state → outcome state.
Variable rec_c : state → outcome (state * calls).
Variable max : max_solutions.
Hypothesis rec_erase : ∀ s, fst <$> rec_c s = rec s.
Hypothesis rec_frame : ∀ s s', rec s = Returned s' → frame_cond max s s'.
Hypothesis rec_descends : ∀ s s' t,
  rec_c s = Returned (s', t) →
  entry t = sudoku s ∧ descends t ∧ (height t ≤ zeros (sudoku s))%nat.

Variables (g : grid) (sols : list grid) (y0 x0 : nat).
Hypothesis cell_empty : getitem g y0 x0 = Some 0.

Let recorded (c : calls) : Prop :=
  (zeros (entry c) < zeros g)%nat ∧ descends c ∧ (S (height c) ≤ zeros g)%nat.

Lemma try_digit_calls_descends n st st' :
  n ≠ 0 → frame_cond max (State g sols) st.1 → Forall recorded st.2 →
  try_digit_calls rec_c max y0 x0 n st = Returned st' →
  frame_cond max (State g sols) st'.1 ∧ Forall recorded st'.2 ∧
  (length st'.2 ≤ S (length st.2))%nat.
Proof.
  intros Hn Hfr Hcs Htry.
  assert (frame_cond max (State g sols) st'.1) as Hfr'.
  { eapply (try_digit_frame rec max rec_frame g sols y0 x0 cell_empty n st.1);
      [done|].
    rewrite <- try_digit_calls_erase with (rec_c := rec_c) by done.
    by rewrite Htry. }
  split; [done|]. clear Hfr'. unfold try_digit_calls in Htry.
  apply bind_Returned in Htry as ([|] & Hp & Htry);
    [|injection Htry as <-; split; [done|lia]].
  apply bind_Returned in Htry as (g1 & Hg1 & Htry).
  apply bind_Returned in Htry as ([s2 t] & Hrec & Htry).
  destruct (rec_descends _ _ _ Hrec) as (Hentry & Hdesc & Hheight).
  simpl in Hentry, Hheight, Htry.
  assert (zeros g1 < zeros g)%nat as Hz.
  { eapply zeros_setitem; [|done..]. apply Hfr. }
  assert (Forall recorded (st.2 ++ [t])) as Hcs'.
  { apply Forall_app. split; [done|]. apply Forall_singleton.
    unfold recorded. rewrite Hentry. split_and!; [done..|lia]. }
  assert (length (st.2 ++ [t]) ≤ S (length st.2))%nat as Hlen.
  { rewrite length_app. simpl. lia. }
  destruct (below _ max).
  - apply bind_Returned in Htry as (g3 & _ & [= <-]). done.
  - injection Htry as <-. done.
Qed.

Lemma for_digits_calls_descends ns st st' :
  Forall (λ n, n ≠ 0) ns →
  frame_cond max (State g sols) st.1 → Forall recorded st.2 →
  for_digits_calls rec_c max y0 x0 ns st = Returned st' →
  Forall recorded st'.2 ∧ (length st'.2 ≤ length st.2 + length ns)%nat.
Proof.
  intros Hns. revert st.
  induction Hns as [|n ns Hn _ IH]; intros st Hfr Hcs H.
  - simpl in H. injection H as <-. split; [done|lia].
  - simpl in H. apply bind_Returned in H as (st1 & H1 & H).
    destruct (try_digit_calls_descends n st st1 Hn Hfr Hcs H1)
      as (Hfr1 & Hcs1 & Hlen1).
    destruct (IH st1 Hfr1 Hcs1 H) as [Hcs' Hlen']. split; [done|].
    simpl. lia.
Qed.
End descent.

Lemma solve_calls_descends fuel max s s' t :
  solve_calls fuel max s = Returned (s', t) →
  entry t = sudoku s ∧ descends t ∧ (height t ≤ zeros (sudoku s))%nat.
Proof.
  revert s s' t. induction fuel as [|fuel IH]; intros s s' t H; [done|].
  rewrite solve_calls_S in H.
  destruct (where_eq (sudoku s) 0) as [|[y0 x0] l] eqn:Hw.
  - injection H as <- <-. split_and!; [done| |simpl; lia].
    constructor; [simpl; lia|constructor].
  - apply bind_Returned in H as ([s1 cs] & Hloop & [= <- <-]).
    cbn [entry]. destruct s as [g sols]. cbn [sudoku solutions] in *.
    apply where_eq_head in Hw.
    destruct (for_digits_calls_descends (solve_rec fuel max)
                (solve_calls fuel max) max (solve_calls_erase fuel max)
                (solve_rec_frame fuel max) IH g sols y0 x0 Hw
                (range 1 10) (State g sols, []) (s1, cs)) as [Hcs Hlen].
    + apply range_1_10_nonzero.
    + apply frame_cond_refl.
    + constructor.
    + done.
    + simpl in Hcs, Hlen. split_and!; [done| |].
      * constructor; [exact Hlen|].
        eapply Forall_impl; [exact Hcs|]. by intros c (? & ? & ?).
      * apply height_le. eapply Forall_impl; [exact Hcs|]. by intros c (? & ? & ?).
Qed.

(** C8: on every well-formed 9x9 grid, for every [max_solutions], the
    search returns; each recursive call is made on a grid with strictly
    fewer empty cells than its caller received, a call makes at most 9
    recursive calls, and the recursion is at most 81 calls deep. *)
Theorem solve_terminates (g : grid) (max : max_solutions) :
  well_formed g →
  ∃ s t, solve g max = Returned s ∧
    solve_calls (S (zeros g)) max (State g []) = Returned (s, t) ∧
    entry t = g ∧ descends t ∧ (height t ≤ 81)%nat.
Proof.
  intros [Hs _]. destruct (solve_returns g max Hs) as [s Hret].
  pose proof Hret as Hc. unfold solve in Hc.
  rewrite <- solve_calls_erase in Hc.
  apply fmap_Returned in Hc as ([s1 t] & Hc & ->).
  exists s1, t. split_and!; [done..| | |].
  - by destruct (solve_calls_descends _ _ _ _ _ Hc) as (? & _).
  - by destruct (solve_calls_descends _ _ _ _ _ Hc) as (_ & ? & _).
  - destruct (solve_calls_descends _ _ _ _ _ Hc) as (_ & _ & Hh).
    simpl in Hh. pose proof (shape99_zeros g Hs). lia.
Qed.

Lemma solve_terminates_witness :
  ∃ s t, solve example_puzzle Unbounded = Returned s ∧
    solve_calls (S (zeros example_puzzle)) Unbounded (State example_puzzle [])
      = Returned (s, t) ∧
    entry t = example_puzzle ∧ descends t ∧ (height t ≤ 81)%nat.
Proof.
  apply (solve_terminates example_puzzle Unbounded).
  apply (bool_decide_unpack _). vm_compute. exact I.
Defined.

(** ** generate_sudoku *)

Lemma getitem_fmap (f : Z → Z) (g : grid) y x :
  getitem (relabel f g) y x = f <$> getitem g y x.
Proof.
  unfold getitem, relabel. rewrite list_lookup_fmap.
  destruct (g !! y) as [row|]; simpl; [|done]. by rewrite list_lookup_fmap.
Qed.

Lemma shape99_fmap (f : Z → Z) (g : grid) : shape99 g → shape99 (relabel f g).
Proof.
  apply shape99_same_shape. unfold row_lengths, relabel.
  rewrite <- list_fmap_compose. apply list_fmap_ext.
  intros i row _. simpl. by rewrite length_fmap.
Qed.

Lemma cells_fmap (f : Z → Z) (g : grid) ps :
  shape99 g → ps ∈ regions → cells (relabel f g) ps = f <$> cells g ps.
Proof.
  intros Hs Hps. unfold cells. rewrite <- list_fmap_compose.
  apply list_fmap_ext. intros i p Hp. simpl. rewrite getitem_fmap.
  destruct (cells_lookup g ps i p Hs Hps Hp) as [_ [v ->]]. done.
Qed.

Lemma length_9_inv {A} (l : list A) :
  length l = 9%nat →
  ∃ a0 a1 a2 a3 a4 a5 a6 a7 a8, l = [a0; a1; a2; a3; a4; a5; a6; a7; a8].
Proof.
  intros H.
  do 9 (destruct l as [|? l]; [done|]). destruct l; [|done].
  by eexists _, _, _, _, _, _, _, _, _.
Qed.

(** Every shuffled diagonal has a completion. *)
Lemma np_diag_completion (shuffled : list Z) :
  shuffled ≡ₚ list_numbers →
  well_formed (np_diag shuffled) ∧
  completion (np_diag shuffled) (relabel (rename shuffled) diagonal_solution).
Proof.
  intros Hperm.
  assert (shape99 diagonal_solution) as Hs0.
  { apply (bool_decide_unpack _). vm_compute. exact I. }
  assert (check_sudoku diagonal_solution = true) as Hc0 by (by vm_compute).
  assert (∀ v, v ∈ shuffled → 1 ≤ v ≤ 9) as Hrange.
  { intros v Hv. apply elem_of_list_numbers. by rewrite <- Hperm. }
  destruct (length_9_inv shuffled) as (d0&d1&d2&d3&d4&d5&d6&d7&d8&->).
  { by rewrite Hperm. }
  split.
  - split.
    + apply (bool_decide_unpack _). vm_compute. exact I.
    + unfold in_range, np_diag. simpl.
      apply Forall_forall. intros row Hrow. apply Forall_forall. intros c Hc.
      assert (c = 0 ∨ c ∈ [d0; d1; d2; d3; d4; d5; d6; d7; d8]) as [->|Hin].
      { rewrite !elem_of_cons, elem_of_nil in Hrow.
        repeat (destruct Hrow as [->|Hrow]; [set_solver|]). done. }
      * lia.
      * apply Hrange in Hin. lia.
  - apply completion_check.
    + by apply shape99_fmap.
    + apply check_sudoku_perm; [by apply shape99_fmap|]. intros ps Hps.
      rewrite cells_fmap by done.
      rewrite check_sudoku_perm in Hc0 by done. rewrite (Hc0 ps Hps).
      by change (rename [d0; d1; d2; d3; d4; d5; d6; d7; d8] <$> list_numbers)
        with [d0; d1; d2; d3; d4; d5; d6; d7; d8].
    + unfold np_diag, diagonal_solution, relabel.
      repeat (apply Forall_cons_2;
              [first [left; reflexivity|right; reflexivity]|]).
      apply Forall_nil_2.
Qed.

(** Clearing cells by flat index *)

Lemma unflatten_inj (i j : nat) :
  (i / 9, i mod 9)%nat = (j / 9, j mod 9)%nat → i = j.
Proof.
  intros H. pose proof (f_equal fst H) as H1. pose proof (f_equal snd H) as H2.
  cbn [fst snd] in H1, H2.
  pose proof (Nat.div_mod_eq i 9). pose proof (Nat.div_mod_eq j 9). lia.
Qed.

Lemma ravel_setitem_spec (g : grid) (idx : list nat) :
  shape99 g → Forall (λ i, (i < 81)%nat) idx →
  ∃ g', ravel_setitem g idx 0 = Returned g' ∧ shape99 g' ∧
    ∀ i, (i < 81)%nat →
      getitem g' (i / 9) (i mod 9) =
      if decide (i ∈ idx) then Some 0 else getitem g (i / 9) (i mod 9).
Proof.
  intros Hs Hidx. revert g Hs.
  induction Hidx as [|i0 idx Hi0 _ IH]; intros g Hs.
  - exists g. split_and!; [done..|]. intros i _. rewrite decide_False; [done|].
    apply not_elem_of_nil.
  - cbn [ravel_setitem]. rewrite (shape99_ncols g Hs).
    destruct (setitem_is_Returned g (i0 / 9) (i0 mod 9) 0) as [g1 Hg1].
    { apply shape99_getitem; [done|].
      pose proof (Nat.div_mod_eq i0 9). pose proof (Nat.mod_upper_bound i0 9).
      lia. }
    rewrite Hg1. cbn [mbind outcome_bind].
    pose proof Hg1 as (_ & Hsh & Hc & Ho)%setitem_Returned.
    destruct (IH g1) as (g' & Hret & Hs' & Hget).
    { by eapply shape99_same_shape. }
    exists g'. split_and!; [done..|]. intros i Hi. rewrite (Hget i Hi).
    destruct (decide (i = i0)) as [->|Hne].
    + rewrite (decide_True (P := i0 ∈ i0 :: idx)) by left.
      rewrite Hc. by destruct (decide (i0 ∈ idx)).
    + rewrite Ho by (intros ?%unflatten_inj; done).
      destruct (decide (i ∈ idx)).
      * rewrite decide_True; [done|by right].
      * rewrite decide_False; [done|]. by intros [?|?]%elem_of_cons.
Qed.

Lemma indices_shape99 (g : grid) :
  shape99 g → indices g = (λ i, (i / 9, i mod 9)%nat) <$> seq 0 81.
Proof.
  intros Hs%shape99_row_lengths.
  rewrite (indices_same_shape (replicate 9 (replicate 9 0)) g); [|by rewrite Hs].
  by vm_compute.
Qed.

Lemma length_filter_split {A} (P : A → Prop) `{!∀ x, Decision (P x)} (l : list A) :
  (length (filter P l) + length (filter (λ x, ¬ P x) l))%nat = length l.
Proof.
  induction l as [|x l IH]; [done|]. rewrite !filter_cons.
  destruct (decide (P x)); destruct (decide (¬ P x)); simpl; try done; lia.
Qed.

Lemma count_nonzero_zeros (g : grid) :
  shape99 g → (count_nonzero g + zeros g)%nat = 81%nat.
Proof.
  intros Hs. unfold count_nonzero, zeros, where_eq.
  rewrite Nat.add_comm, length_filter_split.
  by rewrite indices_shape99, length_fmap, length_seq.
Qed.

Lemma filter_ext_in {A} (P Q : A → Prop) `{!∀ x, Decision (P x)}
    `{!∀ x, Decision (Q x)} (l : list A) :
  (∀ x, x ∈ l → P x ↔ Q x) → filter P l = filter Q l.
Proof.
  induction l as [|x l IH]; intros Hext; [done|]. rewrite !filter_cons.
  rewrite IH by (intros y Hy; apply Hext; by right).
  destruct (decide (P x)) as [HP|HP], (decide (Q x)) as [HQ|HQ]; try done.
  - destruct HQ. apply Hext; [left|done].
  - destruct HP. apply Hext; [left|done].
Qed.

Lemma length_filter_fmap {A B} (f : A → B) (P : B → Prop)
    `{!∀ y, Decision (P y)} (l : list A) :
  length (filter P (f <$> l)) = length (filter (λ x, P (f x)) l).
Proof.
  induction l as [|x l IH]; [done|]. rewrite fmap_cons, !filter_cons.
  destruct (decide (P (f x))); simpl; by rewrite IH.
Qed.

(** Clearing [k] distinct cells of a full board leaves [k] empty cells. *)
Lemma zeros_cleared (g g' : grid) (idx : list nat) :
  shape99 g → shape99 g' → full g → NoDup idx →
  Forall (λ i, (i < 81)%nat) idx →
  (∀ i, (i < 81)%nat →
     getitem g' (i / 9) (i mod 9) =
     if decide (i ∈ idx) then Some 0 else getitem g (i / 9) (i mod 9)) →
  zeros g' = length idx.
Proof.
  intros Hs Hs' Hf Hnd Hlt Hget. unfold zeros, where_eq.
  rewrite indices_shape99 by done. rewrite length_filter_fmap.
  rewrite (filter_ext_in _ (λ i, i ∈ idx)).
  - apply Permutation_length. apply NoDup_Permutation.
    + apply NoDup_filter, NoDup_seq.
    + done.
    + intros i. rewrite list_elem_of_filter, elem_of_seq.
      rewrite Forall_forall in Hlt. split; [naive_solver|].
      intros Hi. split; [done|]. specialize (Hlt i Hi). lia.
  - intros i Hi%elem_of_seq. cbn [fst snd]. rewrite Hget by lia.
    destruct (decide (i ∈ idx)); [done|]. split; [|done].
    intros H0. by apply Hf in H0.
Qed.

(** The part of [generate_sudoku] after the difficulty is decoded. *)
Lemma generate_sudoku_clues (shuffled : list Z) (choice : nat → list nat)
    (numbersin : nat) :
  shuffled ≡ₚ list_numbers → draws_without_replacement choice →
  (numbersin ≤ 81)%nat →
  ∃ g,
    (s ← solve (np_diag shuffled) (Limit 1);
     match solutions s with
     | [] => Raised IndexError
     | sudoku :: _ => ravel_setitem sudoku (choice (9 * 9 - numbersin)%nat) 0
     end) = Returned g ∧
    shape99 g ∧ count_nonzero g = numbersin ∧ zeros g = (81 - numbersin)%nat.
Proof.
  intros Hperm Hdraw Hle.
  destruct (np_diag_completion shuffled Hperm) as [Hwf Hc].
  pose proof (completion_valid_partial _ _ Hwf Hc) as Hv.
  destruct (solve_limit_one (np_diag shuffled) Hv (ex_intro _ _ Hc))
    as (s & Hsolve & Hsols & Hcc).
  rewrite Hsolve. cbn [mbind outcome_bind]. rewrite Hsols.
  set (c := sudoku s) in *.
  destruct (Hdraw (9 * 9 - numbersin)%nat) as (Hlen & Hnd & Hlt); [lia|].
  destruct Hcc as (Hsc & Hchk & _).
  destruct (ravel_setitem_spec c _ Hsc Hlt) as (g & -> & Hsg & Hget).
  exists g. split; [done|]. split; [done|].
  assert (zeros g = (81 - numbersin)%nat) as Hz.
  { rewrite (zeros_cleared c g _ Hsc Hsg (complete_full c Hsc Hchk) Hnd Hlt Hget).
    rewrite Hlen. lia. }
  split; [|done]. pose proof (count_nonzero_zeros g Hsg). lia.
Qed.

(** C7: for each of the three difficulty labels, [generate_sudoku]
    returns a 9x9 grid with exactly 30 ("easy"), 24 ("medium") or 17
    ("hard") non-zero cells, hence 64 zero cells for "hard"; for every
    other label it raises ValueError and produces no grid. *)
Theorem generate_sudoku_spec (shuffled : list Z) (choice : nat → list nat) :
  shuffled ≡ₚ list_numbers → draws_without_replacement choice →
  (∀ difficulty target,
     (difficulty, target) ∈
       [("easy", 30%nat); ("medium", 24%nat); ("hard", 17%nat)] →
     ∃ g, generate_sudoku difficulty shuffled choice = Returned g ∧
          shape99 g ∧ count_nonzero g = target ∧
          zeros g = (81 - target)%nat) ∧
  (∀ difficulty, difficulty ∉ ["easy"; "medium"; "hard"] →
     generate_sudoku difficulty shuffled choice = Raised ValueError).
Proof.
  intros Hperm Hdraw. split.
  - intros difficulty target Hin. unfold generate_sudoku.
    rewrite !elem_of_cons, elem_of_nil in Hin.
    destruct Hin as [[= -> ->]|[[= -> ->]|[[= -> ->]|[]]]].
    + rewrite decide_True by done.
      apply (generate_sudoku_clues shuffled choice 30 Hperm Hdraw). lia.
    + rewrite decide_False, decide_True by done.
      apply (generate_sudoku_clues shuffled choice 24 Hperm Hdraw). lia.
    + rewrite decide_False, decide_False, decide_True by done.
      apply (generate_sudoku_clues shuffled choice 17 Hperm Hdraw). lia.
  - intros difficulty Hnot. unfold generate_sudoku.
    rewrite !not_elem_of_cons in Hnot. destruct Hnot as (? & ? & ? & _).
    by rewrite !decide_False.
Qed.

Lemma generate_sudoku_spec_witness :
  (∀ difficulty target,
     (difficulty, target) ∈
       [("easy", 30%nat); ("medium", 24%nat); ("hard", 17%nat)] →
     ∃ g, generate_sudoku difficulty list_numbers (seq 0) = Returned g ∧
          shape99 g ∧ count_nonzero g = target ∧
          zeros g = (81 - target)%nat) ∧
  (∀ difficulty, difficulty ∉ ["easy"; "medium"; "hard"] →
     generate_sudoku difficulty list_numbers (seq 0) = Raised ValueError).
Proof.
  apply (generate_sudoku_spec list_numbers (seq 0)).
  - reflexivity.
  - intros k Hk. split_and!.
    + apply length_seq.
    + apply NoDup_seq.
    + apply Forall_forall. intros i Hi%elem_of_seq. lia.
Defined.

(** ** Further properties of the search *)

Lemma no_conflict_example_puzzle : no_conflict example_puzzle.
Proof.
  apply no_conflict_check.
  - apply (bool_decide_unpack _). vm_compute. exact I.
  - apply (bool_decide_unpack _). vm_compute. exact I.
Qed.

Lemma well_formed_example_puzzle : well_formed example_puzzle.
Proof. apply (bool_decide_unpack _). vm_compute. exact I. Qed.

(** X1: whatever the grid and the limit, a call of [solve] that returns
    has kept the shape of the working grid and all its non-zero cells,
    and every grid it recorded is full and keeps those cells too. *)
Theorem solve_keeps_givens (g : grid) (max : max_solutions) (s : state) :
  solve g max = Returned s →
  extends g (sudoku s) ∧
  Forall (λ c, full c ∧ extends g c) (solutions s).
Proof.
  intros H. apply solve_rec_frame in H as ((new & Hnew & Hfull) & Hext & _).
  simpl in *. by rewrite Hnew.
Qed.

Lemma solve_keeps_givens_witness :
  extends example_puzzle example_solution ∧
  Forall (λ c, full c ∧ extends example_puzzle c) [example_solution].
Proof.
  apply (solve_keeps_givens example_puzzle (Limit 1)
           (State example_solution [example_solution])).
  vm_compute. reflexivity.
Defined.

(** X2: on a well-formed board whose givens do not clash, every grid
    that [solve] returns, for any limit, is a valid completion of the
    board: it passes [check_sudoku] and keeps the givens. *)
Theorem solve_sound (G : grid) (max : max_solutions) (s : state) :
  well_formed G → no_conflict G → solve G max = Returned s →
  Forall (λ c, check_sudoku c = true ∧ completion G c) (solutions s).
Proof.
  intros [Hs Hr] Hnc H.
  pose proof (solve_rec_completions _ _ _ _ (conj Hs (conj Hr Hnc)) H) as Hall.
  eapply Forall_impl; [exact Hall|]. intros c Hc. split; [|done].
  by destruct Hc as (_ & ? & _).
Qed.

Lemma solve_sound_witness :
  Forall (λ c, check_sudoku c = true ∧ completion example_puzzle c)
    [example_solution].
Proof.
  apply (solve_sound example_puzzle Unbounded
           (State example_puzzle [example_solution])).
  - apply (bool_decide_unpack _). vm_compute. exact I.
  - apply no_conflict_check.
    + apply (bool_decide_unpack _). vm_compute. exact I.
    + apply (bool_decide_unpack _). vm_compute. exact I.
  - vm_compute. reflexivity.
Defined.

(** X3: when [solve] on a 9x9 grid returns fewer grids than
    [max_solutions], no valid completion is missing from the list. *)
Theorem solve_complete (G : grid) (max : max_solutions) (s : state) (c : grid) :
  shape99 G → solve G max = Returned s →
  below (length (solutions s)) max = true →
  completion G c → c ∈ solutions s.
Proof.
  intros Hs H Hb Hc.
  exact (solve_rec_complete _ _ (State G []) s c Hs H Hb Hc).
Qed.

Lemma solve_complete_witness : example_solution ∈ [example_solution].
Proof.
  apply (solve_complete example_puzzle (Limit 2)
           (State example_puzzle [example_solution]) example_solution).
  - apply (bool_decide_unpack _). vm_compute. exact I.
  - vm_compute. reflexivity.
  - reflexivity.
  - apply completion_check.
    + apply (bool_decide_unpack _). vm_compute. exact I.
    + vm_compute. reflexivity.
    + apply (bool_decide_unpack _). vm_compute. exact I.
Defined.

(** The count of recorded grids never passes a positive limit on a
    board without clashes. *)
Lemma solve_rec_count fuel m g s :
  valid_partial g → 1 ≤ m →
  solve_rec fuel (Limit m) (State g []) = Returned s →
  Z.of_nat (length (solutions s)) ≤ m.
Proof.
  intros Hv Hm H.
  destruct (below (length (solutions s)) (Limit m)) eqn:Hb.
  - simpl in Hb. apply bool_decide_eq_true in Hb. lia.
  - destruct (solve_rec_freeze _ _ (State g []) s Hv H) as (new & Hnew & Hbn);
      [simpl; apply bool_decide_eq_true; simpl; lia|done|].
    simpl in Hnew, Hbn. apply bool_decide_eq_true in Hbn.
    rewrite Hnew, length_app. simpl. lia.
Qed.

(** X5: on a well-formed board whose givens do not clash, [solve] with a
    positive integer limit returns at most that many grids. *)
Theorem solve_at_most_max (G : grid) (m : Z) (s : state) :
  well_formed G → no_conflict G → 1 ≤ m →
  solve G (Limit m) = Returned s →
  Z.of_nat (length (solutions s)) ≤ m.
Proof.
  intros [Hs Hr] Hnc Hm H.
  by apply (solve_rec_count (S (zeros G)) m G s (conj Hs (conj Hr Hnc))).
Qed.

Lemma solve_at_most_max_witness :
  Z.of_nat (length [example_solution]) ≤ 1.
Proof.
  apply (solve_at_most_max example_puzzle 1
           (State example_solution [example_solution])).
  - apply (bool_decide_unpack _). vm_compute. exact I.
  - apply no_conflict_check.
    + apply (bool_decide_unpack _). vm_compute. exact I.
    + apply (bool_decide_unpack _). vm_compute. exact I.
  - lia.
  - vm_compute. reflexivity.
Defined.

(** The hypothesis on the givens is needed: this board has clashing
    givens (two 1s in row 0, two 6s in column 0, two 1s in the first
    box), and [solve(G, 1)] returns two grids for it. *)
Example solve_passes_limit :
  ∃ s, solve [[0;3;4;6;7;8;1;1;2];
              [6;7;2;1;9;5;3;4;8];
              [1;1;8;3;4;2;5;6;7];
              [8;5;9;7;6;1;4;2;3];
              [4;2;6;8;5;3;7;9;1];
              [7;1;3;9;2;4;8;5;6];
              [6;6;1;5;3;7;2;8;4];
              [2;8;7;4;1;9;6;3;5];
              [3;4;5;2;8;6;1;7;9]] (Limit 1)
       = Returned s ∧ length (solutions s) = 2%nat.
Proof. eexists. split; [vm_compute; reflexivity|reflexivity]. Qed.

(** X8: on a well-formed board whose givens do not clash, when [solve]
    returns with the count of solutions at the (positive) limit, the
    working grid is left filled in: it is equal to the last grid of the
    list and has no empty cell. *)
Theorem solve_freezes_grid (G : grid) (max : max_solutions) (s : state) :
  well_formed G → no_conflict G → positive_limit max →
  solve G max = Returned s →
  below (length (solutions s)) max = false →
  last (solutions s) = Some (sudoku s) ∧ full (sudoku s) ∧
  check_sudoku (sudoku s) = true.
Proof.
  intros [Hs Hr] Hnc Hpos H Hb.
  pose proof (conj Hs (conj Hr Hnc)) as Hv.
  destruct (solve_leaves_last_solution G max s Hv Hpos H Hb) as [Hlast Hfull].
  split_and!; [done..|].
  pose proof (solve_rec_completions _ _ _ _ Hv H) as Hall.
  rewrite Forall_forall in Hall.
  destruct (Hall (sudoku s)) as (_ & Hc & _); [|done].
  apply last_Some in Hlast as [l ->]. apply elem_of_app. right. left.
Qed.

Lemma solve_freezes_grid_witness :
  last [example_solution] = Some example_solution ∧ full example_solution ∧
  check_sudoku example_solution = true.
Proof.
  apply (solve_freezes_grid example_puzzle (Limit 1)
           (State example_solution [example_solution])).
  - apply (bool_decide_unpack _). vm_compute. exact I.
  - apply no_conflict_check.
    + apply (bool_decide_unpack _). vm_compute. exact I.
    + apply (bool_decide_unpack _). vm_compute. exact I.
  - simpl. lia.
  - vm_compute. reflexivity.
  - reflexivity.
Defined.

(** ** The order of discovery *)

Lemma filter_head_split {A} (P : A → Prop) `{!∀ x, Decision (P x)}
    (l : list A) x r :
  filter P l = x :: r →
  ∃ l1 l2, l = l1 ++ x :: l2 ∧ Forall (λ y, ¬ P y) l1.
Proof.
  induction l as [|a l IH]; [done|]. rewrite filter_cons.
  destruct (decide (P a)) as [Ha|Ha].
  - intros [= -> _]. exists [], l. by split.
  - intros (l1 & l2 & -> & Hl1)%IH. exists (a :: l1), l2.
    split; [done|]. by constructor.
Qed.

(** The cells before the first empty cell are filled. *)
Lemma where_eq_first (g : grid) y0 x0 l :
  where_eq g 0 = (y0, x0) :: l →
  ∃ l1 l2, indices g = l1 ++ (y0, x0) :: l2 ∧
    ∀ q, q ∈ l1 → ∃ w, getitem g q.1 q.2 = Some w ∧ w ≠ 0.
Proof.
  intros (l1 & l2 & Hsplit & Hl1)%filter_head_split. exists l1, l2.
  split; [done|]. intros [y x] Hq. rewrite Forall_forall in Hl1.
  specialize (Hl1 _ Hq). cbn [fst snd] in *.
  assert ((y, x) ∈ indices g) as [w Hw]%elem_of_indices.
  { rewrite Hsplit. apply elem_of_app. by left. }
  exists w. split; [done|]. congruence.
Qed.

Lemma grid_lt_irrefl ps c : ¬ grid_lt ps c c.
Proof. intros (l1 & p & l2 & v & v' & _ & _ & Hv & Hv' & Hlt). simplify_eq. lia. Qed.

Lemma StronglySorted_NoDup_irrefl {A} (R : relation A) (l : list A) :
  (∀ x, ¬ R x x) → StronglySorted R l → NoDup l.
Proof.
  intros Hirr. induction 1 as [|x l _ IH Hall]; constructor; [|done].
  intros Hin. rewrite Forall_forall in Hall. by apply (Hirr x), Hall.
Qed.

Section sorted.
Variable rec : state → outcome state.
Variable max : max_solutions.
Hypothesis rec_frame : ∀ s s', rec s = Returned s' → frame_cond max s s'.
Hypothesis rec_sorted : ∀ s s', rec s = Returned s' → sorted_cond s s'.

Variables (g : grid) (sols : list grid) (y0 x0 : nat).
Variables (l1 l2 : list (nat * nat)).
Hypothesis cell_empty : getitem g y0 x0 = Some 0.
Hypothesis cells_split : indices g = l1 ++ (y0, x0) :: l2.
Hypothesis cells_before :
  ∀ q, q ∈ l1 → ∃ w, getitem g q.1 q.2 = Some w ∧ w ≠ 0.

Lemma for_digits_sorted ns s s' new0 :
  StronglySorted Z.lt ns → Forall (λ n, n ≠ 0) ns →
  frame_cond max (State g sols) s →
  solutions s = sols ++ new0 →
  StronglySorted (grid_lt (indices g)) new0 →
  Forall (λ c, extends g c ∧
               ∃ v, getitem c y0 x0 = Some v ∧ Forall (λ n, v < n) ns) new0 →
  for_digits rec max y0 x0 ns s = Returned s' →
  ∃ new', solutions s' = sols ++ new' ∧
          StronglySorted (grid_lt (indices g)) new'.
Proof.
  intros Hns. revert s new0.
  induction Hns as [|n ns Hns IH Hn]; intros s new0 Hnz Hfr Hsols Hsorted Hold H.
  { simpl in H. injection H as <-. eauto. }
  apply Forall_cons in Hnz as [Hn0 Hnz].
  apply for_digits_cons in H as (s1 & H1 & H).
  pose proof (try_digit_frame rec max rec_frame g sols y0 x0 cell_empty
                n s s1 Hfr H1) as Hfr1.
  assert (Forall (λ c, extends g c ∧
            ∃ v, getitem c y0 x0 = Some v ∧ Forall (λ n, v < n) ns) new0)
    as Hold'.
  { eapply Forall_impl; [exact Hold|]. intros c (? & v & ? & Hv).
    split; [done|]. exists v. split; [done|]. by apply Forall_cons in Hv as [_ ?]. }
  apply try_digit_Returned in H1
    as [[_ ->]|(_ & g1 & s2 & Hset & Hrec & Hcase)].
  { by eapply IH. }
  assert (solutions s1 = solutions s2) as Hs12.
  { by destruct Hcase as [(_ & g3 & _ & ->)|(_ & ->)]. }
  destruct (rec_sorted _ _ Hrec) as (new2 & Hnew2 & Hsorted2).
  destruct (rec_frame _ _ Hrec) as ((new2' & Hnew2' & Hfull2) & _).
  simpl in Hnew2, Hsorted2, Hnew2', Hfull2.
  rewrite Hnew2 in Hnew2'. apply app_inv_head in Hnew2'. subst new2'.
  assert (extends g g1) as Hg1.
  { eapply extends_setitem; [|done..]. apply Hfr. }
  assert (indices g1 = indices g) as Hidx.
  { apply indices_same_shape. apply Hg1. }
  rewrite Hidx in Hsorted2.
  assert (getitem g1 y0 x0 = Some n) as Hcell.
  { by apply setitem_Returned in Hset as (_ & _ & ? & _). }
  assert (Forall (λ c, extends g c ∧ getitem c y0 x0 = Some n) new2) as Hnew.
  { eapply Forall_impl; [exact Hfull2|]. intros c [_ Hc].
    split; [by eapply extends_trans|]. by apply Hc. }
  eapply (IH s1 (new0 ++ new2)); [done..| | | |done].
  - by rewrite Hs12, Hnew2, Hsols, app_assoc.
  - apply StronglySorted_app_2; [|done..].
    intros c c' Hc Hc'. rewrite Forall_forall in Hold, Hnew.
    destruct (Hold c Hc) as (Hext & v & Hv & Hlt).
    destruct (Hnew c' Hc') as (Hext' & Hv').
    exists l1, (y0, x0), l2, v, n. split_and!; [done| |done|done|].
    + intros q Hq. destruct (cells_before q Hq) as (w & Hw & Hw0).
      destruct Hext as [_ Hext]. destruct Hext' as [_ Hext'].
      by rewrite (Hext _ _ _ Hw Hw0), (Hext' _ _ _ Hw Hw0).
    + by apply Forall_cons in Hlt as [? _].
  - apply Forall_app. split; [done|].
    eapply Forall_impl; [exact Hnew|]. intros c [? ?]. split; [done|].
    exists n. split; [done|]. done.
Qed.
End sorted.

Lemma range_1_10_sorted : StronglySorted Z.lt (range 1 10).
Proof.
  rewrite range_1_10.
  repeat (apply SSorted_cons; [|repeat (apply Forall_cons_2; [lia|]); apply Forall_nil_2]).
  apply SSorted_nil.
Qed.

Lemma solve_rec_sorted fuel max s s' :
  solve_rec fuel max s = Returned s' → sorted_cond s s'.
Proof.
  revert s s'. induction fuel as [|fuel IH]; intros s s' H; [done|].
  rewrite solve_rec_S in H.
  destruct (where_eq (sudoku s) 0) as [|[y0 x0] l] eqn:Hw.
  - injection H as <-. exists [sudoku s]. split; [done|].
    apply SSorted_cons; [apply SSorted_nil|apply Forall_nil_2].
  - destruct s as [g sols]. cbn [sudoku solutions] in *.
    destruct (where_eq_first g y0 x0 l Hw) as (l1 & l2 & Hsplit & Hbefore).
    apply where_eq_head in Hw. unfold sorted_cond. cbn [sudoku solutions].
    eapply (for_digits_sorted (solve_rec fuel max) max
              (solve_rec_frame fuel max) IH g sols y0 x0 l1 l2 Hw Hsplit Hbefore
              (range 1 10) (State g sols) s' []).
    + apply range_1_10_sorted.
    + apply range_1_10_nonzero.
    + apply frame_cond_refl.
    + by rewrite app_nil_r.
    + apply SSorted_nil.
    + apply Forall_nil_2.
    + done.
Qed.

(** X4: whatever the grid and the limit, [solve] returns its grids in
    strictly increasing lexicographic order of their cells read row by
    row; in particular it never returns the same grid twice. *)
Theorem solve_sorted (g : grid) (max : max_solutions) (s : state) :
  solve g max = Returned s →
  StronglySorted (grid_lt (indices g)) (solutions s) ∧ NoDup (solutions s).
Proof.
  intros H. destruct (solve_rec_sorted _ _ _ _ H) as (new & Hnew & Hsorted).
  simpl in Hnew, Hsorted. rewrite Hnew. split; [done|].
  eapply StronglySorted_NoDup_irrefl; [|done]. apply grid_lt_irrefl.
Qed.

Lemma solve_sorted_witness :
  ∃ s, solve (<[8%nat := replicate 9 0]> (<[7%nat := replicate 9 0]> example_solution))
             Unbounded = Returned s ∧
    (2 ≤ length (solutions s))%nat ∧
    StronglySorted
      (grid_lt (indices (<[8%nat := replicate 9 0]>
                           (<[7%nat := replicate 9 0]> example_solution))))
      (solutions s) ∧
    NoDup (solutions s).
Proof.
  eexists. split; [vm_compute; reflexivity|]. split; [simpl; lia|].
  apply (solve_sorted _ Unbounded). vm_compute. reflexivity.
Defined.

(** ** The limit cuts the enumeration *)

Lemma below_unbounded n : below n Unbounded = true.
Proof. done. Qed.

Lemma below_limit n m : below n (Limit m) = true ↔ Z.of_nat n < m.
Proof. simpl. apply bool_decide_eq_true. Qed.

Lemma below_limit_false n m : below n (Limit m) = false ↔ m ≤ Z.of_nat n.
Proof. simpl. rewrite bool_decide_eq_false. lia. Qed.

Section prefix.
Variables recL recU : state → outcome state.
Variable m : Z.
Hypothesis recL_frame : ∀ s s', recL s = Returned s' → frame_cond (Limit m) s s'.
Hypothesis recU_frame : ∀ s s', recU s = Returned s' → frame_cond Unbounded s s'.
Hypothesis recL_sound : ∀ s s',
  valid_partial (sudoku s) → recL s = Returned s' → sound_cond s s'.
Hypothesis recL_freeze : ∀ s s',
  valid_partial (sudoku s) → recL s = Returned s' → freeze_cond (Limit m) s s'.
Hypothesis rec_prefix : ∀ sL sU sL' sU',
  sudoku sL = sudoku sU → valid_partial (sudoku sL) →
  Z.of_nat (length (solutions sL)) < m →
  recL sL = Returned sL' → recU sU = Returned sU' →
  prefix_cond m sL sU sL' sU'.

Variables (g : grid) (solsL solsU : list grid) (y0 x0 : nat).
Hypothesis cell_empty : getitem g y0 x0 = Some 0.
Hypothesis g_valid : valid_partial g.
Hypothesis solsL_below : Z.of_nat (length solsL) < m.

Lemma for_digits_prefix ns sL sU sL' sU' accU :
  Forall (λ n, 1 ≤ n ≤ 9) ns →
  solutions sU = solsU ++ accU → sudoku sU = g →
  solutions sL = solsL ++ take (Z.to_nat m - length solsL) accU →
  ((length accU < Z.to_nat m - length solsL)%nat → sudoku sL = g) →
  ((Z.to_nat m - length solsL ≤ length accU)%nat →
   valid_partial (sudoku sL) ∧ full (sudoku sL)) →
  for_digits recL (Limit m) y0 x0 ns sL = Returned sL' →
  for_digits recU Unbounded y0 x0 ns sU = Returned sU' →
  ∃ accU', solutions sU' = solsU ++ accU' ∧
    solutions sL' = solsL ++ take (Z.to_nat m - length solsL) accU'.
Proof.
  set (k := (Z.to_nat m - length solsL)%nat).
  intros Hns. revert sL sU accU.
  induction Hns as [|n ns Hn Hns IH];
    intros sL sU accU HsU HgU HsL Hrun Hstop HL HU.
  { simpl in HL, HU. injection HL as <-. injection HU as <-. eauto. }
  apply for_digits_cons in HL as (sL1 & HL1 & HL).
  apply for_digits_cons in HU as (sU1 & HU1 & HU).
  destruct (proj1 (shape99_getitem g y0 x0 (proj1 g_valid))) as [Hy Hx]; [eauto|].
  (* the run without limit: restored grid, longer list *)
  assert (frame_cond Unbounded (State g (solutions sU)) sU) as HfrU.
  { split_and!; simpl; [|rewrite HgU; apply extends_refl|done].
    exists []. by rewrite app_nil_r. }
  pose proof (try_digit_frame recU Unbounded recU_frame g (solutions sU)
                y0 x0 cell_empty n sU sU1 HfrU HU1)
    as ((newU1 & HnewU1 & _) & _ & HresU1).
  simpl in HnewU1, HresU1. specialize (HresU1 eq_refl).
  destruct (decide (length accU < k)%nat) as [Hlt|Hge].
  - (* the limit is not reached yet: both runs work on [g] *)
    specialize (Hrun Hlt). rewrite take_ge in HsL by lia.
    apply try_digit_Returned in HL1
      as [[HpL ->]|(HpL & g1 & sL2 & HsetL & HrecL & HcaseL)];
      apply try_digit_Returned in HU1
      as [[HpU ->]|(HpU & g1' & sU2 & HsetU & HrecU & HcaseU)];
      rewrite Hrun in *; rewrite HgU in *; try congruence.
    + eapply (IH sL sU accU); try done.
      * by rewrite take_ge by lia.
      * intros ?. lia.
    + assert (g1' = g1) as -> by congruence.
      assert (valid_partial g1) as Hv1 by (by eapply valid_setitem_digit).
      destruct (rec_prefix (State g1 (solutions sL)) (State g1 (solutions sU))
                  sL2 sU2 eq_refl Hv1) as (newU & HnU & HnL); [|done..|].
      { simpl. rewrite HsL, length_app. lia. }
      simpl in HnU, HnL.
      assert (solutions sU1 = solsU ++ (accU ++ newU)) as HsU1.
      { destruct HcaseU as [(_ & g3 & _ & ->)|(HbU & _)]; [|done].
        simpl. by rewrite HnU, HsU, app_assoc. }
      assert (solutions sL2 = solsL ++ take k (accU ++ newU)) as HsL2.
      { rewrite HnL, HsL, <- app_assoc. f_equal.
        rewrite take_app, (take_ge accU) by lia. f_equal.
        replace (Z.to_nat m - length (solsL ++ accU))%nat
          with (k - length accU)%nat; [done|].
        rewrite length_app. unfold k. lia. }
      destruct HcaseL as [(HbL & g3 & HsetL3 & ->)|(HbL & ->)].
      * apply below_limit in HbL.
        rewrite HsL2, length_app, length_take in HbL.
        assert (g3 = g) as ->.
        { eapply (setitem_undo g g1 (sudoku sL2)); [done..| |done].
          apply (recL_frame _ _ HrecL). apply below_limit.
          rewrite HsL2, length_app, length_take. lia. }
        eapply (IH (State g (solutions sL2)) sU1 (accU ++ newU)); try done.
        intros ?. unfold k in *. lia.
      * apply below_limit_false in HbL.
        rewrite HsL2, length_app, length_take in HbL.
        assert (valid_partial (sudoku sL2) ∧ full (sudoku sL2)) as Hfrozen.
        { split; [by apply (recL_sound (State g1 (solutions sL)) sL2 Hv1 HrecL)|].
          destruct (recL_freeze (State g1 (solutions sL)) sL2 Hv1 HrecL)
            as (new & Hnew & _).
          { apply below_limit. simpl. rewrite HsL, length_app. lia. }
          { apply below_limit_false. rewrite HsL2, length_app, length_take. lia. }
          destruct (recL_frame _ _ HrecL) as ((new' & Hnew' & Hfull) & _).
          simpl in Hnew, Hnew'. rewrite Hnew in Hnew'.
          apply app_inv_head in Hnew'. subst new'.
          by apply Forall_app in Hfull as [_ [[? _] _]%Forall_cons]. }
        eapply (IH sL2 sU1 (accU ++ newU)); try done.
        intros ?. unfold k in *. lia.
  - (* the limit is reached: the limited run does nothing more *)
    destruct Hstop as [HvL HfL]; [lia|].
    assert (sL1 = sL) as ->.
    { unfold try_digit in HL1. rewrite possible_full in HL1 by done.
      by injection HL1. }
    eapply (IH sL sU1 (accU ++ newU1)); try done.
    + by rewrite HnewU1, HsU, app_assoc.
    + by rewrite take_app_le by lia.
    + intros ?. rewrite length_app in *. lia.
Qed.
End prefix.

Lemma solve_rec_prefix fuel m sL sU sL' sU' :
  sudoku sL = sudoku sU → valid_partial (sudoku sL) →
  Z.of_nat (length (solutions sL)) < m →
  solve_rec fuel (Limit m) sL = Returned sL' →
  solve_rec fuel Unbounded sU = Returned sU' →
  prefix_cond m sL sU sL' sU'.
Proof.
  revert sL sU sL' sU'.
  induction fuel as [|fuel IH]; intros sL sU sL' sU' Hg Hv Hb HL HU; [done|].
  rewrite solve_rec_S in HL, HU. rewrite <- Hg in HU.
  destruct (where_eq (sudoku sL) 0) as [|[y0 x0] l] eqn:Hw.
  - injection HL as <-. injection HU as <-. exists [sudoku sL].
    unfold copy. simpl. split; [done|]. f_equal.
    rewrite take_ge; [done|simpl; lia].
  - apply where_eq_head in Hw.
    destruct (for_digits_prefix (solve_rec fuel (Limit m))
                (solve_rec fuel Unbounded) m
                (solve_rec_frame fuel (Limit m)) (solve_rec_frame fuel Unbounded)
                (solve_rec_sound fuel (Limit m)) (solve_rec_freeze fuel (Limit m))
                IH (sudoku sL) (solutions sL) (solutions sU) y0 x0 Hw Hv Hb
                (range 1 10) sL sU sL' sU' [])
      as (accU & HaU & HaL); try done.
    + apply range_1_10_digits.
    + by rewrite app_nil_r.
    + by rewrite take_nil, app_nil_r.
    + intros ?. simpl in *. lia.
    + by exists accU.
Qed.

(** X6: on a well-formed board whose givens do not clash, [solve] with
    a positive integer limit [m] returns the first [m] grids of the list
    that [solve] with ['max'] returns. *)
Theorem solve_limit_prefix (G : grid) (m : Z) (sL sU : state) :
  well_formed G → no_conflict G → 1 ≤ m →
  solve G (Limit m) = Returned sL → solve G Unbounded = Returned sU →
  solutions sL = take (Z.to_nat m) (solutions sU).
Proof.
  intros [Hs Hr] Hnc Hm HL HU.
  destruct (solve_rec_prefix (S (zeros G)) m (State G []) (State G []) sL sU eq_refl
              (conj Hs (conj Hr Hnc))) as (newU & HnU & HnL); simpl; try done; [lia|].
  simpl in HnU, HnL. rewrite HnL, HnU. f_equal. lia.
Qed.

Lemma solve_limit_prefix_witness :
  [example_solution] = take (Z.to_nat 1) [example_solution].
Proof.
  apply (solve_limit_prefix example_puzzle 1
           (State example_solution [example_solution])
           (State example_puzzle [example_solution])).
  - apply (bool_decide_unpack _). vm_compute. exact I.
  - apply no_conflict_check.
    + apply (bool_decide_unpack _). vm_compute. exact I.
    + apply (bool_decide_unpack _). vm_compute. exact I.
  - lia.
  - vm_compute. reflexivity.
  - vm_compute. reflexivity.
Defined.

(** ** All solutions, and the test for a unique solution *)

(** X7: on a well-formed board whose givens do not clash, [solve] with
    ['max'] returns, leaving the board as it was, and the list it
    returns holds every valid completion of the board exactly once and
    nothing else. *)
Theorem solve_enumerates (G : grid) :
  well_formed G → no_conflict G →
  ∃ s, solve G Unbounded = Returned s ∧ sudoku s = G ∧
       NoDup (solutions s) ∧ ∀ c, c ∈ solutions s ↔ completion G c.
Proof.
  intros [Hs Hr] Hnc. destruct (solve_returns G Unbounded Hs) as [s H].
  exists s. split_and!; [done| | |].
  - apply (solve_rec_frame _ _ _ _ H). done.
  - destruct (solve_rec_sorted _ _ _ _ H) as (new & -> & Hsorted).
    eapply StronglySorted_NoDup_irrefl; [apply grid_lt_irrefl|done].
  - intros c. split.
    + intros Hc.
      pose proof (solve_rec_completions _ _ _ _ (conj Hs (conj Hr Hnc)) H) as Hall.
      rewrite Forall_forall in Hall. by apply Hall.
    + intros Hc. by apply (solve_rec_complete _ _ (State G []) s c Hs H).
Qed.

Lemma solve_enumerates_witness :
  ∃ s, solve example_puzzle Unbounded = Returned s ∧ sudoku s = example_puzzle ∧
       NoDup (solutions s) ∧ ∀ c, c ∈ solutions s ↔ completion example_puzzle c.
Proof.
  apply (solve_enumerates example_puzzle).
  - apply (bool_decide_unpack _). vm_compute. exact I.
  - apply no_conflict_check.
    + apply (bool_decide_unpack _). vm_compute. exact I.
    + apply (bool_decide_unpack _). vm_compute. exact I.
Defined.

(** X9: on a well-formed board whose givens do not clash, [solve(G, 2)]
    returns exactly one grid if and only if the board has exactly one
    valid completion. *)
Theorem solve_two_unique (G : grid) (s : state) :
  well_formed G → no_conflict G → solve G (Limit 2) = Returned s →
  length (solutions s) = 1%nat ↔
  ∃ c, completion G c ∧ ∀ c', completion G c' → c' = c.
Proof.
  intros [Hs Hr] Hnc H.
  pose proof (solve_rec_completions _ _ _ _ (conj Hs (conj Hr Hnc)) H) as Hall.
  destruct (solve_rec_sorted _ _ _ _ H) as (new & Hnew & Hsorted).
  simpl in Hnew, Hsorted.
  assert (NoDup (solutions s)) as Hnd.
  { rewrite Hnew. eapply StronglySorted_NoDup_irrefl; [apply grid_lt_irrefl|done]. }
  split.
  - intros Hlen. destruct (solutions s) as [|c [|? ?]] eqn:Hsols; try done.
    exists c. rewrite Forall_singleton in Hall. split; [done|]. intros c' Hc'.
    assert (c' ∈ solutions s) as Hin.
    { apply (solve_rec_complete _ _ (State G []) s c' Hs H); [|done].
      by rewrite Hsols. }
    rewrite Hsols in Hin. by apply list_elem_of_singleton in Hin.
  - intros (c & Hc & Huniq).
    destruct (solutions s) as [|c1 [|c2 l]] eqn:Hsols; [|done|].
    + assert (c ∈ solutions s) as Hin.
      { apply (solve_rec_complete _ _ (State G []) s c Hs H); [|done].
        by rewrite Hsols. }
      rewrite Hsols in Hin. by apply elem_of_nil in Hin.
    + apply Forall_cons in Hall as [H1 [H2 _]%Forall_cons].
      apply NoDup_cons in Hnd as [Hnotin _]. destruct Hnotin.
      rewrite (Huniq c1 H1), (Huniq c2 H2). left.
Qed.

Lemma solve_two_unique_witness :
  length [example_solution] = 1%nat ↔
  ∃ c, completion example_puzzle c ∧
       ∀ c', completion example_puzzle c' → c' = c.
Proof.
  apply (solve_two_unique example_puzzle
           (State example_puzzle [example_solution])).
  - apply (bool_decide_unpack _). vm_compute. exact I.
  - apply no_conflict_check.
    + apply (bool_decide_unpack _). vm_compute. exact I.
    + apply (bool_decide_unpack _). vm_compute. exact I.
  - vm_compute. reflexivity.
Defined.

(** ** Loading *)

(** X10: for an array of at most two axes, as [np.genfromtxt] builds
    them, [load_sudoku] returns the array when its shape is exactly
    (9, 9) and every cell lies in 0..9, and raises ValueError otherwise. *)
Theorem load_sudoku_spec (a : ndarray) :
  (length (shape a) ≤ 2)%nat →
  (load_sudoku a = Returned a ∧
   shape a = [9; 9]%nat ∧ Forall (λ c, 0 ≤ c ≤ 9) (data a)) ∨
  (load_sudoku a = Raised ValueError ∧
   ¬ (shape a = [9; 9]%nat ∧ Forall (λ c, 0 ≤ c ≤ 9) (data a))).
Proof.
  intros Hrank. unfold load_sudoku.
  assert (filter (λ value, value ≠ 1%nat) (shape a) = [9; 9]%nat
          ↔ shape a = [9; 9]%nat) as Hshape.
  { destruct (shape a) as [|d0 [|d1 [|d2 l]]]; simpl in Hrank; [..|lia].
    - done.
    - rewrite filter_cons, filter_nil. by destruct (decide (d0 ≠ 1%nat)).
    - rewrite !filter_cons, filter_nil.
      destruct (decide (d0 ≠ 1%nat)), (decide (d1 ≠ 1%nat)); naive_solver. }
  destruct (valid_sudoku a) eqn:Hv.
  - left. apply valid_sudoku_iff in Hv as [Hf Hd]. by rewrite <- Hshape.
  - right. split; [done|]. intros [Hs Hd].
    assert (valid_sudoku a = true); [|congruence].
    apply valid_sudoku_iff. by rewrite Hshape.
Qed.

Lemma load_sudoku_spec_witness :
  (load_sudoku (as_ndarray example_puzzle) = Returned (as_ndarray example_puzzle) ∧
   shape (as_ndarray example_puzzle) = [9; 9]%nat ∧
   Forall (λ c, 0 ≤ c ≤ 9) (data (as_ndarray example_puzzle))) ∨
  (load_sudoku (as_ndarray example_puzzle) = Raised ValueError ∧
   ¬ (shape (as_ndarray example_puzzle) = [9; 9]%nat ∧
      Forall (λ c, 0 ≤ c ≤ 9) (data (as_ndarray example_puzzle)))).
Proof. apply (load_sudoku_spec (as_ndarray example_puzzle)). simpl. lia. Defined.

(** ** The checks against each other *)

(** X11: [check_sudoku] notices every single change: if one cell of a
    9x9 grid that passes the check is overwritten with a different
    value, the check fails. *)
Theorem check_detects_change (C C' : grid) (y x : nat) (v : Z) :
  shape99 C → check_sudoku C = true →
  setitem C y x v = Returned C' → getitem C y x ≠ Some v →
  check_sudoku C' = false.
Proof.
  intros Hs Hc (Hsome & Hsh & Hcell & Ho)%setitem_Returned Hne.
  apply not_true_is_false. intros Hc'.
  assert (shape99 C') as Hs' by (by eapply shape99_same_shape).
  destruct Hsome as [w Hw].
  destruct (proj1 (shape99_getitem C y x Hs)) as [Hy Hx]; [eauto|].
  pose proof (complete_range C y x w Hs Hc Hw) as Hrange.
  rewrite check_sudoku_perm in Hc' by done.
  assert (row_cells y ∈ regions) as Hps.
  { apply elem_of_regions. left. eauto. }
  specialize (Hc' _ Hps).
  assert (w ∈ cells C' (row_cells y)) as [i Hi]%list_elem_of_lookup.
  { rewrite Hc'. by apply elem_of_list_numbers. }
  assert (is_Some (row_cells y !! i)) as [p Hp].
  { apply lookup_lt_is_Some. rewrite <- (cells_length C').
    by eapply lookup_lt_Some. }
  destruct (cells_lookup C' _ i p Hs' Hps Hp) as [Hci _].
  unfold row_cells in Hp. rewrite list_lookup_fmap in Hp.
  destruct (seq 0 9 !! i) as [x'|]; [|done]. injection Hp as <-.
  cbn [fst snd] in Hci. rewrite Hi in Hci. symmetry in Hci.
  destruct (decide (x' = x)) as [->|Hx'].
  - rewrite Hcell in Hci. congruence.
  - rewrite Ho in Hci by congruence.
    apply (complete_distinct C (y, x) (y, x') w Hs Hc); cbn [fst snd];
      [congruence|by left|done..].
Qed.

Lemma check_detects_change_witness :
  check_sudoku (<[0%nat := [4; 3; 4; 6; 7; 8; 9; 1; 2]]> example_solution) = false.
Proof.
  apply (check_detects_change example_solution _ 0 0 4).
  - apply (bool_decide_unpack _). vm_compute. exact I.
  - vm_compute. reflexivity.
  - vm_compute. reflexivity.
  - vm_compute. discriminate.
Defined.

(** X12: on a 9x9 board of digits without clashes, for an empty cell and
    a digit [n] in 1..9, [possible] accepts [n] exactly when writing [n]
    into the cell leaves the board without clashes. *)
Theorem possible_iff_no_conflict (g g' : grid) (y x : nat) (n : Z) :
  valid_partial g → getitem g y x = Some 0 → 1 ≤ n ≤ 9 →
  setitem g y x n = Returned g' →
  possible g y x n = Returned true ↔ no_conflict g'.
Proof.
  intros Hv H0 Hn Hset. split.
  - intros Hp. by destruct (valid_setitem_digit g g' y x n Hv Hp Hn Hset) as (_ & _ & ?).
  - intros Hnc. destruct Hv as (Hs & _ & _).
    destruct (proj1 (shape99_getitem g y x Hs)) as [Hy Hx]; [eauto|].
    destruct (possible_cases g y x n Hs Hy Hx) as [[_ Hocc]|[? _]]; [|done].
    exfalso. apply occurs_related in Hocc as ([qy qx] & Hrel & Hq).
    cbn [fst snd] in Hq.
    apply setitem_Returned in Hset as (_ & _ & Hcell & Ho).
    assert ((qy, qx) ≠ (y, x)) as Hne.
    { intros [= -> ->]. rewrite H0 in Hq. injection Hq as <-. lia. }
    assert (n = 0); [|lia].
    apply (Hnc (y, x) (qy, qx) n); cbn [fst snd]; [congruence|done|done|].
    by rewrite Ho.
Qed.

Lemma possible_iff_no_conflict_witness :
  possible one_missing 0 0 5 = Returned true ↔ no_conflict example_solution.
Proof.
  apply (possible_iff_no_conflict one_missing example_solution 0 0 5).
  - split_and!.
    + apply (bool_decide_unpack _). vm_compute. exact I.
    + apply (bool_decide_unpack _). vm_compute. exact I.
    + apply no_conflict_check.
      * apply (bool_decide_unpack _). vm_compute. exact I.
      * apply (bool_decide_unpack _). vm_compute. exact I.
  - reflexivity.
  - lia.
  - vm_compute. reflexivity.
Defined.

(** ** Generated puzzles can be solved *)

Lemma flat_index (y x : nat) :
  (x < 9)%nat → ((9 * y + x) / 9 = y ∧ (9 * y + x) mod 9 = x)%nat.
Proof.
  intros Hx.
  pose proof (Nat.div_mod_eq (9 * y + x) 9).
  pose proof (Nat.mod_upper_bound (9 * y + x) 9). lia.
Qed.

(** A full solution with some cells cleared: a puzzle whose givens do not
    clash and that the solution completes. *)
Lemma cleared_solution (c g : grid) (idx : list nat) :
  shape99 c → check_sudoku c = true → shape99 g →
  (∀ i, (i < 81)%nat →
     getitem g (i / 9) (i mod 9) =
     if decide (i ∈ idx) then Some 0 else getitem c (i / 9) (i mod 9)) →
  well_formed g ∧ no_conflict g ∧ completion g c.
Proof.
  intros Hsc Hc Hsg Hget.
  assert (∀ y x v, getitem g y x = Some v → v ≠ 0 → getitem c y x = Some v)
    as Hkeep.
  { intros y x v Hv Hv0.
    destruct (proj1 (shape99_getitem g y x Hsg)) as [Hy Hx]; [eauto|].
    destruct (flat_index y x Hx) as [Hd Hm].
    specialize (Hget (9 * y + x)%nat). rewrite Hd, Hm in Hget.
    rewrite Hget in Hv by lia. destruct (decide _); [congruence|done]. }
  assert (completion g c) as Hcomp by done.
  split_and!; [split; [done|]| |done].
  - apply in_range_getitem. intros y x v Hv.
    destruct (decide (v = 0)) as [->|Hv0]; [lia|].
    pose proof (complete_range c y x v Hsc Hc (Hkeep _ _ _ Hv Hv0)). lia.
  - intros p q v Hne Hrel Hp Hq.
    destruct (decide (v = 0)) as [|Hv0]; [done|exfalso].
    apply (complete_distinct c p q v); auto.
Qed.

Lemma generate_sudoku_cut (shuffled : list Z) (choice : nat → list nat)
    (numbersin : nat) :
  shuffled ≡ₚ list_numbers → draws_without_replacement choice →
  (numbersin ≤ 81)%nat →
  ∃ c g,
    (s ← solve (np_diag shuffled) (Limit 1);
     match solutions s with
     | [] => Raised IndexError
     | sudoku :: _ => ravel_setitem sudoku (choice (9 * 9 - numbersin)%nat) 0
     end) = Returned g ∧
    well_formed g ∧ no_conflict g ∧ completion g c.
Proof.
  intros Hperm Hdraw Hle.
  destruct (np_diag_completion shuffled Hperm) as [Hwf Hc].
  pose proof (completion_valid_partial _ _ Hwf Hc) as Hv.
  destruct (solve_limit_one (np_diag shuffled) Hv (ex_intro _ _ Hc))
    as (s & Hsolve & Hsols & Hcc).
  rewrite Hsolve. cbn [mbind outcome_bind]. rewrite Hsols.
  destruct (Hdraw (9 * 9 - numbersin)%nat) as (Hlen & Hnd & Hlt); [lia|].
  destruct Hcc as (Hsc & Hchk & _).
  destruct (ravel_setitem_spec (sudoku s) _ Hsc Hlt) as (g & -> & Hsg & Hget).
  exists (sudoku s), g. split; [done|].
  by eapply cleared_solution.
Qed.

(** X13: every puzzle that [generate_sudoku] returns is well-formed, has
    no clashing givens and has a valid completion; so [solve] with the
    limit 1 returns exactly one grid for it, and that grid passes
    [check_sudoku]. *)
Theorem generate_sudoku_solvable (difficulty : string) (shuffled : list Z)
    (choice : nat → list nat) :
  shuffled ≡ₚ list_numbers → draws_without_replacement choice →
  difficulty ∈ ["easy"; "medium"; "hard"] →
  ∃ g, generate_sudoku difficulty shuffled choice = Returned g ∧
    well_formed g ∧ no_conflict g ∧ (∃ c, completion g c) ∧
    ∃ s c, solve g (Limit 1) = Returned s ∧ solutions s = [c] ∧
           check_sudoku c = true ∧ completion g c.
Proof.
  intros Hperm Hdraw Hin.
  assert (∃ c g, generate_sudoku difficulty shuffled choice = Returned g ∧
            well_formed g ∧ no_conflict g ∧ completion g c)
    as (c & g & Hgen & Hwf & Hnc & Hc).
  { unfold generate_sudoku.
    rewrite !elem_of_cons, elem_of_nil in Hin.
    destruct Hin as [->|[->|[->|[]]]].
    - rewrite decide_True by done.
      apply (generate_sudoku_cut shuffled choice 30 Hperm Hdraw). lia.
    - rewrite decide_False, decide_True by done.
      apply (generate_sudoku_cut shuffled choice 24 Hperm Hdraw). lia.
    - rewrite decide_False, decide_False, decide_True by done.
      apply (generate_sudoku_cut shuffled choice 17 Hperm Hdraw). lia. }
  exists g. split_and!; [done..|eauto|].
  destruct (solve_limit_one g (conj (proj1 Hwf) (conj (proj2 Hwf) Hnc))
              (ex_intro _ c Hc)) as (s & Hs & Hsols & Hcs).
  exists s, (sudoku s). split_and!; [done..| |done].
  by destruct Hcs as (_ & ? & _).
Qed.

Lemma generate_sudoku_solvable_witness :
  ∃ g, generate_sudoku "hard" list_numbers (seq 0) = Returned g ∧
    well_formed g ∧ no_conflict g ∧ (∃ c, completion g c) ∧
    ∃ s c, solve g (Limit 1) = Returned s ∧ solutions s = [c] ∧
           check_sudoku c = true ∧ completion g c.
Proof.
  apply (generate_sudoku_solvable "hard" list_numbers (seq 0)).
  - reflexivity.
  - intros k Hk. split_and!.
    + apply length_seq.
    + apply NoDup_seq.
    + apply Forall_forall. intros i Hi%elem_of_seq. lia.
  - apply (bool_decide_unpack _). vm_compute. exact I.
Defined.

(** ** pretty_print *)

Lemma mapM_fmap_Returned {A B C} (F : B → outcome C) (h : A → B) (k : A → C)
    (l : list A) :
  (∀ a, a ∈ l → F (h a) = Returned (k a)) →
  mapM F (h <$> l) = Returned (k <$> l).
Proof.
  induction l as [|a l IH]; intros H; [done|].
  change (mapM F (h <$> a :: l))
    with (y ← F (h a); k ← mapM F (h <$> l); mret (y :: k)).
  rewrite (H a) by left. cbn [mbind outcome_bind].
  rewrite IH by (intros b Hb; apply H; by right). done.
Qed.

Lemma str_index_symbol n : 0 ≤ n ≤ 9 → str_index symbol n = Returned [glyph n].
Proof.
  intros Hn.
  assert (n = 0 ∨ n = 1 ∨ n = 2 ∨ n = 3 ∨ n = 4 ∨ n = 5 ∨ n = 6 ∨ n = 7 ∨
          n = 8 ∨ n = 9) as Hcases by lia.
  repeat (destruct Hcases as [->|Hcases]; [reflexivity|]). by subst.
Qed.

Lemma glyph_inj n n' : 0 ≤ n ≤ 9 → 0 ≤ n' ≤ 9 → glyph n = glyph n' → n = n'.
Proof.
  intros Hn Hn'.
  assert (n = 0 ∨ n = 1 ∨ n = 2 ∨ n = 3 ∨ n = 4 ∨ n = 5 ∨ n = 6 ∨ n = 7 ∨
          n = 8 ∨ n = 9) as Hc by lia.
  assert (n' = 0 ∨ n' = 1 ∨ n' = 2 ∨ n' = 3 ∨ n' = 4 ∨ n' = 5 ∨ n' = 6 ∨
          n' = 7 ∨ n' = 8 ∨ n' = 9) as Hc' by lia.
  repeat (destruct Hc as [->|Hc]);
    repeat (destruct Hc' as [->|Hc']); subst; (done || by vm_compute).
Qed.

(** The table of characters of a well-formed board. *)
Lemma nums_well_formed (g : grid) :
  well_formed g →
  mapM (λ row : list Z,
          glyphs ← mapM (str_index symbol) row; mret ([] :: glyphs)) g
  = Returned (nums_tab (λ y x, glyph (default 0 (getitem g y x)))).
Proof.
  intros [Hs Hr]. rewrite in_range_getitem in Hr.
  rewrite (shape99_tabulate g Hs) at 1. unfold tabulate, nums_tab.
  apply mapM_fmap_Returned. intros y Hy%elem_of_seq.
  rewrite (mapM_fmap_Returned _ _
             (λ x, [glyph (default 0 (getitem g y x))])); [done|].
  intros x Hx%elem_of_seq. apply str_index_symbol.
  destruct (proj2 (shape99_getitem g y x Hs)) as [v Hv]; [lia|].
  rewrite Hv. simpl. eauto.
Qed.

(** What is printed once the table of characters is there. *)
Lemma pretty_print_table (sudoku : grid) ch :
  mapM (λ row : list Z,
          glyphs ← mapM (str_index symbol) row; mret ([] :: glyphs)) sudoku
    = Returned (nums_tab ch) →
  ∃ out, pretty_print sudoku [] = (out, Returned tt) ∧ length out = 19%nat ∧
    Forall (λ l, length l = 37%nat) out ∧
    (∀ y x, (y < 9)%nat → (x < 9)%nat →
       char_at out (2 * y + 1) (4 * x + 2) = Some (ch y x)) ∧
    frame_of out = frame_of (pretty_print (replicate 9 (replicate 9 0)) []).1.
Proof.
  intros H. unfold pretty_print.
  repeat match goal with
  | |- context [expandLine ?b ?l] =>
      let r := eval vm_compute in (expandLine b l) in
      change (expandLine b l) with r
  end.
  unfold lift at 1 2 3 4 5. cbn [mbind io_bind].
  unfold lift at 1. rewrite H. cbn [mbind io_bind].
  eexists. split; [vm_compute; reflexivity|].
  split; [reflexivity|]. split.
  { repeat (apply Forall_cons_2; [reflexivity|]). apply Forall_nil_2. }
  split.
  - intros y x Hy Hx.
    do 9 (destruct y as [|y]; [do 9 (destruct x as [|x]; [reflexivity|]); lia|]).
    lia.
  - vm_compute. reflexivity.
Qed.

(** A well-formed board is printed, and each cell can be read off. *)
Lemma pretty_print_cells (g : grid) :
  well_formed g →
  ∃ out, pretty_print g [] = (out, Returned tt) ∧
    ∀ y x n, getitem g y x = Some n →
      char_at out (2 * y + 1) (4 * x + 2) = Some (glyph n).
Proof.
  intros Hwf.
  destruct (pretty_print_table g _ (nums_well_formed g Hwf))
    as (out & Hout & _ & _ & Hcells & _).
  exists out. split; [done|]. intros y x n Hn.
  destruct (proj1 (shape99_getitem g y x (proj1 Hwf))) as [Hy Hx]; [eauto|].
  rewrite (Hcells y x Hy Hx), Hn. done.
Qed.

(** X14: for a well-formed 9x9 board [pretty_print] raises nothing and
    prints 19 lines of 37 characters; the character in column [4x+2] of
    line [2y+1] shows the cell [(y, x)], a blank for 0 and the digit
    otherwise; every other character is the same as for the empty
    board. *)
Theorem pretty_print_board (g : grid) :
  well_formed g →
  ∃ out, pretty_print g [] = (out, Returned tt) ∧ length out = 19%nat ∧
    Forall (λ l, length l = 37%nat) out ∧
    (∀ y x n, getitem g y x = Some n →
       char_at out (2 * y + 1) (4 * x + 2) = Some (glyph n)) ∧
    frame_of out = frame_of (pretty_print (replicate 9 (replicate 9 0)) []).1.
Proof.
  intros Hwf.
  destruct (pretty_print_table g _ (nums_well_formed g Hwf))
    as (out & Hout & Hlen & Hlines & Hcells & Hframe).
  exists out. split_and!; [done..| |done].
  intros y x n Hn.
  destruct (proj1 (shape99_getitem g y x (proj1 Hwf))) as [Hy Hx]; [eauto|].
  rewrite (Hcells y x Hy Hx), Hn. done.
Qed.

Lemma pretty_print_board_witness :
  ∃ out, pretty_print example_puzzle [] = (out, Returned tt) ∧
    length out = 19%nat ∧ Forall (λ l, length l = 37%nat) out ∧
    (∀ y x n, getitem example_puzzle y x = Some n →
       char_at out (2 * y + 1) (4 * x + 2) = Some (glyph n)) ∧
    frame_of out = frame_of (pretty_print (replicate 9 (replicate 9 0)) []).1.
Proof.
  apply (pretty_print_board example_puzzle).
  apply (bool_decide_unpack _). vm_compute. exact I.
Defined.

(** X15: the printed text determines the board: two well-formed boards
    that [pretty_print] prints alike are equal. *)
Theorem pretty_print_lossless (g g' : grid) :
  well_formed g → well_formed g' →
  pretty_print g [] = pretty_print g' [] → g' = g.
Proof.
  intros Hwf Hwf' Heq.
  destruct (pretty_print_cells g Hwf) as (out & Hout & Hcells).
  destruct (pretty_print_cells g' Hwf') as (out' & Hout' & Hcells').
  assert (out' = out) as -> by congruence.
  destruct Hwf as [Hs Hr], Hwf' as [Hs' Hr'].
  rewrite in_range_getitem in Hr, Hr'.
  apply grid_eq.
  - apply shape99_row_lengths in Hs, Hs'. congruence.
  - intros y x. destruct (getitem g y x) as [n|] eqn:Hn.
    + destruct (proj2 (shape99_getitem g' y x Hs')) as [n' Hn'].
      { apply (shape99_getitem g); [done|eauto]. }
      rewrite Hn'. f_equal. apply glyph_inj; [eauto..|].
      pose proof (Hcells _ _ _ Hn). pose proof (Hcells' _ _ _ Hn'). congruence.
    + apply eq_None_not_Some. rewrite shape99_getitem by done.
      rewrite <- (shape99_getitem g) by done. rewrite Hn. by intros [? ?].
Qed.

Lemma pretty_print_lossless_witness : example_puzzle = example_puzzle.
Proof.
  apply (pretty_print_lossless example_puzzle example_puzzle).
  - apply (bool_decide_unpack _). vm_compute. exact I.
  - apply (bool_decide_unpack _). vm_compute. exact I.
  - reflexivity.
Defined.

(** The edges of [pretty_print] *)

Lemma mapM_cons_outcome {A B} (F : A → outcome B) a l :
  mapM F (a :: l) = (y ← F a; k ← mapM F l; mret (y :: k)).
Proof. reflexivity. Qed.

Lemma str_index_symbol_cases n :
  (-37 ≤ n ≤ 36 ∧ ∃ c, str_index symbol n = Returned [c]) ∨
  ((n < -37 ∨ 36 < n) ∧ str_index symbol n = Raised IndexError).
Proof.
  unfold str_index, py_index.
  change (Z.of_nat (length symbol)) with 37.
  destruct (decide (n < 0)).
  - destruct (decide (0 ≤ 37 + n < 37)); [|right; split; [lia|done]].
    left. split; [lia|].
    destruct (lookup_lt_is_Some_2 symbol (Z.to_nat (37 + n))) as [c ->];
      [simpl; lia|]. eauto.
  - destruct (decide (0 ≤ n < 37)); [|right; split; [lia|done]].
    left. split; [lia|].
    destruct (lookup_lt_is_Some_2 symbol (Z.to_nat n)) as [c ->];
      [simpl; lia|]. eauto.
Qed.

(** The characters of a row: all of them, or IndexError. *)
Lemma row_glyphs_cases (row : list Z) :
  (Forall (λ n, -37 ≤ n ≤ 36) row ∧
   ∃ glyphs, mapM (str_index symbol) row = Returned glyphs) ∨
  (Exists (λ n, n < -37 ∨ 36 < n) row ∧
   mapM (str_index symbol) row = Raised IndexError).
Proof.
  induction row as [|n row IH].
  - left. split; [constructor|]. by exists [].
  - rewrite mapM_cons_outcome.
    destruct (str_index_symbol_cases n) as [[Hn [c ->]]|[Hn ->]];
      cbn [mbind outcome_bind].
    + destruct IH as [[Hrow [gs ->]]|[Hrow ->]]; cbn [mbind outcome_bind].
      * left. split; [by constructor|]. eauto.
      * right. split; [by apply Exists_cons_tl|done].
    + right. split; [by apply Exists_cons_hd|done].
Qed.

Lemma nums_cases (g : grid) :
  (Forall (Forall (λ n, -37 ≤ n ≤ 36)) g ∧
   ∃ nums, length nums = length g ∧
     mapM (λ row : list Z,
             glyphs ← mapM (str_index symbol) row; mret ([] :: glyphs)) g
     = Returned nums) ∨
  (Exists (Exists (λ n, n < -37 ∨ 36 < n)) g ∧
   mapM (λ row : list Z,
           glyphs ← mapM (str_index symbol) row; mret ([] :: glyphs)) g
   = Raised IndexError).
Proof.
  induction g as [|row g IH].
  - left. split; [constructor|]. by exists [].
  - rewrite mapM_cons_outcome.
    destruct (row_glyphs_cases row) as [[Hrow [gs ->]]|[Hrow ->]];
      cbn [mbind outcome_bind mret outcome_ret].
    + destruct IH as [[Hg (nums & Hlen & ->)]|[Hg ->]]; cbn [mbind outcome_bind].
      * left. split; [by constructor|]. eexists. split; [|done]. simpl. by rewrite Hlen.
      * right. split; [by apply Exists_cons_tl|done].
    + right. split; [by apply Exists_cons_hd|done].
Qed.

Lemma Forall_not_Exists_range (g : grid) :
  Forall (Forall (λ n, -37 ≤ n ≤ 36)) g →
  ¬ Exists (Exists (λ n, n < -37 ∨ 36 < n)) g.
Proof.
  intros Hall Hex. apply Exists_exists in Hex as (row & Hrow & Hex).
  apply Exists_exists in Hex as (n & Hn & Hbad).
  rewrite Forall_forall in Hall. specialize (Hall row Hrow).
  rewrite Forall_forall in Hall. specialize (Hall n Hn). lia.
Qed.

(** X16: if some cell of the grid is above 36 or below -37, there is no
    character for it in the table of symbols: [pretty_print] raises
    IndexError before it prints anything. *)
Theorem pretty_print_bad_cell (g : grid) (out0 : stdout) :
  Exists (Exists (λ n, n < -37 ∨ 36 < n)) g →
  pretty_print g out0 = (out0, Raised IndexError).
Proof.
  intros Hex. unfold pretty_print.
  repeat match goal with
  | |- context [expandLine ?b ?l] =>
      let r := eval vm_compute in (expandLine b l) in
      change (expandLine b l) with r
  end.
  unfold lift at 1 2 3 4 5. cbn [mbind io_bind]. unfold lift at 1.
  destruct (nums_cases g) as [[Hall _]|[_ ->]]; [|done].
  by destruct (Forall_not_Exists_range g).
Qed.

Lemma pretty_print_bad_cell_witness :
  pretty_print [[1; 2; 37]; [4; 5; 6]] [] = ([], Raised IndexError).
Proof.
  apply (pretty_print_bad_cell [[1; 2; 37]; [4; 5; 6]] []).
  apply Exists_cons_hd. apply Exists_cons_tl, Exists_cons_tl, Exists_cons_hd. lia.
Defined.

(** X17: if the grid has fewer than 9 rows (and a character for every
    cell), [pretty_print] prints the top border and two lines per row,
    and then raises IndexError. *)
Theorem pretty_print_short (g : grid) :
  Forall (Forall (λ n, -37 ≤ n ≤ 36)) g → (length g < 9)%nat →
  ∃ out, pretty_print g [] = (out, Raised IndexError) ∧
         length out = (1 + 2 * length g)%nat.
Proof.
  intros Hall Hlen. unfold pretty_print.
  repeat match goal with
  | |- context [expandLine ?b ?l] =>
      let r := eval vm_compute in (expandLine b l) in
      change (expandLine b l) with r
  end.
  unfold lift at 1 2 3 4 5. cbn [mbind io_bind]. unfold lift at 1.
  destruct (nums_cases g) as [[_ (nums & Hn & ->)]|[Hex _]];
    [|by destruct (Forall_not_Exists_range g)].
  cbn [mbind io_bind]. rewrite <- Hn in *. clear Hn Hall g.
  do 9 (destruct nums as [|? nums];
        [eexists; split; [vm_compute; reflexivity|reflexivity]|]).
  simpl in Hlen. lia.
Qed.

Lemma pretty_print_short_witness :
  ∃ out, pretty_print [[1; 2; 3]; [4; 5; 6]] [] = (out, Raised IndexError) ∧
         length out = (1 + 2 * 2)%nat.
Proof.
  apply (pretty_print_short [[1; 2; 3]; [4; 5; 6]]).
  - repeat (apply Forall_cons_2; [repeat (apply Forall_cons_2; [lia|]); apply Forall_nil_2|]).
    apply Forall_nil_2.
  - simpl. lia.
Defined.

(** ** The interactive search *)

Lemma appends_ret {A} (a : A) : appends (mret a : io A).
Proof. intros out0. unfold mret, io_ret. simpl. by rewrite app_nil_r. Qed.

Lemma appends_lift {A} (m : outcome A) : appends (lift m).
Proof. intros out0. unfold lift. simpl. by rewrite app_nil_r. Qed.

Lemma appends_print line : appends (print line).
Proof. intros out0. done. Qed.

Lemma appends_input p : appends (input p).
Proof. intros out0. done. Qed.

Lemma appends_bind {A B} (m : io A) (f : A → io B) :
  appends m → (∀ a, appends (f a)) → appends (m ≫= f).
Proof.
  intros Hm Hf out0. unfold mbind, io_bind. rewrite (Hm out0).
  destruct (m []) as [o1 [a| |]]; simpl; [|done..].
  rewrite (Hf a (out0 ++ o1)), (Hf a o1). simpl. by rewrite app_assoc.
Qed.

Lemma io_bind_lift {A B} (m : outcome A) (a : A) (f : A → io B) out :
  m = Returned a → (lift m ≫= f) out = f a out.
Proof. by intros ->. Qed.

Lemma io_bind_run {A B} (m : io A) (a : A) (f : A → io B) out out' :
  m out = (out', Returned a) → (m ≫= f) out = f a out'.
Proof. intros H. unfold mbind, io_bind. by rewrite H. Qed.

Lemma appends_for_each {A} (l : list A) (body : A → io unit) :
  (∀ a, appends (body a)) → appends (for_each l body).
Proof.
  intros Hb. induction l as [|a l IH]; simpl.
  - apply appends_ret.
  - apply appends_bind; [done|]. by intros _.
Qed.

Lemma appends_pretty_print (g : grid) : appends (pretty_print g).
Proof.
  unfold pretty_print.
  repeat (apply appends_bind; [apply appends_lift || apply appends_print|intros ?]).
  apply appends_for_each. intros r.
  repeat (apply appends_bind; [apply appends_lift || apply appends_print|intros ?]).
  apply appends_print.
Qed.

Lemma well_formed_setitem (g g' : grid) y x n :
  well_formed g → 0 ≤ n ≤ 9 → setitem g y x n = Returned g' → well_formed g'.
Proof.
  intros [Hs Hr] Hn (_ & Hsh & Hc & Ho)%setitem_Returned. split.
  - by eapply shape99_same_shape.
  - apply in_range_getitem. intros y' x' v Hv.
    destruct (decide ((y', x') = (y, x))) as [[= -> ->]|Hne].
    + rewrite Hc in Hv. injection Hv as <-. lia.
    + rewrite Ho in Hv by done. by eapply in_range_getitem.
Qed.

Lemma shown_app new new' : shown (new ++ new') = shown new ++ shown new'.
Proof. unfold shown. by rewrite fmap_app, join_app. Qed.

Section interactive.
Variable rec : state → outcome state.
Variable rec_io : state → io state.
Variable max : max_solutions.
Hypothesis rec_shows : ∀ s s' out,
  well_formed (sudoku s) → rec s = Returned s' →
  well_formed (sudoku s') ∧
  ∃ new, solutions s' = solutions s ++ new ∧
         rec_io s out = (out ++ shown new, Returned s').

Variables (y0 x0 : nat).

Lemma try_digit_shows n s s' out :
  1 ≤ n ≤ 9 → well_formed (sudoku s) →
  try_digit rec max y0 x0 n s = Returned s' →
  well_formed (sudoku s') ∧
  ∃ new, solutions s' = solutions s ++ new ∧
         try_digit_io rec_io max y0 x0 n s out = (out ++ shown new, Returned s').
Proof.
  intros Hn Hwf Htry. unfold try_digit_io.
  apply try_digit_Returned in Htry
    as [[Hp ->]|(Hp & g1 & s2 & Hset & Hrec & Hcase)].
  { split; [done|]. exists []. split; [by rewrite app_nil_r|].
    rewrite (io_bind_lift _ _ _ _ Hp). unfold shown. simpl.
    by rewrite app_nil_r. }
  destruct (rec_shows (State g1 (solutions s)) s2 out) as (Hwf2 & new & Hnew & Hio);
    [by apply (well_formed_setitem (sudoku s) g1 y0 x0 n); [|lia|]|done|].
  simpl in Hnew.
  assert (well_formed (sudoku s')) as Hwf'.
  { destruct Hcase as [(Hb & g3 & Hg3 & ->)|(Hb & ->)]; [|done].
    by apply (well_formed_setitem (sudoku s2) g3 y0 x0 0); [|lia|]. }
  split; [done|]. exists new. split.
  { by destruct Hcase as [(Hb & g3 & Hg3 & ->)|(Hb & ->)]. }
  rewrite (io_bind_lift _ _ _ _ Hp). cbn beta iota.
  rewrite (io_bind_lift _ _ _ _ Hset).
  rewrite (io_bind_run _ _ _ _ _ Hio).
  destruct Hcase as [(Hb & g3 & Hg3 & ->)|(Hb & ->)]; rewrite Hb.
  - by rewrite (io_bind_lift _ _ _ _ Hg3).
  - done.
Qed.

Lemma for_digits_shows ns s s' out :
  Forall (λ n, 1 ≤ n ≤ 9) ns → well_formed (sudoku s) →
  for_digits rec max y0 x0 ns s = Returned s' →
  well_formed (sudoku s') ∧
  ∃ new, solutions s' = solutions s ++ new ∧
         for_digits_io rec_io max y0 x0 ns s out = (out ++ shown new, Returned s').
Proof.
  intros Hns. revert s out.
  induction Hns as [|n ns Hn _ IH]; intros s out Hwf H.
  - simpl in H. injection H as <-. split; [done|]. exists [].
    simpl. unfold mret, io_ret. by rewrite !app_nil_r.
  - apply for_digits_cons in H as (s1 & H1 & H).
    destruct (try_digit_shows n s s1 out Hn Hwf H1) as (Hwf1 & new1 & Hn1 & Hio1).
    destruct (IH s1 (out ++ shown new1) Hwf1 H) as (Hwf' & new' & Hn' & Hio').
    split; [done|]. exists (new1 ++ new'). split.
    + by rewrite Hn', Hn1, app_assoc.
    + cbn [for_digits_io]. rewrite (io_bind_run _ _ _ _ _ Hio1), Hio'.
      by rewrite shown_app, app_assoc.
Qed.
End interactive.

Lemma solve_io_shows fuel max s s' out :
  well_formed (sudoku s) → solve_rec fuel max s = Returned s' →
  well_formed (sudoku s') ∧
  ∃ new, solutions s' = solutions s ++ new ∧
         solve_io fuel max true s out = (out ++ shown new, Returned s').
Proof.
  revert s s' out. induction fuel as [|fuel IH]; intros s s' out Hwf H; [done|].
  rewrite solve_rec_S in H. cbn [solve_io].
  destruct (where_eq (sudoku s) 0) as [|[y0 x0] l] eqn:Hw.
  - injection H as <-. split; [done|]. exists [sudoku s]. split; [done|].
    destruct (pretty_print_cells (sudoku s) Hwf) as (board & Hboard & _).
    unfold mbind, io_bind. rewrite (appends_pretty_print (sudoku s) out), Hboard.
    unfold input, mret, io_ret, shown. simpl. rewrite Hboard. simpl.
    by rewrite app_nil_r, app_assoc.
  - eapply for_digits_shows; [|apply range_1_10_digits|done..].
    intros t t' o. apply IH.
Qed.

Lemma silent_lift {A} (m : outcome A) : silent (lift m) m.
Proof. by intros out. Qed.

Lemma silent_ret {A} (a : A) : silent (mret a : io A) (Returned a).
Proof. by intros out. Qed.

Lemma silent_bind {A B} (m : io A) (o : outcome A) (f : A → io B)
    (k : A → outcome B) :
  silent m o → (∀ a, silent (f a) (k a)) → silent (m ≫= f) (o ≫= k).
Proof.
  intros Hm Hf out. unfold mbind at 1, io_bind. rewrite (Hm out).
  destruct o as [a| |]; [apply Hf|done..].
Qed.

Lemma try_digit_io_silent rec rec_io max y0 x0 n s :
  (∀ t, silent (rec_io t) (rec t)) →
  silent (try_digit_io rec_io max y0 x0 n s) (try_digit rec max y0 x0 n s).
Proof.
  intros Hrec. unfold try_digit_io, try_digit.
  apply silent_bind; [apply silent_lift|]. intros [|]; [|apply silent_ret].
  apply silent_bind; [apply silent_lift|]. intros g1.
  apply silent_bind; [apply Hrec|]. intros s2.
  destruct (below _ max); [|apply silent_ret].
  apply silent_bind; [apply silent_lift|]. intros g3. apply silent_ret.
Qed.

Lemma for_digits_io_silent rec rec_io max y0 x0 ns s :
  (∀ t, silent (rec_io t) (rec t)) →
  silent (for_digits_io rec_io max y0 x0 ns s) (for_digits rec max y0 x0 ns s).
Proof.
  intros Hrec. revert s. induction ns as [|n ns IH]; intros s.
  - apply silent_ret.
  - cbn [for_digits_io for_digits].
    apply silent_bind; [by apply try_digit_io_silent|]. apply IH.
Qed.

Lemma solve_io_silent fuel max s :
  silent (solve_io fuel max false s) (solve_rec fuel max s).
Proof.
  revert s. induction fuel as [|fuel IH]; intros s; [apply silent_lift|].
  rewrite solve_rec_S. cbn [solve_io].
  destruct (where_eq (sudoku s) 0) as [|[y0 x0] l].
  - apply (silent_bind _ (Returned tt) _ (λ _, Returned _));
      [apply silent_ret|intros _; apply silent_ret].
  - by apply for_digits_io_silent.
Qed.

(** X18: on a well-formed board, the search with [interactive=True]
    returns the same list and leaves the same working grid as the search
    without it, and what it writes is, for each grid it records and in
    the order of the list, the printed board followed by the prompt;
    with [interactive=False] it writes nothing. *)
Theorem solve_interactive (G : grid) (max : max_solutions) :
  well_formed G →
  ∃ s, solve G max = Returned s ∧
       solve_io (S (zeros G)) max true (State G []) []
         = (shown (solutions s), Returned s) ∧
       solve_io (S (zeros G)) max false (State G []) [] = ([], Returned s).
Proof.
  intros Hwf. destruct (solve_returns G max (proj1 Hwf)) as [s Hs].
  exists s. split; [done|]. split.
  - destruct (solve_io_shows _ _ (State G []) s [] Hwf Hs) as (_ & new & Hnew & ->).
    simpl in Hnew. by rewrite Hnew.
  - rewrite (solve_io_silent _ _ _ []). by rewrite <- Hs.
Qed.

Lemma solve_interactive_witness :
  ∃ s, solve example_puzzle (Limit 1) = Returned s ∧
       solve_io (S (zeros example_puzzle)) (Limit 1) true (State example_puzzle []) []
         = (shown (solutions s), Returned s) ∧
       solve_io (S (zeros example_puzzle)) (Limit 1) false (State example_puzzle []) []
         = ([], Returned s).
Proof.
  apply (solve_interactive example_puzzle (Limit 1)).
  apply (bool_decide_unpack _). vm_compute. exact I.
Defined.
